(** * Sit/start scoring pipeline: shallow embedding and verification

    The development follows [netlify/functions/_lib/ff-scoring.mjs], the
    game-context helpers of [ff-odds.mjs] ([calculateScriptLean],
    [getGameContext]) and the scoring loop of the [ff-run] handler.  Further
    sections cover the lines and odds helpers of [ff-odds.mjs], the league
    settings and the choice of the game in [ff-yahoo.mjs], and the token and
    cache logic of [ff-blobs.mjs]; what the network and the blob store
    answer is an input of the functions there.

    Numbers.  A JavaScript number is embedded as a real number: sums,
    products, quotients and [Math.sqrt] are the exact operations of [R], so
    rounding, overflow and [NaN] are outside the model (the one place where a
    missing weight yields [NaN] is treated separately in [Module Loose]).
    Rounding changes an outcome by more than a rounding error in one place,
    the zero test of [calculateZScore]; [Module Double] has that function on
    IEEE doubles.  A value that may be [null] or [undefined] is an [option].

    Objects.  A props object and the slot-requirement object are finite maps
    keyed by strings; a record is used where the code reads a fixed set of
    fields. *)

From Stdlib Require Import PrimFloat.
From Stdlib Require Import Reals Lra Lia Ascii String Sorting.Permutation Sorting.Sorted.
From stdpp Require Import gmap strings list.

Open Scope R_scope.
Open Scope string_scope.
Open Scope list_scope.

(** ** JavaScript number idioms *)

Definition Reqb (a b : R) : bool := if Req_dec_T a b then true else false.
Definition Rleb (a b : R) : bool := if Rle_dec a b then true else false.
Definition Rltb (a b : R) : bool := if Rlt_dec a b then true else false.
Definition Rgeb (a b : R) : bool := Rleb b a.

(** [if (x)] on a possibly missing number: missing and [0] are falsy. *)
Definition truthy (o : option R) : bool :=
  match o with
  | Some x => negb (Reqb x 0)
  | None => false
  end.

(** [x || d] on a possibly missing number. *)
Definition orElse (o : option R) (d : R) : R :=
  match o with
  | Some x => if Reqb x 0 then d else x
  | None => d
  end.

(** [ToNumber] of a number that may be [null]: [null] compares as [0]. *)
Definition toNumber (o : option R) : R :=
  match o with
  | Some x => x
  | None => 0
  end.

(** [String.prototype.toUpperCase] on the ASCII letters. *)
Definition upperAscii (c : ascii) : ascii :=
  let n := nat_of_ascii c in
  if (Nat.leb 97 n && Nat.leb n 122)%bool then ascii_of_nat (n - 32) else c.

Fixpoint toUpperCase (s : string) : string :=
  match s with
  | EmptyString => EmptyString
  | String c r => String (upperAscii c) (toUpperCase r)
  end.

(** ** Data model *)

(** A props object as the scoring functions read it: market name to value. *)
Abbreviation Props := (gmap string R).

Record ScoringRules := mkRules {
  passYards : R;
  passTD : R;
  passInt : R;
  rushYards : R;
  rushTD : R;
  recYards : R;
  reception : R;
  recTD : R;
  fumble : R;
  twoPtConversion : R
}.

Record ImpliedTotals := mkIT { homeIT : R; awayIT : R }.

(** One entry of the week's lines ([getWeekLines]): [spread] is signed
    relative to the home team; [spread], [total] and [implied_totals] are
    [null] when the bookmakers gave none. *)
Record GameContext := mkContext {
  home_team : string;
  away_team : string;
  spread : option R;
  total : option R;
  implied_totals : option ImpliedTotals
}.

(** A roster entry ([getTeamRoster]). *)
Record Player := mkPlayer {
  name : string;
  position : string;
  team : string;
  status : option string;
  bye_week : option nat;
  slot : string
}.

(** The object pushed by the first loop of the handler:
    [{...player, props, context, efp, ceiling_bonus, is_bye_week}]. *)
Record Estimated := mkEstimated {
  player :> Player;
  props : Props;
  context : option GameContext;
  efp : R;
  ceiling_bonus : R;
  is_bye_week : bool
}.

(** The same object once the second loop has stored [score]; [tier] is
    [undefined] until something assigns it. *)
Record ScoredPlayer := mkScored {
  estimated :> Estimated;
  score : R;
  tier : option string
}.

(** [{...player, slot: s}] *)
Definition withSlot (s : string) (p : ScoredPlayer) : ScoredPlayer :=
  let e := estimated p in
  let q := player e in
  mkScored
    (mkEstimated
       (mkPlayer (name q) (position q) (team q) (status q) (bye_week q) s)
       (props e) (context e) (efp e) (ceiling_bonus e) (is_bye_week e))
    (score p) (tier p).

(** [{...player, tier: t}] *)
Definition withTier (t : string) (p : ScoredPlayer) : ScoredPlayer :=
  mkScored (estimated p) (score p) (Some t).

(** ** Game context ([ff-odds.mjs]) *)

(** [calculateScriptLean(context, team, threshold)], returning
    [(passLean, runLean)]. *)
Definition calculateScriptLean (ctx : GameContext) (tm : string) (threshold : R)
  : R * R :=
  if (negb (truthy (spread ctx)) || negb (bool_decide (is_Some (implied_totals ctx))))%bool
  then (0, 0)
  else
    let isHome := String.eqb tm (home_team ctx) in
    let teamSpread := if isHome then toNumber (spread ctx) else - toNumber (spread ctx) in
    let passLean := if Rgeb teamSpread threshold then 1 else 0 in
    let runLean := if Rleb teamSpread (- threshold) then 1 else 0 in
    (passLean, runLean).

(** [getGameContext(lines, team)]: the first game the team plays in. *)
Fixpoint getGameContext (lines : list GameContext) (tm : string)
  : option GameContext :=
  match lines with
  | [] => None
  | game :: rest =>
      if (String.eqb (home_team game) tm || String.eqb (away_team game) tm)%bool
      then Some game
      else getGameContext rest tm
  end.

(** ** Scoring ([ff-scoring.mjs]) *)

Definition TIER_S : R := 1.2.
Definition TIER_A : R := 0.6.
Definition TIER_B : R := -0.2.
Definition TIER_C : R := -0.8.

Definition CEILING_WEIGHTS : gmap string R :=
  {[ "RB" := 0.8; "TE" := 0.6; "WR" := 0.35; "QB" := 0; "K" := 0; "DEF" := 0 ]}.

Definition FALLBACK_BASELINES : gmap string R :=
  {[ "QB" := 15; "RB" := 10; "WR" := 8; "TE" := 6; "K" := 8; "DEF" := 8 ]}.

(** [applyFallback(position, teamContext, scoringRules)]; the rules are
    passed and never read, so their type is left open. *)
Definition applyFallback {Rules : Type} (pos : string)
    (teamContext : option GameContext) (scoringRules : Rules) : R :=
  let baseline := orElse (FALLBACK_BASELINES !! pos) 5 in
  match teamContext with
  | None => baseline
  | Some ctx =>
      match implied_totals ctx with
      | None => baseline
      | Some its =>
          let it := homeIT its in
          let itBonus := Rmax 0 ((it - 21) / 3) in
          let sp := toNumber (spread ctx) in
          let scriptBonus :=
            if String.eqb pos "QB" then (if Rltb sp 0 then 1 else 0)
            else if String.eqb pos "RB" then (if Rleb sp (-4.5) then 1.5 else 0)
            else if (String.eqb pos "WR" || String.eqb pos "TE")%bool
                 then (if Rgeb sp 4.5 then 1 else 0)
            else 0 in
          baseline + itBonus + scriptBonus
      end
  end.

(** The touchdown weight of a position: [recTD] for pass catchers,
    [rushTD] for everybody else. *)
Definition tdValueOf (rules : ScoringRules) (pos : string) : R :=
  if (String.eqb pos "WR" || String.eqb pos "TE")%bool
  then recTD rules else rushTD rules.

(** [if (props.k) efp += props.k * w] *)
Definition addProp (o : option R) (w : R) (acc : R) : R :=
  if truthy o then acc + toNumber o * w else acc.

(** [expectedFantasyPoints(props, scoringRules, position, teamContext)] *)
Definition expectedFantasyPoints (prs : Props) (rules : ScoringRules)
    (pos : string) (teamContext : option GameContext) : R :=
  if bool_decide (prs = ∅) then applyFallback pos teamContext rules
  else
    let efp := 0 in
    let efp := addProp (prs !! "pass_yds") (passYards rules) efp in
    let efp := addProp (prs !! "pass_tds") (passTD rules) efp in
    let efp := addProp (prs !! "interceptions") (passInt rules) efp in
    let efp := addProp (prs !! "rush_yds") (rushYards rules) efp in
    let efp := addProp (prs !! "rec_yds") (recYards rules) efp in
    let efp := addProp (prs !! "receptions") (reception rules) efp in
    let efp := addProp (prs !! "anytime_td_prob") (tdValueOf rules pos) efp in
    efp.

(** [applyMultiTDBonus(baseEFP, props, scoringRules, position)] *)
Definition applyMultiTDBonus (baseEFP : R) (prs : Props) (rules : ScoringRules)
    (pos : string) : R :=
  let weight := orElse (CEILING_WEIGHTS !! pos) 0 in
  if (Reqb weight 0 || negb (truthy (prs !! "two_plus_td_prob")))%bool then 0
  else
    let tdValue := tdValueOf rules pos in
    toNumber (prs !! "two_plus_td_prob") * tdValue * weight.

(** [calculateZScore(value, dataset)] in exact arithmetic.  The test
    [stdDev === 0] is decided on the exact deviation here; the code decides
    it on doubles, which differs when all members are equal and their mean
    does not round back to the member ([Double.calculateZScore]).  With two
    different members the deviation is not 0 in either reading. *)
Definition calculateZScore (value : R) (dataset : list R) : R :=
  match dataset with
  | [] => 0
  | _ =>
      let n := INR (length dataset) in
      let mean := fold_left (fun sum v => sum + v) dataset 0 / n in
      let variance :=
        fold_left (fun sum v => sum + (v - mean) ^ 2) dataset 0 / n in
      let stdDev := sqrt variance in
      if Reqb stdDev 0 then 0 else (value - mean) / stdDev
  end.

(** [calculateScriptBonus(position, context)] *)
Definition calculateScriptBonus (pos : string) (context : option GameContext) : R :=
  match context with
  | None => 0
  | Some ctx =>
      if negb (truthy (spread ctx)) then 0
      else
        let sp := toNumber (spread ctx) in
        let '(passLean, runLean) := calculateScriptLean ctx (home_team ctx) 4.5 in
        if String.eqb pos "RB" then 0.6 * runLean
        else if (String.eqb pos "WR" || String.eqb pos "TE")%bool then 0.6 * passLean
        else if String.eqb pos "QB" then (if Rltb sp 0 then 0.4 else 0)
        else 0
  end.

(** [calculateITBonus(context)] *)
Definition calculateITBonus (context : option GameContext) : R :=
  match context with
  | None => 0
  | Some ctx =>
      match implied_totals ctx with
      | None => 0
      | Some its => (homeIT its - 21) / 7
      end
  end.

(** [calculateInjuryPenalty(status)]: an empty string is falsy. *)
Definition calculateInjuryPenalty (st : option string) : R :=
  match st with
  | None => 0
  | Some "" => 0
  | Some raw =>
      let s := toUpperCase raw in
      if String.eqb s "Q" then -0.3
      else if String.eqb s "D" then -0.8
      else if (String.eqb s "O" || String.eqb s "IR" || String.eqb s "PUP"
               || String.eqb s "SUSP")%bool then -999
      else 0
  end.

(** [calculateSitStartScore(efp, context, player, scoringRules, allPlayers)];
    [byePenalty] is [0] on both branches of its conditional. *)
Definition calculateSitStartScore (efp0 : R) (context : option GameContext)
    (p : Player) (rules : ScoringRules) (allPlayers : list Estimated) : R :=
  match context with
  | None => 0
  | Some _ =>
      let positionPlayers :=
        List.filter (fun q : Estimated => String.eqb (position q) (position p)) allPlayers in
      let zScore := calculateZScore efp0 (map efp positionPlayers) in
      let scriptBonus := calculateScriptBonus (position p) context in
      let itBonus := calculateITBonus context in
      let injuryPenalty := calculateInjuryPenalty (status p) in
      let byePenalty := 0 in
      zScore + (0.35 * scriptBonus) + (0.25 * itBonus) + (0.20 * injuryPenalty)
        + byePenalty
  end.

(** The tier chosen by [assignTiers] for one score. *)
Definition tierOf (sc : R) : string :=
  if Rgeb sc TIER_S then "S"
  else if Rgeb sc TIER_A then "A"
  else if Rgeb sc TIER_B then "B"
  else if Rgeb sc TIER_C then "C"
  else "D".

(** [assignTiers(players)] *)
Definition assignTiers (players : list ScoredPlayer) : list ScoredPlayer :=
  map (fun p => withTier (tierOf (score p)) p) players.

(** [Array.prototype.sort(cmp)]: the sort is stable, so its result is the
    one a stable insertion sort computes; an element moves behind a later
    one only where [cmp] is positive. *)
Section Sort.
Context {A : Type} (cmp : A -> A -> R).

Fixpoint insertSorted (x : A) (l : list A) : list A :=
  match l with
  | [] => [x]
  | y :: r => if Rltb 0 (cmp x y) then y :: insertSorted x r else x :: y :: r
  end.

Definition sortWith (l : list A) : list A := foldr insertSorted [] l.
End Sort.

Record Lineup := mkLineup {
  starters : list ScoredPlayer;
  bench : list ScoredPlayer
}.

(** The state of the loop of [fillLineup]: the [filled] counters and the two
    arrays being pushed to. *)
Record FillState := mkFill {
  filled : gmap string nat;
  accStarters : list ScoredPlayer;
  accBench : list ScoredPlayer
}.

(** One iteration.  [filled[pos]] is [undefined] for a position the
    requirement object does not list, and [undefined < needed] is false. *)
Definition fillStep (positionCounts : gmap string nat) (st : FillState)
    (p : ScoredPlayer) : FillState :=
  let pos := position p in
  let needed := default 0%nat (positionCounts !! pos) in
  match filled st !! pos with
  | Some k =>
      if (k <? needed)%nat
      then mkFill (<[pos := S k]> (filled st))
                  (accStarters st ++ [withSlot pos p]) (accBench st)
      else mkFill (filled st) (accStarters st) (accBench st ++ [withSlot "BN" p])
  | None => mkFill (filled st) (accStarters st) (accBench st ++ [withSlot "BN" p])
  end.

(** [fillLineup(scoredPlayers, positionCounts)] *)
Definition fillLineup (scoredPlayers : list ScoredPlayer)
    (positionCounts : gmap string nat) : Lineup :=
  let sorted := sortWith (fun a b => score b - score a) scoredPlayers in
  let filled0 : gmap string nat := (fun _ => 0%nat) <$> positionCounts in
  let st := fold_left (fillStep positionCounts) sorted (mkFill filled0 [] []) in
  mkLineup (accStarters st) (accBench st).

(** A suggestion of [tryFlexSwaps]; [improvement] is kept as the number
    that the code renders with one decimal. *)
Record Swap := mkSwap {
  action : string;
  swapOut : string;
  swapIn : string;
  improvement : R
}.

Definition flexEligible (pos : string) : bool :=
  (String.eqb pos "RB" || String.eqb pos "WR" || String.eqb pos "TE")%bool.

(** [tryFlexSwaps(starters, bench)] *)
Definition tryFlexSwaps (sts bn : list ScoredPlayer) : list Swap :=
  let flexStarters :=
    List.filter (fun p : ScoredPlayer =>
                   (flexEligible (position p) && String.eqb (slot p) "FLEX")%bool) sts in
  let flexBench :=
    List.filter (fun p : ScoredPlayer => flexEligible (position p)) bn in
  let flexStarters := sortWith (fun a b => score a - score b) flexStarters in
  let flexBench := sortWith (fun a b => score b - score a) flexBench in
  let swaps :=
    flat_map (fun benchPlayer : ScoredPlayer =>
      flat_map (fun starterPlayer : ScoredPlayer =>
        if Rltb 1.0 (score benchPlayer - score starterPlayer)
        then [mkSwap "swap" (name starterPlayer) (name benchPlayer)
                     (score benchPlayer - score starterPlayer)]
        else []) flexStarters) flexBench in
  take 3 swaps.

(** ** The scoring loop of the [ff-run] handler *)

(** First loop: one roster entry to the object pushed on [scoredPlayers]. *)
Definition estimate (lines : list GameContext) (allProps : gmap string Props)
    (rules : ScoringRules) (p : Player) : Estimated :=
  match getGameContext lines (team p) with
  | None => mkEstimated p ∅ None 0 0 true
  | Some gameContext =>
      let prs : Props := default ∅ (allProps !! name p) in
      let efp0 := expectedFantasyPoints prs rules (position p) (Some gameContext) in
      let ceilingBonus := applyMultiTDBonus efp0 prs rules (position p) in
      let totalEFP := efp0 + ceilingBonus in
      mkEstimated p prs (Some gameContext) totalEFP ceilingBonus false
  end.

(** The cohort handed to [calculateSitStartScore]:
    [scoredPlayers.filter(p => !p.is_bye_week)]. *)
Definition nonBye (scoredPlayers : list Estimated) : list Estimated :=
  List.filter (fun p : Estimated => negb (is_bye_week p)) scoredPlayers.

(** Second loop: the body for one element of [scoredPlayers].  The loop
    stores [score] and [tier] on the objects of the array it filters for
    the cohort; the cohort is read for [position] and [efp] only, which the
    loop leaves alone. *)
Definition scoreOne (rules : ScoringRules) (scoredPlayers : list Estimated)
    (e : Estimated) : ScoredPlayer :=
  if is_bye_week e then mkScored e 0 (Some "BYE")
  else
    mkScored e
      (calculateSitStartScore (efp e) (context e) e rules (nonBye scoredPlayers))
      None.

(** Step 8 of the handler up to [assignTiers]. *)
Definition tieredPlayers (lines : list GameContext) (allProps : gmap string Props)
    (rules : ScoringRules) (roster : list Player) : list ScoredPlayer :=
  let scoredPlayers := map (estimate lines allProps rules) roster in
  let scored := map (scoreOne rules scoredPlayers) scoredPlayers in
  assignTiers scored.

(** The lineup and the swap suggestions the handler answers with. *)
Definition runScoring (lines : list GameContext) (allProps : gmap string Props)
    (rules : ScoringRules) (positionCounts : gmap string nat)
    (roster : list Player) : Lineup * list Swap :=
  let lineup := fillLineup (tieredPlayers lines allProps rules roster) positionCounts in
  (lineup, tryFlexSwaps (starters lineup) (bench lineup)).

(** ** Scoring rules as a plain object

    [getLeagueSettings] hands the rules over as an object.  This module
    reads the weights the way the language does when nothing guarantees the
    fields: a property of [null] or [undefined] cannot be read (a
    [TypeError] is thrown), a missing property reads [undefined], and
    arithmetic on [undefined] gives [NaN]. *)
Module Loose.

Inductive jsnum := Num (x : R) | NaN.

Inductive outcome := Returns (v : jsnum) | Throws.

Definition jsadd (a b : jsnum) : jsnum :=
  match a, b with
  | Num x, Num y => Num (x + y)
  | _, _ => NaN
  end.

Definition jsmul (a b : jsnum) : jsnum :=
  match a, b with
  | Num x, Num y => Num (x * y)
  | _, _ => NaN
  end.

Definition bind (o : outcome) (k : jsnum -> outcome) : outcome :=
  match o with
  | Returns v => k v
  | Throws => Throws
  end.

(** [scoringRules.field] used as a factor. *)
Definition readWeight (scoringRules : option (gmap string R)) (field : string)
  : outcome :=
  match scoringRules with
  | None => Throws
  | Some obj =>
      match obj !! field with
      | Some w => Returns (Num w)
      | None => Returns NaN
      end
  end.

(** [if (props.k) efp += props.k * scoringRules.field] *)
Definition addProp (o : option R) (scoringRules : option (gmap string R))
    (field : string) (acc : outcome) : outcome :=
  bind acc (fun efp0 =>
    if truthy o
    then bind (readWeight scoringRules field)
              (fun w => Returns (jsadd efp0 (jsmul (Num (toNumber o)) w)))
    else Returns efp0).

Definition tdField (pos : string) : string :=
  if (String.eqb pos "WR" || String.eqb pos "TE")%bool then "recTD" else "rushTD".

Definition expectedFantasyPoints (prs : Props)
    (scoringRules : option (gmap string R)) (pos : string)
    (teamContext : option GameContext) : outcome :=
  if bool_decide (prs = ∅)
  then Returns (Num (applyFallback pos teamContext scoringRules))
  else
    let efp := Returns (Num 0) in
    let efp := addProp (prs !! "pass_yds") scoringRules "passYards" efp in
    let efp := addProp (prs !! "pass_tds") scoringRules "passTD" efp in
    let efp := addProp (prs !! "interceptions") scoringRules "passInt" efp in
    let efp := addProp (prs !! "rush_yds") scoringRules "rushYards" efp in
    let efp := addProp (prs !! "rec_yds") scoringRules "recYards" efp in
    let efp := addProp (prs !! "receptions") scoringRules "reception" efp in
    let efp := addProp (prs !! "anytime_td_prob") scoringRules (tdField pos) efp in
    efp.

(** The object with all ten weights of a [ScoringRules] record. *)
Definition toObject (r : ScoringRules) : gmap string R :=
  {[ "passYards" := passYards r; "passTD" := passTD r; "passInt" := passInt r;
     "rushYards" := rushYards r; "rushTD" := rushTD r; "recYards" := recYards r;
     "reception" := reception r; "recTD" := recTD r; "fumble" := fumble r;
     "twoPtConversion" := twoPtConversion r ]}.

End Loose.

(** ** The z-score in double precision

    [calculateZScore] as the engine computes it, on IEEE 754 binary64
    numbers with round-to-nearest.  [Math.pow(d, 2)] is the product [d * d],
    and the length of the data set is counted in doubles, which is exact up
    to [2^53].  This is the reading to use where the zero test
    [stdDev === 0] decides the result. *)
Module Double.

(** [dataset.length] as a number. *)
Fixpoint ofNat (n : nat) : float :=
  match n with
  | O => 0%float
  | S k => (ofNat k + 1)%float
  end.

(** [calculateZScore(value, dataset)] *)
Definition calculateZScore (value : float) (dataset : list float) : float :=
  match dataset with
  | [] => 0%float
  | _ =>
      let n := ofNat (length dataset) in
      let mean := (fold_left (fun sum v => sum + v) dataset 0 / n)%float in
      let variance :=
        (fold_left (fun sum v => sum + (v - mean) * (v - mean)) dataset 0 / n)%float in
      let stdDev := PrimFloat.sqrt variance in
      if (stdDev =? 0)%float then 0%float else ((value - mean) / stdDev)%float
  end.

(** The double that the literal [0.1] denotes. *)
Definition tenth : float := 0x1.999999999999ap-4%float.

(** The fallback estimate of a receiver without props in a game whose home
    implied total is 34 and whose spread earns no script bonus:
    [baseline + itBonus + scriptBonus] with [itBonus = (34 - 21) / 3]. *)
Definition receiverFallback34 : float := (8 + (34 - 21) / 3 + 0)%float.

End Double.

(** ** Helpers for statements about the scoring functions *)

(** The tiers from worst to best. *)
Definition tierRank (t : string) : nat :=
  if String.eqb t "S" then 4
  else if String.eqb t "A" then 3
  else if String.eqb t "B" then 2
  else if String.eqb t "C" then 1
  else 0.

(** Weight-wise sum and multiple of two rule sets. *)
Definition rulesAdd (a b : ScoringRules) : ScoringRules :=
  mkRules (passYards a + passYards b) (passTD a + passTD b)
    (passInt a + passInt b) (rushYards a + rushYards b) (rushTD a + rushTD b)
    (recYards a + recYards b) (reception a + reception b) (recTD a + recTD b)
    (fumble a + fumble b) (twoPtConversion a + twoPtConversion b).

Definition rulesScale (k : R) (a : ScoringRules) : ScoringRules :=
  mkRules (k * passYards a) (k * passTD a) (k * passInt a) (k * rushYards a)
    (k * rushTD a) (k * recYards a) (k * reception a) (k * recTD a)
    (k * fumble a) (k * twoPtConversion a).

(** The prop fields [expectedFantasyPoints] reads. *)
Definition scoredFields : list string :=
  [ "pass_yds"; "pass_tds"; "interceptions"; "rush_yds"; "rec_yds";
    "receptions"; "anytime_td_prob" ].

(** ** Reasons and the actual lineup ([ff-scoring.mjs], continued) *)

(** The texts of [generateReasons] print numbers with template strings and
    [toFixed]; the two renderings are left open, everything around them is
    the literal text of the code. *)
Section Reasons.
Variable numStr : R -> string.
Variable toFixed : R -> nat -> string.

(** [if (props.k) propParts.push(...)] *)
Definition pushPart (o : option R) (render : R -> string) (parts : list string)
  : list string :=
  if truthy o then parts ++ [render (toNumber o)] else parts.

Definition propParts (prs : Props) : list string :=
  let parts := [] in
  let parts := pushPart (prs !! "pass_yds") (fun x => numStr x +:+ " pass yds") parts in
  let parts := pushPart (prs !! "rush_yds") (fun x => numStr x +:+ " rush yds") parts in
  let parts := pushPart (prs !! "rec_yds") (fun x => numStr x +:+ " rec yds") parts in
  let parts := pushPart (prs !! "receptions") (fun x => numStr x +:+ " rec") parts in
  let parts := pushPart (prs !! "anytime_td_prob")
                 (fun x => toFixed (x * 100) 0 +:+ "% TD") parts in
  let parts := pushPart (prs !! "two_plus_td_prob")
                 (fun x => toFixed (x * 100) 0 +:+ "% 2+ TD") parts in
  parts.

(** The blocks of [generateReasons], each as the list of what it pushes. *)
Definition propsReason (player : Estimated) : list string :=
  if negb (bool_decide (props player = ∅)) then
    let parts := propParts (props player) in
    if (0 <? length parts)%nat
    then ["Props: " +:+ String.concat ", " parts]
    else []
  else [].

Definition impliedTotalReason (player : Estimated) : list string :=
  match context player with
  | Some ctx =>
      match implied_totals ctx with
      | Some its =>
          let it := homeIT its in
          if Rgeb it 24 then ["High implied total (" +:+ toFixed it 1 +:+ ")"]
          else if Rleb it 18 then ["Low implied total (" +:+ toFixed it 1 +:+ ")"]
          else []
      | None => []
      end
  | None => []
  end.

Definition scriptReason (player : Estimated) : list string :=
  match context player with
  | Some ctx =>
      if truthy (spread ctx) then
        let '(passLean, runLean) := calculateScriptLean ctx (team player) 4.5 in
        (if (negb (Reqb passLean 0)
             && (String.eqb (position player) "WR"
                 || String.eqb (position player) "TE"
                 || String.eqb (position player) "QB"))%bool
         then ["Pass-heavy game script (underdog)"] else [])
        ++ (if (negb (Reqb runLean 0) && String.eqb (position player) "RB")%bool
            then ["Run-heavy game script (favorite)"] else [])
      else []
  | None => []
  end.

Definition ceilingReason (player : Estimated) : list string :=
  let o := props player !! "two_plus_td_prob" in
  if (truthy o && Rltb 0.15 (toNumber o))%bool
  then ["High ceiling (" +:+ toFixed (toNumber o * 100) 0 +:+ "% 2+ TD)"]
  else [].

Definition injuryReason (player : Estimated) : list string :=
  match status player with
  | None => []
  | Some "" => []
  | Some raw =>
      let s := toUpperCase raw in
      (if String.eqb s "Q" then ["Injury concern (Questionable)"] else [])
      ++ (if String.eqb s "D" then ["Injury concern (Doubtful)"] else [])
      ++ (if String.eqb s "O" then ["OUT for this game"] else [])
  end.

(** [player.bye_week === player.context?.week]: the lines that
    [getWeekLines] builds have no [week] field, so the right side is
    [undefined]; the roster's [bye_week] is a number or [null], and neither
    is strictly equal to [undefined]. *)
Definition byeWeekReason (player : Estimated) : list string :=
  if false then ["BYE WEEK - DO NOT START"] else [].

Definition missingPropsReason (player : Estimated) : list string :=
  if bool_decide (props player = ∅)
  then ["No props available (using fallback estimate)"] else [].

(** The array before [slice(0, 4)]. *)
Definition reasonsBeforeTrim (player : Estimated) : list string :=
  propsReason player ++ impliedTotalReason player ++ scriptReason player
  ++ ceilingReason player ++ injuryReason player ++ byeWeekReason player
  ++ missingPropsReason player.

(** [generateReasons(player, scoringRules)] *)
Definition generateReasons (player : Estimated) (rules : ScoringRules)
  : list string :=
  take 4 (reasonsBeforeTrim player).
End Reasons.

(** One iteration of the loop of [fillLineupFromActual]; [{ ...player }] is
    a copy of the player. *)
Definition actualStep (st : Lineup) (player : ScoredPlayer) : Lineup :=
  if (String.eqb (slot player) "BN" || String.eqb (slot player) "IR")%bool
  then mkLineup (starters st) (bench st ++ [player])
  else mkLineup (starters st ++ [player]) (bench st).

(** [fillLineupFromActual(scoredPlayers)] *)
Definition fillLineupFromActual (scoredPlayers : list ScoredPlayer) : Lineup :=
  fold_left actualStep scoredPlayers (mkLineup [] []).

(** A player sits on the bench of the actual lineup. *)
Definition onBench (p : ScoredPlayer) : bool :=
  (String.eqb (slot p) "BN" || String.eqb (slot p) "IR")%bool.

(** A starter that [tryFlexSwaps] looks at. *)
Definition flexStarter (p : ScoredPlayer) : bool :=
  (flexEligible (position p) && String.eqb (slot p) "FLEX")%bool.

(** A list with no more than one element. *)
Definition atMostOne {A} (l : list A) : Prop := l = [] \/ exists x, l = [x].

Definition noPropsNotice : string := "No props available (using fallback estimate)".
Definition runHeavy : string := "Run-heavy game script (favorite)".

(** The comparators of [tryFlexSwaps] and the orders they sort by. *)
Definition byScoreAsc (a b : ScoredPlayer) : R := score a - score b.

Definition scoreLe (a b : ScoredPlayer) : Prop := score a <= score b.

(** The suggestion for one pair. *)
Definition swapOf (starterPlayer benchPlayer : ScoredPlayer) : Swap :=
  mkSwap "swap" (name starterPlayer) (name benchPlayer)
    (score benchPlayer - score starterPlayer).

(** A pair that [tryFlexSwaps] may suggest. *)
Definition swapCandidate (sts bn : list ScoredPlayer) (s b : ScoredPlayer)
  : Prop :=
  In s sts /\ In b bn /\ flexStarter s = true
  /\ flexEligible (position b) = true /\ 1 < score b - score s.

(** ** Odds ([ff-odds.mjs]): the week's lines *)

(** One outcome of a bookmaker's market.  [point] is what
    [parseFloat(outcome.point)] gives: a number, or [None] for the [NaN] of
    a missing point (falsy like [null], and never less than anything). *)
Record Outcome := mkOutcome {
  outcome_name : string;
  point : option R
}.

Record Market := mkMarket {
  key : string;
  outcomes : list Outcome
}.

(** [market.outcomes.find(o => o.name === wanted)] *)
Definition findOutcome (wanted : string) (os : list Outcome) : option Outcome :=
  List.find (fun o => String.eqb (outcome_name o) wanted) os.

(** The body of the inner loop of [getWeekLines] for the two variables the
    scorer reads, [spread] and [total]: a market is read only while the
    variable is still falsy. *)
Definition lineStep (homeName : string) (st : option R * option R)
    (market : Market) : option R * option R :=
  let '(spread, total) := st in
  let spread' :=
    if (String.eqb (key market) "spreads" && negb (truthy spread))%bool
    then match findOutcome homeName (outcomes market) with
         | Some homeOutcome => point homeOutcome
         | None => spread
         end
    else spread in
  let total' :=
    if (String.eqb (key market) "totals" && negb (truthy total))%bool
    then match findOutcome "Over" (outcomes market) with
         | Some overOutcome => point overOutcome
         | None => total
         end
    else total in
  (spread', total').

(** Both loops: the bookmakers in the order received, each with its markets
    in order. *)
Definition bestLines (homeName : string) (bookmakers : list (list Market))
  : option R * option R :=
  fold_left (lineStep homeName) (concat bookmakers) (None, None).

(** [spread && total ? {homeIT, awayIT} : null] *)
Definition impliedTotals (spread total : option R) : option ImpliedTotals :=
  if (truthy spread && truthy total)%bool
  then Some (mkIT (toNumber total / 2 - toNumber spread / 2)
                  (toNumber total / 2 + toNumber spread / 2))
  else None.

(** The entry [getWeekLines] builds for one game, with the fields the scorer
    reads; [homeTeam] and [awayTeam] are the abbreviations after
    [TEAM_NAME_MAP]. *)
Definition gameLine (homeTeam awayTeam : string) (spread total : option R)
  : GameContext :=
  mkContext homeTeam awayTeam spread total (impliedTotals spread total).

(** The quotes a scan can pick up for a variable: the point of the wanted
    outcome in every market with the given key that has one. *)
Definition quotes (marketKey wanted : string) (markets : list Market)
  : list (option R) :=
  flat_map (fun m =>
    if String.eqb (key m) marketKey
    then match findOutcome wanted (outcomes m) with
         | Some o => [point o]
         | None => []
         end
    else []) markets.

(** [americanToProb(americanOdds)] *)
Definition americanToProb (americanOdds : R) : R :=
  if Rltb americanOdds 0
  then Rabs americanOdds / (Rabs americanOdds + 100)
  else 100 / (americanOdds + 100).

(** The estimate [getPlayerProps] stores as [two_plus_td_prob] beside
    [anytime_td_prob]: [Math.pow(impliedProb, 1.8) * 0.6].  [Rpower] is
    [Math.pow] on a positive base, which is all [americanToProb] returns. *)
Definition twoPlusTDProb (impliedProb : R) : R :=
  Rpower impliedProb 1.8 * 0.6.

(** ** The response ([ff-run.mjs]) *)

(** The [opponent] field of [formatPlayer]. *)
Definition opponent (player : Estimated) : option string :=
  match context player with
  | Some ctx =>
      Some (if String.eqb (team player) (home_team ctx)
            then away_team ctx else home_team ctx)
  | None => None
  end.

(** What a scan keeps of a list of quotes, starting from [acc]: a quote
    replaces the value held while that value is falsy. *)
Definition scanQuotes (qs : list (option R)) (acc : option R) : option R :=
  fold_left (fun held q => if truthy held then held else q) qs acc.

(** ** League settings ([ff-yahoo.mjs]) *)

Module Yahoo.

(** One entry of [settings.stat_categories.stats], already unwrapped
    ([stat.stat]).  [stat_id] is [None] when the field is not a number, which
    [===] never equates to one; [value] is the number [parseFloat] reads, or
    [None] when the field is missing. *)
Record Stat := mkStat {
  stat_id : option Z;
  value : option R
}.

(** One entry of [settings.roster_positions.roster_position]; [count] is the
    number [parseInt(pos.count, 10)] reads, or [None] for [NaN].  Counts are
    taken to be natural numbers, as a roster has them. *)
Record RosterPosition := mkRosterPosition {
  position : string;
  count : option nat
}.

(** The part of [settings] the function reads; a missing list is [[]]. *)
Record Settings := mkSettings {
  stat_categories : list (option Stat);
  roster_positions : list RosterPosition
}.

Definition DEFAULT_RULES : ScoringRules :=
  mkRules 0.04 4 (-2) 0.1 6 0.1 0 6 (-2) 2.

Definition DEFAULT_POSITIONS : gmap string nat :=
  <["QB" := 1%nat]> (<["RB" := 2%nat]> (<["WR" := 2%nat]> (<["TE" := 1%nat]>
  (<["FLEX" := 1%nat]> (<["K" := 1%nat]> (<["DEF" := 1%nat]>
  {["BN" := 6%nat]})))))).

(** [statId === n] *)
Definition isStat (statId : option Z) (n : Z) : bool :=
  match statId with
  | Some k => (k =? n)%Z
  | None => false
  end.

(** Assignments to one field of [scoringRules]. *)
Definition setPassYards (v : R) (r : ScoringRules) : ScoringRules :=
  mkRules v (passTD r) (passInt r) (rushYards r) (rushTD r) (recYards r)
    (reception r) (recTD r) (fumble r) (twoPtConversion r).
Definition setPassTD (v : R) (r : ScoringRules) : ScoringRules :=
  mkRules (passYards r) v (passInt r) (rushYards r) (rushTD r) (recYards r)
    (reception r) (recTD r) (fumble r) (twoPtConversion r).
Definition setPassInt (v : R) (r : ScoringRules) : ScoringRules :=
  mkRules (passYards r) (passTD r) v (rushYards r) (rushTD r) (recYards r)
    (reception r) (recTD r) (fumble r) (twoPtConversion r).
Definition setRushYards (v : R) (r : ScoringRules) : ScoringRules :=
  mkRules (passYards r) (passTD r) (passInt r) v (rushTD r) (recYards r)
    (reception r) (recTD r) (fumble r) (twoPtConversion r).
Definition setRushTD (v : R) (r : ScoringRules) : ScoringRules :=
  mkRules (passYards r) (passTD r) (passInt r) (rushYards r) v (recYards r)
    (reception r) (recTD r) (fumble r) (twoPtConversion r).
Definition setRecYards (v : R) (r : ScoringRules) : ScoringRules :=
  mkRules (passYards r) (passTD r) (passInt r) (rushYards r) (rushTD r) v
    (reception r) (recTD r) (fumble r) (twoPtConversion r).
Definition setReception (v : R) (r : ScoringRules) : ScoringRules :=
  mkRules (passYards r) (passTD r) (passInt r) (rushYards r) (rushTD r)
    (recYards r) v (recTD r) (fumble r) (twoPtConversion r).
Definition setRecTD (v : R) (r : ScoringRules) : ScoringRules :=
  mkRules (passYards r) (passTD r) (passInt r) (rushYards r) (rushTD r)
    (recYards r) (reception r) v (fumble r) (twoPtConversion r).
Definition setFumble (v : R) (r : ScoringRules) : ScoringRules :=
  mkRules (passYards r) (passTD r) (passInt r) (rushYards r) (rushTD r)
    (recYards r) (reception r) (recTD r) v (twoPtConversion r).
Definition setTwoPtConversion (v : R) (r : ScoringRules) : ScoringRules :=
  mkRules (passYards r) (passTD r) (passInt r) (rushYards r) (rushTD r)
    (recYards r) (reception r) (recTD r) (fumble r) v.

(** The body of the loop over the stat categories. *)
Definition applyStat (scoringRules : ScoringRules) (stat : option Stat)
  : ScoringRules :=
  match stat with
  | None => scoringRules
  | Some statInfo =>
      let statId := stat_id statInfo in
      let v := orElse (value statInfo) 0 in
      let r := scoringRules in
      let r := if isStat statId 5 then setPassYards (v / 25) r else r in
      let r := if isStat statId 4 then setPassTD v r else r in
      let r := if isStat statId 19 then setPassInt v r else r in
      let r := if isStat statId 9 then setRushYards (v / 10) r else r in
      let r := if isStat statId 10 then setRushTD v r else r in
      let r := if isStat statId 12 then setRecYards (v / 10) r else r in
      let r := if isStat statId 11 then setReception v r else r in
      let r := if isStat statId 13 then setRecTD v r else r in
      let r := if isStat statId 18 then setFumble v r else r in
      let r := if isStat statId 16 then setTwoPtConversion v r else r in
      r
  end.

(** The body of the loop over the roster positions:
    [positionCounts[position] = (positionCounts[position] || 0) + count]
    with [count = parseInt(pos.count, 10) || 0]. *)
Definition addPosition (positionCounts : gmap string nat)
    (pos : RosterPosition) : gmap string nat :=
  <[position pos :=
      (default 0 (positionCounts !! position pos) + default 0 (count pos))%nat]>
    positionCounts.

(** [getLeagueSettings] after the request: the scoring rules and the
    position counts computed from the [settings] of the response, [None]
    when the response has none.  ([pprType], a label, is left out.) *)
Definition getLeagueSettings (settings : option Settings)
  : ScoringRules * gmap string nat :=
  match settings with
  | None => (DEFAULT_RULES, DEFAULT_POSITIONS)
  | Some s =>
      (fold_left applyStat (stat_categories s) DEFAULT_RULES,
       fold_left addPosition (roster_positions s) ∅)
  end.

(** One entry of the user's NFL games; [game_key] and [season] are the
    integers [parseInt] reads from the fields. *)
Record Game := mkGame {
  game_key : Z;
  season : Z
}.

(** [getCurrentGameKey] after the request, on the games of the response:
    [year] is [new Date().getFullYear()], and [None] stands for the error
    thrown when there is no game. *)
Definition getCurrentGameKey (requestedSeason : option Z) (year : Z)
    (gamesArray : list Game) : option Z :=
  match gamesArray with
  | [] => None
  | _ :: _ =>
      let targetSeason :=
        match requestedSeason with
        | Some s => if (s =? 0)%Z then year else s
        | None => year
        end in
      match List.find (fun game => (season game =? targetSeason)%Z) gamesArray with
      | Some currentGame => Some (game_key currentGame)
      | None =>
          match sortWith (fun a b => IZR (game_key b) - IZR (game_key a))
                  gamesArray with
          | first :: _ => Some (game_key first)
          | [] => None
          end
      end
  end.

End Yahoo.

(** [requestedSeason || new Date().getFullYear()] *)
Definition targetSeasonOf (requestedSeason : option Z) (year : Z) : Z :=
  match requestedSeason with
  | Some s => if (s =? 0)%Z then year else s
  | None => year
  end.

(** The value of the last stat category with the given id, if there is one. *)
Definition lastValue (n : Z) (stats : list (option Yahoo.Stat)) : option R :=
  fold_left (fun acc stat =>
    match stat with
    | Some statInfo =>
        if Yahoo.isStat (Yahoo.stat_id statInfo) n
        then Some (orElse (Yahoo.value statInfo) 0) else acc
    | None => acc
    end) stats None.

(** The counts of all roster-position entries with the given position. *)
Definition slotTotal (pos : string) (l : list Yahoo.RosterPosition) : nat :=
  fold_right (fun rp acc =>
    if String.eqb (Yahoo.position rp) pos
    then (default 0 (Yahoo.count rp) + acc)%nat else acc) 0%nat l.

Definition listsPosition (pos : string) (l : list Yahoo.RosterPosition) : bool :=
  existsb (fun rp => String.eqb (Yahoo.position rp) pos) l.

(** What identifies a roster entry in the response: everything but the
    slot, which [fillLineup] rewrites. *)
Definition identityOf (p : Player)
  : string * string * string * option string * option nat :=
  (name p, position p, team p, status p, bye_week p).

(** The keys of the object [getPlayerProps] stores under a player's name,
    [{ name, team, props }]: the markets sit one level down, under [props]. *)
Definition wrapperKeys : gset string := {[ "name"; "team"; "props" ]}.

(** ** Tokens and cache ([ff-blobs.mjs])

    The blob stores are modelled by what they hold: the auth store by the
    token object under [yahoo.json], if any, and the cache store by a map
    from the week to the entry under [lines-week-N.json] (or
    [props-week-N.json], which the code treats alike).  Times are
    milliseconds as [Date.now()] counts them.  What the network and the
    store answer is an input of the functions. *)
Module Blobs.

(** [(parseInt(process.env.CACHE_TTL_SECONDS, 10) || 3600) * 1000];
    [configured] is [None] when the variable is unset or unreadable. *)
Definition CACHE_TTL_MS (configured : option Z) : Z :=
  (match configured with
   | Some n => if (n =? 0)%Z then 3600 else n
   | None => 3600
   end * 1000)%Z.

Definition TOKEN_REFRESH_BUFFER_MS : Z := (5 * 60 * 1000)%Z.

Record Tokens := mkTokens {
  access_token : string;
  refresh_token : string;
  expires_at : Z
}.

(** The body of a successful answer of the token endpoint. *)
Record TokenData := mkTokenData {
  new_access_token : string;
  new_refresh_token : string;
  expires_in : Z
}.

(** [refreshTokens(refreshToken)] at time [now]: [response] is [None] when
    the request fails or is refused, [saved] tells whether the store took
    the new tokens ([saveTokens] reports a failure without throwing).
    Returns the new tokens and the auth store. *)
Definition refreshTokens (now : Z) (response : option TokenData) (saved : bool)
    (authStore : option Tokens) : option Tokens * option Tokens :=
  match response with
  | None => (None, authStore)
  | Some tokenData =>
      let expiresAt := (now + expires_in tokenData * 1000 - 2 * 60 * 1000)%Z in
      let newTokens :=
        mkTokens (new_access_token tokenData) (new_refresh_token tokenData)
          expiresAt in
      (Some newTokens, if saved then Some newTokens else authStore)
  end.

(** [ensureAuth()]: the access token to use, if any, and the auth store
    afterwards.  [now] is the time of the check, [refreshNow] the time at
    which a refresh computes the new expiry. *)
Definition ensureAuth (now refreshNow : Z) (response : option TokenData)
    (saved : bool) (authStore : option Tokens)
  : option string * option Tokens :=
  match authStore with
  | None => (None, authStore)
  | Some tokens =>
      if (now + TOKEN_REFRESH_BUFFER_MS >=? expires_at tokens)%Z
      then
        match refreshTokens refreshNow response saved authStore with
        | (None, store) => (None, store)
        | (Some newTokens, store) => (Some (access_token newTokens), store)
        end
      else (Some (access_token tokens), authStore)
  end.

Section Cache.

(** The cached value, lines or props. *)
Variable D : Type.

(** A blob with its metadata; a missing [timestamp] reads as 0. *)
Record CacheEntry := mkEntry {
  data : D;
  timestamp : option Z
}.

(** [getCachedLines(week)] / [getCachedProps(week)] at time [now]. *)
Definition getCached (ttl now : Z) (cacheStore : gmap Z CacheEntry) (week : Z)
  : option D :=
  match cacheStore !! week with
  | None => None
  | Some cached =>
      let ts := match timestamp cached with
                | Some t => t
                | None => 0%Z
                end in
      let age := (now - ts)%Z in
      if (age >? ttl)%Z then None else Some (data cached)
  end.

(** [setCachedLines(week, lines)] / [setCachedProps(week, props)] at time
    [now], when the store accepts the write. *)
Definition setCached (now : Z) (week : Z) (value : D)
    (cacheStore : gmap Z CacheEntry) : gmap Z CacheEntry :=
  <[week := mkEntry value (Some now)]> cacheStore.

End Cache.

End Blobs.

(** * Contract-side definitions

    What the contract of each stage says in its own words; the theorems
    below relate the code to them. *)

(** What one prop field adds according to the contract: value times weight
    when the field is there, nothing when it is not. *)
Definition contribution (prs : Props) (field : string) (w : R) : R :=
  match prs !! field with
  | Some x => x * w
  | None => 0
  end.

(** The positional baseline of the contract. *)
Definition baselineOf (pos : string) : R :=
  if decide (pos = "QB") then 15
  else if decide (pos = "RB") then 10
  else if decide (pos = "WR") then 8
  else if decide (pos = "TE") then 6
  else if decide (pos = "K") then 8
  else if decide (pos = "DEF") then 8
  else 5.

(** The script bonus of the fallback, on the spread of the context. *)
Definition fallbackScriptBonus (pos : string) (sp : R) : R :=
  if decide (pos = "QB") then (if Rlt_dec sp 0 then 1 else 0)
  else if decide (pos = "RB") then (if Rle_dec sp (-4.5) then 1.5 else 0)
  else if decide (pos = "WR" \/ pos = "TE") then (if Rle_dec 4.5 sp then 1 else 0)
  else 0.

(** The position weight of the contract. *)
Definition ceilingWeight (pos : string) : R :=
  if decide (pos = "RB") then 0.8
  else if decide (pos = "TE") then 0.6
  else if decide (pos = "WR") then 0.35
  else 0.

(** The spread seen from a team: the game's spread for the home team, its
    opposite for the visitors. *)
Definition ownTeamSpread (tm : string) (ctx : GameContext) : R :=
  if decide (tm = home_team ctx)
  then toNumber (spread ctx) else - toNumber (spread ctx).

(** The script bonus as the contract words it, judged for the player's own
    team: favored by at least 4.5 is a spread of at most -4.5. *)
Definition claimedScriptBonus (pos tm : string) (ctx : GameContext) : R :=
  let ts := ownTeamSpread tm ctx in
  if decide (pos = "RB") then (if Rle_dec ts (-4.5) then 0.6 else 0)
  else if decide (pos = "WR" \/ pos = "TE") then (if Rle_dec 4.5 ts then 0.6 else 0)
  else if decide (pos = "QB") then (if Rlt_dec ts 0 then 0.4 else 0)
  else 0.

Definition sumR (l : list R) : R := foldr Rplus 0 l.

(** Population mean, variance and standard deviation of a data set. *)
Definition mean (l : list R) : R := sumR l / INR (length l).

Definition popVariance (l : list R) : R :=
  sumR (map (fun v => (v - mean l) ^ 2) l) / INR (length l).

Definition popStdDev (l : list R) : R := sqrt (popVariance l).

(** The comparator of [fillLineup]: [(a, b) => b.score - a.score]. *)
Definition byScoreDesc (a b : ScoredPlayer) : R := score b - score a.

Definition scoreGe (a b : ScoredPlayer) : Prop := score b <= score a.

(** How many players of a position a list holds. *)
Definition countPos (pos : string) (l : list ScoredPlayer) : nat :=
  length (List.filter (fun p : ScoredPlayer => String.eqb (position p) pos) l).

(** [positionCounts[pos] || 0] *)
Definition needed (positionCounts : gmap string nat) (pos : string) : nat :=
  default 0%nat (positionCounts !! pos).

(** The assignment as the contract words it: going down the sorted list, a
    player takes a slot of the own position while fewer than the required
    number of that position came before, and goes to the bench otherwise.
    [seen] is the part of the list already passed. *)
Fixpoint greedyAssign (positionCounts : gmap string nat)
    (seen l : list ScoredPlayer) : list ScoredPlayer * list ScoredPlayer :=
  match l with
  | [] => ([], [])
  | p :: r =>
      let rest := greedyAssign positionCounts (seen ++ [p]) r in
      if (countPos (position p) seen <? needed positionCounts (position p))%nat
      then (withSlot (position p) p :: fst rest, snd rest)
      else (fst rest, withSlot "BN" p :: snd rest)
  end.

(** The counters of the loop once [seen] has been processed. *)
Definition countersAfter (positionCounts filled0 : gmap string nat)
    (seen : list ScoredPlayer) : Prop :=
  forall pos,
    filled0 !! pos = (fun n => Nat.min (countPos pos seen) n) <$> positionCounts !! pos.

(** The prop fields the estimator reads, each with the weight it is
    multiplied by. *)
Definition usedWeights (pos : string) : list (string * string) :=
  [ ("pass_yds", "passYards"); ("pass_tds", "passTD");
    ("interceptions", "passInt"); ("rush_yds", "rushYards");
    ("rec_yds", "recYards"); ("receptions", "reception");
    ("anytime_td_prob", Loose.tdField pos) ].

Definition looseStep (prs : Props) (scoringRules : option (gmap string R))
    (acc : Loose.outcome) (kf : string * string) : Loose.outcome :=
  Loose.addProp (prs !! fst kf) scoringRules (snd kf) acc.

(** A scored player for the worked examples. *)
Definition sampleScored (nm pos sl : string) (sc : R) : ScoredPlayer :=
  mkScored (mkEstimated (mkPlayer nm pos "KC" None None sl) ∅ None 0 0 false)
    sc (Some "B").

(** * Verification *)

(** ** Deciders on real numbers *)

Lemma Reqb_true a b : Reqb a b = true <-> a = b.
Proof. unfold Reqb. destruct (Req_dec_T a b); split; intros; congruence. Qed.

Lemma Reqb_false a b : Reqb a b = false <-> a <> b.
Proof. unfold Reqb. destruct (Req_dec_T a b); split; intros; congruence. Qed.

Lemma Rleb_true a b : Rleb a b = true <-> a <= b.
Proof. unfold Rleb. destruct (Rle_dec a b); split; intros; congruence. Qed.

Lemma Rleb_false a b : Rleb a b = false <-> b < a.
Proof.
  unfold Rleb. destruct (Rle_dec a b); split; intros; try congruence; lra.
Qed.

Lemma Rltb_true a b : Rltb a b = true <-> a < b.
Proof. unfold Rltb. destruct (Rlt_dec a b); split; intros; congruence. Qed.

Lemma Rltb_false a b : Rltb a b = false <-> b <= a.
Proof.
  unfold Rltb. destruct (Rlt_dec a b); split; intros; try congruence; lra.
Qed.

(** Case analysis on every comparison of the goal, the impossible branches
    closed by linear arithmetic. *)
Ltac rcases :=
  unfold Rgeb, Rleb, Rltb, Reqb in *;
  repeat match goal with
    | |- context [Req_dec_T ?a ?b] =>
        destruct (Req_dec_T a b); try lra; cbn [negb orb andb]
    | |- context [Rle_dec ?a ?b] =>
        destruct (Rle_dec a b); try lra; cbn [negb orb andb]
    | |- context [Rlt_dec ?a ?b] =>
        destruct (Rlt_dec a b); try lra; cbn [negb orb andb]
    end;
  try lra; try reflexivity.

(** ** The estimator *)

Lemma addProp_contribution (prs : Props) field w acc :
  addProp (prs !! field) w acc = acc + contribution prs field w.
Proof.
  unfold addProp, contribution, truthy, toNumber.
  destruct (prs !! field) as [x|]; simpl; [|lra].
  destruct (Reqb x 0) eqn:E; simpl; [|reflexivity].
  apply Reqb_true in E. subst. lra.
Qed.

Lemma expectedFantasyPoints_nonempty (prs : Props) rules pos ctx :
  prs <> ∅ ->
  expectedFantasyPoints prs rules pos ctx =
    contribution prs "pass_yds" (passYards rules)
    + contribution prs "pass_tds" (passTD rules)
    + contribution prs "interceptions" (passInt rules)
    + contribution prs "rush_yds" (rushYards rules)
    + contribution prs "rec_yds" (recYards rules)
    + contribution prs "receptions" (reception rules)
    + contribution prs "anytime_td_prob" (tdValueOf rules pos).
Proof.
  intros Hne. unfold expectedFantasyPoints.
  rewrite bool_decide_eq_false_2 by assumption.
  rewrite !addProp_contribution. lra.
Qed.

Lemma tdValueOf_cases rules pos :
  tdValueOf rules pos =
    if decide (pos = "WR" \/ pos = "TE") then recTD rules else rushTD rules.
Proof.
  unfold tdValueOf.
  destruct (String.eqb pos "WR") eqn:E1; simpl.
  - apply String.eqb_eq in E1. rewrite decide_True; auto.
  - destruct (String.eqb pos "TE") eqn:E2.
    + apply String.eqb_eq in E2. rewrite decide_True; auto.
    + apply String.eqb_neq in E1, E2. rewrite decide_False; tauto.
Qed.

(** ** The fallback estimator *)

Lemma eqb_decide (a b : string) : String.eqb a b = bool_decide (a = b).
Proof.
  destruct (String.eqb a b) eqn:E.
  - apply String.eqb_eq in E. now rewrite bool_decide_eq_true_2.
  - apply String.eqb_neq in E. now rewrite bool_decide_eq_false_2.
Qed.

(** Turn the string tests of the goal into case distinctions on equalities. *)
Ltac strcases :=
  rewrite ?eqb_decide in *;
  repeat (case_bool_decide || case_decide); subst; simpl in *;
  try discriminate; try tauto; try congruence.

Lemma baseline_lookup pos : orElse (FALLBACK_BASELINES !! pos) 5 = baselineOf pos.
Proof.
  unfold baselineOf, FALLBACK_BASELINES.
  repeat case_decide; subst;
    [ vm_compute (_ !! _); unfold orElse; rcases .. | ].
  rewrite !lookup_insert_ne, lookup_singleton_ne by congruence. reflexivity.
Qed.

Lemma applyFallback_none {T} pos (rules : T) :
  applyFallback pos None rules = baselineOf pos.
Proof. unfold applyFallback. apply baseline_lookup. Qed.

Lemma applyFallback_no_totals {T} pos ctx (rules : T) :
  implied_totals ctx = None -> applyFallback pos (Some ctx) rules = baselineOf pos.
Proof. intros H. unfold applyFallback. rewrite H. apply baseline_lookup. Qed.

Lemma applyFallback_totals {T} pos ctx its (rules : T) :
  implied_totals ctx = Some its ->
  applyFallback pos (Some ctx) rules =
    baselineOf pos + Rmax 0 ((homeIT its - 21) / 3)
    + fallbackScriptBonus pos (toNumber (spread ctx)).
Proof.
  intros H. unfold applyFallback. rewrite H, baseline_lookup.
  f_equal. unfold fallbackScriptBonus.
  strcases; rcases.
Qed.

Lemma expectedFantasyPoints_empty rules pos ctx :
  expectedFantasyPoints ∅ rules pos ctx = applyFallback pos ctx rules.
Proof. unfold expectedFantasyPoints. now rewrite bool_decide_eq_true_2. Qed.




(** ** The ceiling bonus *)

Lemma ceiling_lookup pos : orElse (CEILING_WEIGHTS !! pos) 0 = ceilingWeight pos.
Proof.
  unfold ceilingWeight, CEILING_WEIGHTS.
  destruct (decide (pos = "RB")) as [->|]; [vm_compute (_ !! _); unfold orElse; rcases|].
  destruct (decide (pos = "TE")) as [->|]; [vm_compute (_ !! _); unfold orElse; rcases|].
  destruct (decide (pos = "WR")) as [->|]; [vm_compute (_ !! _); unfold orElse; rcases|].
  destruct (decide (pos = "QB")) as [->|]; [vm_compute (_ !! _); unfold orElse; rcases|].
  destruct (decide (pos = "K")) as [->|]; [vm_compute (_ !! _); unfold orElse; rcases|].
  destruct (decide (pos = "DEF")) as [->|]; [vm_compute (_ !! _); unfold orElse; rcases|].
  rewrite !lookup_insert_ne, lookup_singleton_ne by congruence. reflexivity.
Qed.

Lemma applyMultiTDBonus_product base (prs : Props) rules pos :
  applyMultiTDBonus base prs rules pos =
    toNumber (prs !! "two_plus_td_prob") * tdValueOf rules pos * ceilingWeight pos.
Proof.
  unfold applyMultiTDBonus. rewrite ceiling_lookup.
  destruct (Reqb (ceilingWeight pos) 0) eqn:Ew; simpl.
  - apply Reqb_true in Ew. rewrite Ew. lra.
  - unfold truthy, toNumber.
    destruct (prs !! "two_plus_td_prob") as [p|]; simpl; [|lra].
    destruct (Reqb p 0) eqn:Ep; simpl; [|reflexivity].
    apply Reqb_true in Ep. subst. lra.
Qed.

Lemma ceilingWeight_nonneg pos : 0 <= ceilingWeight pos.
Proof. unfold ceilingWeight. repeat case_decide; lra. Qed.

(** C7 as the code has it.  The ceiling bonus is the two-plus-TD probability
    times the TD value ([recTD] for WR/TE, [rushTD] otherwise) times the
    position weight (RB 0.8, TE 0.6, WR 0.35, anything else 0); it is 0 when
    the probability is absent or the weight is 0, and so for QB, K and DEF at
    every probability; it does not decrease when the probability grows,
    provided the TD value is not negative. *)
Theorem ceiling_bonus_contract :
  (forall base (prs : Props) rules pos,
      applyMultiTDBonus base prs rules pos =
        toNumber (prs !! "two_plus_td_prob")
        * (if decide (pos = "WR" \/ pos = "TE") then recTD rules else rushTD rules)
        * ceilingWeight pos)
  /\ (forall base (prs : Props) rules pos,
         prs !! "two_plus_td_prob" = None \/ ceilingWeight pos = 0 ->
         applyMultiTDBonus base prs rules pos = 0)
  /\ (forall base (prs : Props) rules pos,
         pos = "QB" \/ pos = "K" \/ pos = "DEF" ->
         applyMultiTDBonus base prs rules pos = 0)
  /\ (forall base (prs : Props) rules pos p1 p2,
         0 <= (if decide (pos = "WR" \/ pos = "TE") then recTD rules else rushTD rules) ->
         p1 <= p2 ->
         applyMultiTDBonus base (<["two_plus_td_prob" := p1]> prs) rules pos
         <= applyMultiTDBonus base (<["two_plus_td_prob" := p2]> prs) rules pos).
Proof.
  repeat split.
  - intros. rewrite applyMultiTDBonus_product. now rewrite tdValueOf_cases.
  - intros base prs rules pos [H|H]; rewrite applyMultiTDBonus_product, ?H;
      simpl; lra.
  - intros base prs rules pos H. rewrite applyMultiTDBonus_product.
    assert (ceilingWeight pos = 0) as ->; [|lra].
    unfold ceilingWeight. destruct H as [-> | [-> | ->]]; reflexivity.
  - intros base prs rules pos p1 p2 Htd Hp.
    rewrite !applyMultiTDBonus_product, !lookup_insert_eq. simpl.
    rewrite <- tdValueOf_cases in Htd.
    pose proof (ceilingWeight_nonneg pos).
    apply Rmult_le_compat_r; [assumption|].
    apply Rmult_le_compat_r; assumption.
Qed.

Lemma ceiling_bonus_contract_witness :
  applyMultiTDBonus 10 ∅ (mkRules 0.04 4 (-2) 0.1 6 0.1 1 6 (-2) 2) "RB" = 0
  /\ applyMultiTDBonus 20 (<["two_plus_td_prob" := 0.3]> ∅)
       (mkRules 0.04 4 (-2) 0.1 6 0.1 1 6 (-2) 2) "QB" = 0
  /\ applyMultiTDBonus 10 (<["two_plus_td_prob" := 0.1]> ∅)
       (mkRules 0.04 4 (-2) 0.1 6 0.1 1 6 (-2) 2) "RB"
     <= applyMultiTDBonus 10 (<["two_plus_td_prob" := 0.2]> ∅)
       (mkRules 0.04 4 (-2) 0.1 6 0.1 1 6 (-2) 2) "RB".
Proof.
  split; [|split].
  - apply (proj1 (proj2 ceiling_bonus_contract)). left. reflexivity.
  - apply (proj1 (proj2 (proj2 ceiling_bonus_contract))). left. reflexivity.
  - apply (proj2 (proj2 (proj2 ceiling_bonus_contract))); simpl; lra.
Defined.

(** C7 as stated fails: with a negative rushing-TD weight an RB's bonus
    drops when the probability rises from 0.1 to 0.2. *)
Lemma ceiling_bonus_not_monotone :
  ceilingWeight "RB" <> 0 /\ 0.1 <= 0.2
  /\ applyMultiTDBonus 10 (<["two_plus_td_prob" := 0.2]> ∅)
       (mkRules 0.04 4 (-2) 0.1 (-6) 0.1 1 6 (-2) 2) "RB"
     < applyMultiTDBonus 10 (<["two_plus_td_prob" := 0.1]> ∅)
       (mkRules 0.04 4 (-2) 0.1 (-6) 0.1 1 6 (-2) 2) "RB".
Proof.
  split; [|split].
  - unfold ceilingWeight. simpl. lra.
  - lra.
  - rewrite !applyMultiTDBonus_product, !lookup_insert_eq.
    unfold ceilingWeight, tdValueOf. simpl. lra.
Qed.

(** ** The script bonus of the composite score *)

Lemma truthy_toNumber o : truthy o = false -> toNumber o = 0.
Proof.
  destruct o as [x|]; simpl; [|reflexivity].
  intros H. apply negb_false_iff, Reqb_true in H. exact H.
Qed.

Lemma ownTeamSpread_home ctx :
  ownTeamSpread (home_team ctx) ctx = toNumber (spread ctx).
Proof. unfold ownTeamSpread. now rewrite decide_True. Qed.

Lemma calculateScriptBonus_no_spread pos ctx :
  truthy (spread ctx) = false -> calculateScriptBonus pos (Some ctx) = 0.
Proof. intros H. unfold calculateScriptBonus. now rewrite H. Qed.

(** C2 as the code has it.  The bonus is computed against the home team's
    spread.  For a player of the home team whose context carries implied
    totals it is 0.6 for an RB favored by at least 4.5, 0.6 for a WR or TE
    that is an underdog by at least 4.5, 0.4 for a favored QB and 0
    otherwise; without implied totals the RB, WR and TE bonus is 0 and the
    QB rule is unchanged; without a spread (none, or 0) the bonus is 0. *)
Theorem script_bonus_home_team :
  (forall pos tm ctx,
      tm = home_team ctx ->
      is_Some (implied_totals ctx) ->
      calculateScriptBonus pos (Some ctx) = claimedScriptBonus pos tm ctx)
  /\ (forall pos ctx,
         implied_totals ctx = None ->
         pos <> "QB" ->
         calculateScriptBonus pos (Some ctx) = 0)
  /\ (forall tm ctx,
         tm = home_team ctx ->
         calculateScriptBonus "QB" (Some ctx) = claimedScriptBonus "QB" tm ctx)
  /\ (forall pos ctx,
         spread ctx = None \/ spread ctx = Some 0 ->
         calculateScriptBonus pos (Some ctx) = 0).
Proof.
  split; [|split; [|split]].
  - intros pos tm ctx -> Hit.
    unfold claimedScriptBonus. rewrite ownTeamSpread_home.
    destruct (truthy (spread ctx)) eqn:Ht.
    + unfold calculateScriptBonus, calculateScriptLean. rewrite Ht. simpl.
      rewrite bool_decide_eq_true_2 by assumption. simpl.
      rewrite String.eqb_refl.
      strcases; rcases.
    + rewrite calculateScriptBonus_no_spread by assumption.
      rewrite (truthy_toNumber _ Ht).
      repeat case_decide; rcases.
  - intros pos ctx Hit Hq.
    unfold calculateScriptBonus, calculateScriptLean. rewrite Hit.
    destruct (truthy (spread ctx)); simpl; [|reflexivity].
    strcases; lra.
  - intros tm ctx ->.
    unfold claimedScriptBonus. rewrite ownTeamSpread_home.
    destruct (truthy (spread ctx)) eqn:Ht.
    + unfold calculateScriptBonus. rewrite Ht. simpl.
      destruct (calculateScriptLean ctx (home_team ctx) 4.5) as [pl rl].
      strcases; rcases.
    + rewrite calculateScriptBonus_no_spread by assumption.
      rewrite (truthy_toNumber _ Ht).
      repeat case_decide; rcases.
  - intros pos ctx H. apply calculateScriptBonus_no_spread.
    destruct H as [-> | ->]; [reflexivity|]. unfold truthy. rcases.
Qed.

Lemma script_bonus_home_team_witness :
  calculateScriptBonus "RB"
    (Some (mkContext "KC" "DEN" (Some (-6)) (Some 44) (Some (mkIT 25 19)))) = 0.6
  /\ calculateScriptBonus "WR" (Some (mkContext "KC" "DEN" (Some 7) None None)) = 0
  /\ calculateScriptBonus "QB" (Some (mkContext "KC" "DEN" (Some (-3)) None None)) = 0.4
  /\ calculateScriptBonus "RB"
       (Some (mkContext "KC" "DEN" (Some 0) (Some 44) None)) = 0.
Proof.
  split; [|split; [|split]].
  - rewrite (proj1 script_bonus_home_team "RB" "KC"
               (mkContext "KC" "DEN" (Some (-6)) (Some 44) (Some (mkIT 25 19)))
               eq_refl (ex_intro _ (mkIT 25 19) eq_refl)).
    unfold claimedScriptBonus, ownTeamSpread. simpl. rcases.
  - apply (proj1 (proj2 script_bonus_home_team)); [reflexivity | discriminate].
  - rewrite (proj1 (proj2 (proj2 script_bonus_home_team)) "KC"
               (mkContext "KC" "DEN" (Some (-3)) None None) eq_refl).
    unfold claimedScriptBonus, ownTeamSpread. simpl. rcases.
  - apply (proj2 (proj2 (proj2 script_bonus_home_team))). right. reflexivity.
Defined.

(** C2 as stated fails twice.  A visiting RB whose team is favored by 6 (the
    home spread is +6) gets no bonus, and neither does a home RB favored by 6
    in a context without implied totals. *)
Lemma script_bonus_not_own_team :
  (calculateScriptBonus "RB"
     (Some (mkContext "KC" "DEN" (Some 6) (Some 44) (Some (mkIT 19 25)))) = 0
   /\ claimedScriptBonus "RB" "DEN"
        (mkContext "KC" "DEN" (Some 6) (Some 44) (Some (mkIT 19 25))) = 0.6)
  /\ (calculateScriptBonus "RB"
        (Some (mkContext "KC" "DEN" (Some (-6)) None None)) = 0
      /\ claimedScriptBonus "RB" "KC"
           (mkContext "KC" "DEN" (Some (-6)) None None) = 0.6).
Proof.
  repeat split.
  - unfold calculateScriptBonus, calculateScriptLean, truthy. simpl. rcases.
  - unfold claimedScriptBonus, ownTeamSpread. simpl. rcases.
  - unfold calculateScriptBonus, calculateScriptLean, truthy. simpl. rcases.
  - unfold claimedScriptBonus, ownTeamSpread. simpl. rcases.
Qed.

(** ** The z-score *)

Lemma fold_left_sumR (f : R -> R) l a :
  fold_left (fun sum v => sum + f v) l a = a + sumR (map f l).
Proof.
  revert a. induction l as [|x l IH]; intros a; simpl.
  - lra.
  - rewrite IH. lra.
Qed.

Lemma calculateZScore_unfold v l :
  l <> [] ->
  calculateZScore v l =
    if Reqb (popStdDev l) 0 then 0 else (v - mean l) / popStdDev l.
Proof.
  intros Hne. destruct l as [|x l]; [congruence|].
  unfold calculateZScore, popStdDev, popVariance, mean.
  set (d := x :: l).
  rewrite (fold_left_sumR (fun v => v) d 0), map_id, Rplus_0_l.
  rewrite (fold_left_sumR (fun v => (v - sumR d / INR (length d)) ^ 2) d 0).
  rewrite Rplus_0_l. reflexivity.
Qed.

Lemma INR_length_pos {A} (l : list A) : l <> [] -> 0 < INR (length l).
Proof.
  intros H. destruct l; [congruence|]. apply lt_0_INR. simpl. lia.
Qed.

Lemma sumR_shift m s l :
  sumR (map (fun v => (v - m) / s) l) = (sumR l - INR (length l) * m) / s.
Proof.
  induction l as [|x l IH].
  - simpl. unfold Rdiv. lra.
  - cbn [map sumR foldr length]. fold (sumR (map (fun v => (v - m) / s) l)).
    fold (sumR l). rewrite IH, S_INR. unfold Rdiv. lra.
Qed.

Lemma sumR_zero (f : R -> R) l :
  Forall (fun v => f v = 0) l -> sumR (map f l) = 0.
Proof.
  induction 1 as [|x l Hx _ IH]; [reflexivity|].
  cbn [map sumR foldr]. fold (sumR (map f l)). rewrite IH, Hx. lra.
Qed.

Lemma sumR_all_equal x l : Forall (eq x) l -> sumR l = INR (length l) * x.
Proof.
  induction 1 as [|y l Hy _ IH].
  - simpl. lra.
  - cbn [sumR foldr length]. fold (sumR l). rewrite IH, S_INR. subst. lra.
Qed.

Lemma popVariance_all_equal x l : Forall (eq x) l -> popVariance l = 0.
Proof.
  intros H. destruct (decide (l = [])) as [->|Hne].
  - unfold popVariance. simpl. unfold Rdiv. lra.
  - pose proof (INR_length_pos l Hne) as Hn.
    assert (Hm : mean l = x).
    { unfold mean. rewrite (sumR_all_equal x l H). field. lra. }
    unfold popVariance. rewrite Hm.
    rewrite sumR_zero.
    + unfold Rdiv. lra.
    + eapply Forall_impl; [exact H|]. intros y <-. simpl. lra.
Qed.

Lemma calculateZScore_zero_deviation v l :
  popStdDev l = 0 -> calculateZScore v l = 0.
Proof.
  intros H. destruct (decide (l = [])) as [->|Hne]; [reflexivity|].
  rewrite calculateZScore_unfold by assumption.
  apply Reqb_true in H. now rewrite H.
Qed.

Lemma calculateZScore_all_equal v x l :
  Forall (eq x) l -> calculateZScore v l = 0.
Proof.
  intros H. apply calculateZScore_zero_deviation.
  unfold popStdDev. rewrite (popVariance_all_equal x l H). apply sqrt_0.
Qed.

Lemma zscores_sum_zero l :
  sumR (map (fun v => calculateZScore v l) l) = 0.
Proof.
  destruct (decide (l = [])) as [->|Hne]; [reflexivity|].
  pose proof (INR_length_pos l Hne) as Hn.
  destruct (Reqb (popStdDev l) 0) eqn:E.
  - apply sumR_zero, Forall_forall. intros v _.
    apply calculateZScore_zero_deviation. now apply Reqb_true.
  - rewrite (map_ext _ (fun v => (v - mean l) / popStdDev l)).
    + rewrite sumR_shift. unfold mean. field. split.
      * lra.
      * now apply Reqb_false.
    + intros v. rewrite calculateZScore_unfold by assumption. now rewrite E.
Qed.

(** ** A bound on the z-score of a cohort member *)

Lemma sumR_sq_nonneg m l : 0 <= sumR (map (fun v => (v - m) ^ 2) l).
Proof.
  induction l as [|x l IH]; [simpl; lra|].
  cbn [map sumR foldr]. fold (sumR (map (fun v => (v - m) ^ 2) l)).
  pose proof (pow2_ge_0 (x - m)). lra.
Qed.

Lemma sq_le_sumR m a l :
  In a l -> (a - m) ^ 2 <= sumR (map (fun v => (v - m) ^ 2) l).
Proof.
  induction l as [|x l IH]; [contradiction|].
  intros [->|Hin]; cbn [map sumR foldr];
    fold (sumR (map (fun v => (v - m) ^ 2) l)).
  - pose proof (sumR_sq_nonneg m l). lra.
  - specialize (IH Hin). pose proof (pow2_ge_0 (x - m)). lra.
Qed.

Lemma popVariance_nonneg l : l <> [] -> 0 <= popVariance l.
Proof.
  intros Hne. unfold popVariance.
  pose proof (INR_length_pos l Hne).
  pose proof (sumR_sq_nonneg (mean l) l).
  apply Rmult_le_pos; [assumption|].
  left. now apply Rinv_0_lt_compat.
Qed.

Lemma calculateZScore_sq_le v l :
  In v l -> calculateZScore v l ^ 2 <= INR (length l).
Proof.
  intros Hin.
  assert (Hne : l <> []) by (intros ->; contradiction).
  pose proof (INR_length_pos l Hne) as Hn.
  pose proof (popVariance_nonneg l Hne) as Hvar.
  rewrite calculateZScore_unfold by assumption.
  destruct (Reqb (popStdDev l) 0) eqn:E.
  - simpl. lra.
  - apply Reqb_false in E.
    pose proof (sqrt_sqrt _ Hvar) as Hss. fold (popStdDev l) in Hss.
    pose proof (sqrt_pos (popVariance l)) as Hsp. fold (popStdDev l) in Hsp.
    pose proof (sq_le_sumR (mean l) v l Hin) as Hsq.
    assert (Hsum : sumR (map (fun v => (v - mean l) ^ 2) l)
                   = INR (length l) * popVariance l).
    { unfold popVariance. field. lra. }
    rewrite Hsum in Hsq.
    set (z := (v - mean l) / popStdDev l).
    assert (Hz : z * popStdDev l = v - mean l) by (unfold z; field; assumption).
    assert (Hpos : 0 < popVariance l) by nra.
    assert (Hzz : z ^ 2 * popVariance l = (v - mean l) ^ 2).
    { rewrite <- Hz, <- Hss. ring. }
    apply (Rmult_le_reg_r (popVariance l)); [assumption|].
    rewrite Hzz. exact Hsq.
Qed.

Lemma popStdDev_distinct l a b :
  In a l -> In b l -> a <> b -> popStdDev l <> 0.
Proof.
  intros Ha Hb Hab Hsd.
  assert (Hne : l <> []) by (intros ->; contradiction).
  pose proof (INR_length_pos l Hne) as Hn.
  apply sqrt_eq_0 in Hsd; [|now apply popVariance_nonneg].
  assert (Hsum : sumR (map (fun v => (v - mean l) ^ 2) l) = 0).
  { unfold popVariance in Hsd.
    apply (Rmult_eq_compat_r (INR (length l))) in Hsd.
    rewrite Rmult_0_l in Hsd. rewrite <- Hsd. field. lra. }
  pose proof (sq_le_sumR (mean l) a l Ha) as Ha2.
  pose proof (sq_le_sumR (mean l) b l Hb) as Hb2.
  rewrite Hsum in Ha2, Hb2.
  pose proof (pow2_ge_0 (a - mean l)).
  pose proof (pow2_ge_0 (b - mean l)).
  assert (a - mean l = 0) by nra.
  assert (b - mean l = 0) by nra.
  lra.
Qed.

(** C6.  Inside the composite score the z-score is taken over the EFPs of
    the cohort members of the player's position.  In exact arithmetic it is
    the population z-score, (value - mean) / standard deviation, when the
    deviation is not 0, and over a cohort with two distinct EFPs the
    deviation is not 0 and the members' z-scores have mean 0.  For a cohort
    of equal members the code means to return 0 ([if (stdDev === 0) return
    0]) and does so when the mean of the doubles is the member again, as for
    three members 1 or for a single member.  When the mean rounds away from
    the member, the deviation computed is a tiny positive number and the
    result is -1 instead of 0: so it is for three members 0.1, and for three
    receivers on the fallback estimate 8 + 13/3. *)
Theorem zscore_equal_cohort_not_zero :
  (forall efp0 ctx p rules allPlayers,
      calculateSitStartScore efp0 (Some ctx) p rules allPlayers =
        calculateZScore efp0
          (map efp (List.filter
                      (fun q : Estimated => String.eqb (position q) (position p))
                      allPlayers))
        + 0.35 * calculateScriptBonus (position p) (Some ctx)
        + 0.25 * calculateITBonus (Some ctx)
        + 0.20 * calculateInjuryPenalty (status p))
  /\ (forall v l,
         l <> [] -> popStdDev l <> 0 ->
         calculateZScore v l = (v - mean l) / popStdDev l)
  /\ (forall l a b,
         In a l -> In b l -> a <> b ->
         popStdDev l <> 0
         /\ mean (map (fun v => calculateZScore v l) l) = 0)
  /\ Double.calculateZScore Double.tenth
       [Double.tenth; Double.tenth; Double.tenth] = (-1)%float
  /\ Double.calculateZScore Double.receiverFallback34
       [Double.receiverFallback34; Double.receiverFallback34;
        Double.receiverFallback34] = (-1)%float
  /\ Double.calculateZScore 1%float [1%float; 1%float; 1%float] = 0%float
  /\ Double.calculateZScore Double.tenth [Double.tenth] = 0%float.
Proof.
  split; [|split; [|split; [|split; [|split; [|split]]]]].
  - intros. unfold calculateSitStartScore. lra.
  - intros v l Hne Hsd. rewrite calculateZScore_unfold by assumption.
    apply Reqb_false in Hsd. now rewrite Hsd.
  - intros l a b Ha Hb Hab. split.
    + now apply (popStdDev_distinct l a b).
    + unfold mean. rewrite zscores_sum_zero. unfold Rdiv. lra.
  - vm_compute. reflexivity.
  - vm_compute. reflexivity.
  - vm_compute. reflexivity.
  - vm_compute. reflexivity.
Qed.

Lemma zscore_equal_cohort_not_zero_witness :
  calculateZScore 20 [10; 15; 20] = (20 - mean [10; 15; 20]) / popStdDev [10; 15; 20]
  /\ popStdDev [10; 15; 20] <> 0
  /\ mean (map (fun v => calculateZScore v [10; 15; 20]) [10; 15; 20]) = 0.
Proof.
  assert (H : popStdDev [10; 15; 20] <> 0
              /\ mean (map (fun v => calculateZScore v [10; 15; 20]) [10; 15; 20]) = 0).
  { apply (proj1 (proj2 (proj2 zscore_equal_cohort_not_zero))
             [10; 15; 20] 10 15); simpl; try lra; auto. }
  split; [|exact H].
  apply (proj1 (proj2 zscore_equal_cohort_not_zero)); [discriminate | apply H].
Defined.

(** ** The sort *)

Section SortFacts.
Context {A : Type} (cmp : A -> A -> R).

Lemma insertSorted_perm x l : Permutation (insertSorted cmp x l) (x :: l).
Proof.
  induction l as [|y l IH]; simpl; [reflexivity|].
  destruct (Rltb 0 (cmp x y)); [|reflexivity].
  rewrite IH. apply perm_swap.
Qed.

Lemma sortWith_perm l : Permutation (sortWith cmp l) l.
Proof.
  induction l as [|x l IH]; simpl; [reflexivity|].
  rewrite insertSorted_perm. now constructor.
Qed.

Lemma sortWith_length l : length (sortWith cmp l) = length l.
Proof. apply Permutation_length, sortWith_perm. Qed.

(** Stability: elements that the comparator cannot tell apart from each
    other, and that it orders strictly against nothing selected by [sel],
    keep their input order. *)
Lemma insertSorted_filter (sel : A -> bool) x l :
  (forall y, sel x = true -> sel y = true -> cmp x y <= 0) ->
  List.filter sel (insertSorted cmp x l) = List.filter sel (x :: l).
Proof.
  intros Hsel. induction l as [|y l IH]; [reflexivity|].
  cbn [insertSorted]. destruct (Rltb 0 (cmp x y)) eqn:E; [|reflexivity].
  apply Rltb_true in E.
  cbn [List.filter] in *. rewrite IH.
  destruct (sel x) eqn:Ex, (sel y) eqn:Ey; try reflexivity.
  specialize (Hsel y eq_refl Ey). lra.
Qed.

Lemma sortWith_filter (sel : A -> bool) l :
  (forall x y, sel x = true -> sel y = true -> cmp x y <= 0) ->
  List.filter sel (sortWith cmp l) = List.filter sel l.
Proof.
  intros Hsel. induction l as [|x l IH]; [reflexivity|].
  cbn [sortWith foldr]. fold (sortWith cmp l).
  rewrite insertSorted_filter by (intros; now apply Hsel).
  cbn [List.filter]. now rewrite IH.
Qed.
End SortFacts.

Lemma insert_byScoreDesc_sorted x l :
  Sorted scoreGe l -> Sorted scoreGe (insertSorted byScoreDesc x l).
Proof.
  induction 1 as [|y l Hs IH Hhd]; simpl.
  - repeat constructor.
  - destruct (Rltb 0 (byScoreDesc x y)) eqn:E.
    + apply Rltb_true in E. unfold byScoreDesc in E.
      constructor; [exact IH|].
      destruct l as [|z l]; simpl.
      * constructor. unfold scoreGe. lra.
      * destruct (Rltb 0 (byScoreDesc x z)).
        -- constructor. now inversion Hhd.
        -- constructor. unfold scoreGe. lra.
    + apply Rltb_false in E. unfold byScoreDesc in E.
      constructor; [now constructor|].
      constructor. unfold scoreGe. lra.
Qed.

Lemma sortWith_byScoreDesc_sorted l :
  StronglySorted scoreGe (sortWith byScoreDesc l).
Proof.
  apply Sorted_StronglySorted.
  - intros a b c. unfold scoreGe. lra.
  - induction l as [|x l IH]; simpl; [constructor|].
    now apply insert_byScoreDesc_sorted.
Qed.

Lemma sortWith_byScoreDesc_stable r l :
  List.filter (fun p => Reqb (score p) r) (sortWith byScoreDesc l)
  = List.filter (fun p => Reqb (score p) r) l.
Proof.
  apply sortWith_filter. intros x y Hx Hy.
  apply Reqb_true in Hx, Hy. unfold byScoreDesc. lra.
Qed.

(** ** The greedy fill *)

Lemma position_withSlot s (p : ScoredPlayer) : position (withSlot s p) = position p.
Proof. reflexivity. Qed.

Lemma countPos_app pos l1 l2 :
  countPos pos (l1 ++ l2) = (countPos pos l1 + countPos pos l2)%nat.
Proof. unfold countPos. now rewrite List.filter_app, length_app. Qed.

Lemma countPos_single_same (p : ScoredPlayer) : countPos (position p) [p] = 1%nat.
Proof. unfold countPos. simpl. now rewrite String.eqb_refl. Qed.

Lemma countPos_single_other pos (p : ScoredPlayer) : position p <> pos -> countPos pos [p] = 0%nat.
Proof.
  intros H. unfold countPos. simpl.
  apply String.eqb_neq in H. now rewrite H.
Qed.

Lemma countersAfter_init positionCounts :
  countersAfter positionCounts ((fun _ => 0%nat) <$> positionCounts) [].
Proof.
  intros pos. rewrite lookup_fmap.
  destruct (positionCounts !! pos); reflexivity.
Qed.

Lemma fillStep_spec positionCounts st seen p :
  countersAfter positionCounts (filled st) seen ->
  let st' := fillStep positionCounts st p in
  let one := greedyAssign positionCounts seen [p] in
  countersAfter positionCounts (filled st') (seen ++ [p])
  /\ accStarters st' = accStarters st ++ fst one
  /\ accBench st' = accBench st ++ snd one.
Proof.
  intros Hinv. cbn zeta. unfold fillStep, needed. cbn [greedyAssign fst snd].
  unfold needed.
  pose proof (Hinv (position p)) as Hp.
  destruct (positionCounts !! position p) as [n|] eqn:Hn; simpl in Hp; rewrite Hp;
    simpl.
  - destruct (Nat.ltb_spec (countPos (position p) seen) n) as [Hlt|Hge].
    + rewrite (proj2 (Nat.ltb_lt _ _)) by lia. simpl.
      split; [|split; rewrite ?app_nil_r; reflexivity].
      intros pos. rewrite countPos_app.
      destruct (decide (position p = pos)) as [<-|Hne].
      * rewrite lookup_insert_eq, Hn, countPos_single_same. simpl. f_equal. lia.
      * rewrite lookup_insert_ne, countPos_single_other by assumption.
        rewrite Hinv. now rewrite Nat.add_0_r.
    + rewrite (proj2 (Nat.ltb_ge _ _)) by lia. simpl.
      split; [|split; rewrite ?app_nil_r; reflexivity].
      intros pos. rewrite countPos_app.
      destruct (decide (position p = pos)) as [<-|Hne].
      * rewrite Hp, Hn, countPos_single_same. simpl. f_equal. lia.
      * rewrite countPos_single_other by assumption.
        rewrite Hinv. now rewrite Nat.add_0_r.
  - split; [|split; rewrite ?app_nil_r; reflexivity].
    intros pos. rewrite countPos_app.
    destruct (decide (position p = pos)) as [<-|Hne].
    + now rewrite Hp, Hn.
    + rewrite countPos_single_other by assumption.
      rewrite Hinv. now rewrite Nat.add_0_r.
Qed.

Lemma fold_fillStep positionCounts l : forall st seen,
  countersAfter positionCounts (filled st) seen ->
  let st' := fold_left (fillStep positionCounts) l st in
  accStarters st' = accStarters st ++ fst (greedyAssign positionCounts seen l)
  /\ accBench st' = accBench st ++ snd (greedyAssign positionCounts seen l).
Proof.
  induction l as [|p l IH]; intros st seen Hinv; cbn zeta.
  - simpl. now rewrite !app_nil_r.
  - destruct (fillStep_spec positionCounts st seen p Hinv) as (Hinv' & Hs & Hb).
    cbn [fold_left].
    destruct (IH _ _ Hinv') as [Hs' Hb']. rewrite Hs', Hb', Hs, Hb.
    cbn [greedyAssign].
    destruct (countPos (position p) seen <? needed positionCounts (position p))%nat;
      cbn [fst snd]; rewrite <- ?app_assoc, ?app_nil_r; split; reflexivity.
Qed.

Lemma fillLineup_greedy scoredPlayers positionCounts :
  let sorted := sortWith byScoreDesc scoredPlayers in
  starters (fillLineup scoredPlayers positionCounts)
    = fst (greedyAssign positionCounts [] sorted)
  /\ bench (fillLineup scoredPlayers positionCounts)
    = snd (greedyAssign positionCounts [] sorted).
Proof.
  cbn zeta. unfold fillLineup. cbn [starters bench].
  exact (fold_fillStep positionCounts _
           (mkFill ((fun _ => 0%nat) <$> positionCounts) [] []) []
           (countersAfter_init positionCounts)).
Qed.

Lemma greedyAssign_length positionCounts l : forall seen,
  (length (fst (greedyAssign positionCounts seen l))
   + length (snd (greedyAssign positionCounts seen l)) = length l)%nat.
Proof.
  induction l as [|p l IH]; intros seen; [reflexivity|].
  cbn [greedyAssign]. specialize (IH (seen ++ [p])).
  destruct (_ <? _)%nat; cbn [fst snd length]; lia.
Qed.

Lemma greedyAssign_count positionCounts pos l : forall seen,
  (countPos pos (fst (greedyAssign positionCounts seen l))
   + Nat.min (countPos pos seen) (needed positionCounts pos)
   = Nat.min (countPos pos (seen ++ l)) (needed positionCounts pos))%nat.
Proof.
  induction l as [|p l IH]; intros seen.
  - simpl. now rewrite app_nil_r.
  - cbn [greedyAssign]. specialize (IH (seen ++ [p])).
    rewrite <- app_assoc in IH. cbn [app] in IH. rewrite <- IH.
    rewrite countPos_app.
    destruct (Nat.ltb_spec (countPos (position p) seen)
                (needed positionCounts (position p))) as [Hlt|Hge];
      cbn [fst snd];
      (destruct (decide (position p = pos)) as [<-|Hne];
       [ rewrite countPos_single_same
       | rewrite (countPos_single_other pos p) by assumption ]).
    + change (withSlot (position p) p :: ?l) with ([withSlot (position p) p] ++ l).
      rewrite countPos_app.
      rewrite <- (position_withSlot (position p) p) at 1.
      rewrite countPos_single_same. lia.
    + change (withSlot (position p) p :: ?l) with ([withSlot (position p) p] ++ l).
      rewrite countPos_app, countPos_single_other by assumption. lia.
    + lia.
    + lia.
Qed.

Lemma greedyAssign_slots positionCounts l : forall seen,
  Forall (fun q : ScoredPlayer => slot q = position q)
    (fst (greedyAssign positionCounts seen l))
  /\ Forall (fun q : ScoredPlayer => slot q = "BN")
       (snd (greedyAssign positionCounts seen l)).
Proof.
  induction l as [|p l IH]; intros seen; [split; constructor|].
  cbn [greedyAssign]. destruct (IH (seen ++ [p])) as [Hs Hb].
  destruct (_ <? _)%nat; cbn [fst snd]; split; auto; constructor; auto.
Qed.

Lemma greedyAssign_origin positionCounts l : forall seen q,
  In q (fst (greedyAssign positionCounts seen l)
        ++ snd (greedyAssign positionCounts seen l)) ->
  exists p s, In p l /\ q = withSlot s p.
Proof.
  induction l as [|p l IH]; intros seen q Hq; [contradiction|].
  cbn [greedyAssign] in Hq.
  assert (Hcase : q = withSlot (position p) p \/ q = withSlot "BN" p
                  \/ In q (fst (greedyAssign positionCounts (seen ++ [p]) l)
                           ++ snd (greedyAssign positionCounts (seen ++ [p]) l))).
  { destruct (_ <? _)%nat; cbn [fst snd] in Hq.
    - destruct Hq as [<-|Hq]; auto.
    - apply in_app_or in Hq. destruct Hq as [Hq|[<-|Hq]]; auto;
        right; right; apply in_or_app; auto. }
  destruct Hcase as [->|[->|Hin]].
  - exists p, (position p). split; [now left | reflexivity].
  - exists p, "BN". split; [now left | reflexivity].
  - destruct (IH _ _ Hin) as (p' & s & Hp' & ->).
    exists p', s. split; [now right | reflexivity].
Qed.

(** A quarterback slot and a flex slot for two quarterbacks and a running
    back: the better quarterback starts, the running back, level with him on
    score and behind him in the input, goes to the bench with the other
    quarterback, and the flex slot stays empty. *)
Example fillLineup_example :
  let a := sampleScored "a" "QB" "BN" 1 in
  let b := sampleScored "b" "QB" "BN" 2 in
  let c := sampleScored "c" "RB" "BN" 2 in
  fillLineup [a; b; c] {[ "QB" := 1%nat; "FLEX" := 1%nat ]}
  = mkLineup [withSlot "QB" b] [withSlot "BN" c; withSlot "BN" a].
Proof.
  intros a b c.
  destruct (fillLineup_greedy [a; b; c] {[ "QB" := 1%nat; "FLEX" := 1%nat ]})
    as [Hs Hb].
  assert (Hsort : sortWith byScoreDesc [a; b; c] = [b; c; a]).
  { unfold sortWith, byScoreDesc. simpl. rcases. simpl. rcases. }
  rewrite Hsort in Hs, Hb.
  destruct (fillLineup [a; b; c] _) as [s bn]. simpl in Hs, Hb. now subst.
Qed.

(** C8.  [fillLineup] works on the players sorted by score, highest first,
    equal scores in input order; going down that list it gives a player a
    slot of the own position while that position has capacity left and the
    bench otherwise.  No position gets more starters than the requirement
    object asks for, and starters and bench together are as many as the
    players given. *)
Theorem fillLineup_contract :
  forall scoredPlayers positionCounts,
    let sorted := sortWith byScoreDesc scoredPlayers in
    let lineup := fillLineup scoredPlayers positionCounts in
    Permutation sorted scoredPlayers
    /\ StronglySorted scoreGe sorted
    /\ (forall r,
           List.filter (fun p => Reqb (score p) r) sorted
           = List.filter (fun p => Reqb (score p) r) scoredPlayers)
    /\ starters lineup = fst (greedyAssign positionCounts [] sorted)
    /\ bench lineup = snd (greedyAssign positionCounts [] sorted)
    /\ (forall pos,
           (countPos pos (starters lineup) <= needed positionCounts pos)%nat)
    /\ (length (starters lineup) + length (bench lineup)
        = length scoredPlayers)%nat.
Proof.
  intros scoredPlayers positionCounts sorted lineup.
  destruct (fillLineup_greedy scoredPlayers positionCounts) as [Hs Hb].
  fold sorted in Hs, Hb. fold lineup in Hs, Hb.
  split; [apply sortWith_perm|].
  split; [apply sortWith_byScoreDesc_sorted|].
  split; [intros r; apply sortWith_byScoreDesc_stable|].
  split; [exact Hs|]. split; [exact Hb|]. split.
  - intros pos. rewrite Hs.
    pose proof (greedyAssign_count positionCounts pos sorted []) as H.
    lia.
  - rewrite Hs, Hb, greedyAssign_length. apply sortWith_length.
Qed.

(** ** Flex swaps *)

Lemma filter_none {A} (f : A -> bool) l :
  Forall (fun x => f x = false) l -> List.filter f l = [].
Proof.
  induction 1 as [|x l Hx _ IH]; [reflexivity|].
  simpl. now rewrite Hx.
Qed.

Lemma flat_map_nil {A B} (l : list A) : flat_map (fun _ : A => @nil B) l = [].
Proof. induction l; auto. Qed.

Lemma tryFlexSwaps_no_flex_starter sts bn :
  Forall (fun q : ScoredPlayer =>
            flexEligible (position q) = true -> slot q <> "FLEX") sts ->
  tryFlexSwaps sts bn = [].
Proof.
  intros H. unfold tryFlexSwaps.
  rewrite (filter_none _ sts).
  - cbn [sortWith foldr flat_map]. now rewrite flat_map_nil.
  - eapply Forall_impl; [exact H|]. intros q Hq. cbv beta in *.
    destruct (flexEligible (position q)); [|reflexivity].
    simpl. apply String.eqb_neq. now apply Hq.
Qed.

Lemma flexEligible_not_FLEX pos : flexEligible pos = true -> pos <> "FLEX".
Proof. intros H ->. discriminate. Qed.

(** On a lineup that does have a flex starter the advisor answers: the
    bench receiver beats the flex running back by more than a point, the
    bench tight end does not. *)
Example tryFlexSwaps_example :
  tryFlexSwaps [sampleScored "x" "RB" "FLEX" 0.1; sampleScored "q" "QB" "QB" 3]
               [sampleScored "y" "WR" "BN" 2; sampleScored "z" "TE" "BN" 0.5]
  = [mkSwap "swap" "x" "y" (2 - 0.1)].
Proof.
  unfold tryFlexSwaps. simpl. rcases. simpl. rcases.
Qed.

(** C9.  Every starter of [fillLineup] carries the own position as slot and
    every bench player carries ["BN"], so no RB, WR or TE is ever labelled
    ["FLEX"], whatever the requirement object asks for; [tryFlexSwaps] on
    that lineup finds no flex starter and returns the empty list. *)
Theorem fillLineup_never_flex :
  forall scoredPlayers positionCounts,
    let lineup := fillLineup scoredPlayers positionCounts in
    Forall (fun q : ScoredPlayer => slot q = position q) (starters lineup)
    /\ Forall (fun q : ScoredPlayer => slot q = "BN") (bench lineup)
    /\ Forall (fun q : ScoredPlayer =>
                 flexEligible (position q) = true -> slot q <> "FLEX")
         (starters lineup ++ bench lineup)
    /\ tryFlexSwaps (starters lineup) (bench lineup) = [].
Proof.
  intros scoredPlayers positionCounts lineup.
  destruct (fillLineup_greedy scoredPlayers positionCounts) as [Hs Hb].
  fold lineup in Hs, Hb.
  destruct (greedyAssign_slots positionCounts
              (sortWith byScoreDesc scoredPlayers) []) as [Fs Fb].
  rewrite <- Hs in Fs. rewrite <- Hb in Fb.
  assert (Fst : Forall (fun q : ScoredPlayer =>
                  flexEligible (position q) = true -> slot q <> "FLEX")
                  (starters lineup)).
  { eapply Forall_impl; [exact Fs|]. intros q Hq Hflex. cbv beta in Hq.
    rewrite Hq. now apply flexEligible_not_FLEX. }
  split; [exact Fs|]. split; [exact Fb|]. split.
  - apply Forall_app. split; [exact Fst|].
    eapply Forall_impl; [exact Fb|]. intros q Hq _. cbv beta in Hq.
    rewrite Hq. discriminate.
  - now apply tryFlexSwaps_no_flex_starter.
Qed.

(** ** The scoring loop *)

Lemma lookup_map {A B} (f : A -> B) (l : list A) i :
  map f l !! i = f <$> l !! i.
Proof.
  revert i. induction l as [|x l IH]; intros [|i]; simpl; auto.
Qed.

Lemma lookup_In {A} (l : list A) i x : l !! i = Some x -> In x l.
Proof.
  revert i. induction l as [|y l IH]; intros [|i] H; simpl in *; try discriminate.
  - left. congruence.
  - right. eauto.
Qed.

Lemma tieredPlayers_lookup lines allProps rules roster i p :
  roster !! i = Some p ->
  tieredPlayers lines allProps rules roster !! i =
    Some (let sp := scoreOne rules (map (estimate lines allProps rules) roster)
                      (estimate lines allProps rules p) in
          withTier (tierOf (score sp)) sp).
Proof.
  intros H. unfold tieredPlayers, assignTiers.
  rewrite !lookup_map, H. reflexivity.
Qed.

Lemma tieredPlayers_In lines allProps rules roster q :
  In q (tieredPlayers lines allProps rules roster) ->
  exists p, In p roster
    /\ q = (let sp := scoreOne rules (map (estimate lines allProps rules) roster)
                        (estimate lines allProps rules p) in
            withTier (tierOf (score sp)) sp).
Proof.
  unfold tieredPlayers, assignTiers. intros H.
  apply in_map_iff in H. destruct H as (sp & <- & H).
  apply in_map_iff in H. destruct H as (e & <- & H).
  apply in_map_iff in H. destruct H as (p & <- & H).
  exists p. split; [assumption | reflexivity].
Qed.

Lemma estimate_bye lines allProps rules p :
  getGameContext lines (team p) = None ->
  estimate lines allProps rules p = mkEstimated p ∅ None 0 0 true.
Proof. intros H. unfold estimate. now rewrite H. Qed.

Lemma estimate_context lines allProps rules p :
  context (estimate lines allProps rules p) = getGameContext lines (team p).
Proof. unfold estimate. destruct (getGameContext lines (team p)); reflexivity. Qed.

Lemma estimate_is_bye lines allProps rules p :
  is_bye_week (estimate lines allProps rules p)
  = bool_decide (getGameContext lines (team p) = None).
Proof. unfold estimate. destruct (getGameContext lines (team p)); reflexivity. Qed.

Lemma estimate_player lines allProps rules p :
  player (estimate lines allProps rules p) = p.
Proof. unfold estimate. destruct (getGameContext lines (team p)); reflexivity. Qed.

Lemma tierOf_zero : tierOf 0 = "B".
Proof. unfold tierOf, TIER_S, TIER_A, TIER_B, TIER_C. rcases. Qed.

Lemma tierOf_low sc : sc < -0.8 -> tierOf sc = "D".
Proof. intros H. unfold tierOf, TIER_S, TIER_A, TIER_B, TIER_C. rcases. Qed.

Lemma nonBye_has_context lines allProps rules roster e :
  In e (nonBye (map (estimate lines allProps rules) roster)) ->
  is_Some (context e) /\ is_bye_week e = false.
Proof.
  unfold nonBye. intros H. apply filter_In in H. destruct H as [H Hb].
  apply in_map_iff in H. destruct H as (p & <- & _).
  rewrite estimate_is_bye in Hb. rewrite estimate_context, estimate_is_bye.
  apply negb_true_iff in Hb. split; [|assumption].
  apply bool_decide_eq_false in Hb.
  destruct (getGameContext lines (team p)); [eexists; reflexivity | congruence].
Qed.

(** C1 on the code.  A roster player whose team has no game comes out of
    the handler with efp 0 and score 0 and is in no z-score cohort, but with
    tier ["B"]: the ["BYE"] stored by the scoring loop is replaced by
    [assignTiers], which classifies the score 0.  The same holds for every
    such player in the lineup that is returned. *)
Theorem bye_player_tier_overwritten :
  (forall lines allProps rules (roster : list Player) (i : nat) p,
      roster !! i = Some p ->
      getGameContext lines (team p) = None ->
      exists sp : ScoredPlayer,
        tieredPlayers lines allProps rules roster !! i = Some sp
        /\ player sp = p /\ efp sp = 0 /\ score sp = 0
        /\ tier sp = Some "B"
        /\ ~ In (estimated sp) (nonBye (map (estimate lines allProps rules) roster)))
  /\ (forall lines allProps rules positionCounts roster q,
         let lineup := fst (runScoring lines allProps rules positionCounts roster) in
         In q (starters lineup ++ bench lineup) ->
         context q = None ->
         efp q = 0 /\ score q = 0 /\ tier q = Some "B").
Proof.
  split.
  - intros lines allProps rules roster i p Hi Hctx.
    eexists. split; [apply tieredPlayers_lookup; exact Hi|].
    cbn zeta. rewrite (estimate_bye _ _ _ _ Hctx). unfold scoreOne.
    cbn [is_bye_week score withTier estimated player efp tier].
    rewrite tierOf_zero. repeat split; try reflexivity.
    intros Hin. rewrite <- (estimate_bye lines allProps rules p Hctx) in Hin.
    apply nonBye_has_context in Hin. destruct Hin as [_ Hb].
    rewrite estimate_bye in Hb by assumption. discriminate.
  - intros lines allProps rules positionCounts roster q lineup Hq Hctx.
    subst lineup. unfold runScoring in Hq. cbn [fst] in Hq.
    destruct (fillLineup_greedy (tieredPlayers lines allProps rules roster)
                positionCounts) as [Hs Hb].
    rewrite Hs, Hb in Hq.
    apply greedyAssign_origin in Hq. destruct Hq as (p' & s & Hp' & ->).
    apply (Permutation_in _ (sortWith_perm _ _)) in Hp'.
    apply tieredPlayers_In in Hp'. destruct Hp' as (p & _ & ->).
    cbn zeta in *. unfold withSlot, withTier in *.
    cbn [context estimated efp score tier] in *.
    unfold scoreOne in *.
    destruct (is_bye_week (estimate lines allProps rules p)) eqn:Hbye.
    + cbn [context estimated efp score tier] in *.
      rewrite estimate_is_bye in Hbye. apply bool_decide_eq_true in Hbye.
      rewrite (estimate_bye _ _ _ _ Hbye). cbn [efp].
      rewrite tierOf_zero. auto.
    + cbn [context estimated efp score tier] in Hctx.
      rewrite estimate_is_bye in Hbye. apply bool_decide_eq_false in Hbye.
      rewrite estimate_context in Hctx. contradiction.
Qed.

Lemma bye_player_tier_overwritten_witness :
  let lines := [mkContext "KC" "DEN" (Some (-3)) (Some 45) (Some (mkIT 24 21))] in
  let rules := mkRules 0.04 4 (-2) 0.1 6 0.1 1 6 (-2) 2 in
  let roster := [mkPlayer "Idle Back" "RB" "SF" None (Some 9%nat) "RB"] in
  let lineup := fst (runScoring lines ∅ rules {[ "RB" := 2%nat ]} roster) in
  (exists sp : ScoredPlayer,
      tieredPlayers lines ∅ rules roster !! 0%nat = Some sp
      /\ efp sp = 0 /\ score sp = 0 /\ tier sp = Some "B")
  /\ (exists q : ScoredPlayer,
         In q (starters lineup ++ bench lineup)
         /\ name q = "Idle Back"
         /\ efp q = 0 /\ score q = 0 /\ tier q = Some "B").
Proof.
  intros lines rules roster lineup.
  pose proof bye_player_tier_overwritten as [Hone Hlineup].
  split.
  - destruct (Hone lines ∅ rules roster 0%nat
                (mkPlayer "Idle Back" "RB" "SF" None (Some 9%nat) "RB")
                eq_refl eq_refl)
      as (sp & H1 & _ & H2 & H3 & H4 & _).
    exists sp. auto.
  - set (q := withSlot "RB" (withTier (tierOf 0)
                 (mkScored (mkEstimated
                    (mkPlayer "Idle Back" "RB" "SF" None (Some 9%nat) "RB")
                    ∅ None 0 0 true) 0 (Some "BYE")))).
    assert (Hq : In q (starters lineup ++ bench lineup)).
    { left. reflexivity. }
    exists q. split; [exact Hq|]. split; [reflexivity|].
    exact (Hlineup lines ∅ rules {[ "RB" := 2%nat ]} roster q Hq eq_refl).
Defined.

(** ** Injury penalty and the tier of a player who is out *)

Lemma calculateScriptBonus_le pos ctx : calculateScriptBonus pos ctx <= 0.6.
Proof.
  unfold calculateScriptBonus. destruct ctx as [ctx|]; [|lra].
  destruct (truthy (spread ctx)); simpl; [|lra].
  unfold calculateScriptLean.
  destruct (_ || _)%bool; strcases; rcases.
Qed.

Lemma calculateITBonus_le ctx bound :
  (forall its, implied_totals ctx = Some its -> homeIT its <= bound) ->
  21 <= bound ->
  calculateITBonus (Some ctx) <= (bound - 21) / 7.
Proof.
  intros H Hb. unfold calculateITBonus.
  destruct (implied_totals ctx) as [its|].
  - specialize (H its eq_refl). lra.
  - lra.
Qed.

Lemma cohort_member lines allProps rules roster p :
  In p roster ->
  getGameContext lines (team p) <> None ->
  let e := estimate lines allProps rules p in
  let dataset :=
    map efp (List.filter
               (fun q : Estimated => String.eqb (position q) (position e))
               (nonBye (map (estimate lines allProps rules) roster))) in
  In (efp e) dataset /\ (length dataset <= length roster)%nat.
Proof.
  intros Hin Hctx e dataset. split.
  - apply in_map. apply filter_In. split; [|apply String.eqb_refl].
    apply filter_In. split; [now apply in_map|].
    subst e. rewrite estimate_is_bye.
    now rewrite bool_decide_eq_false_2.
  - subst dataset. rewrite length_map.
    etransitivity; [apply filter_length_le|].
    etransitivity; [apply filter_length_le|].
    now rewrite length_map.
Qed.

Lemma out_player_score lines allProps rules roster p ctx :
  In p roster ->
  calculateInjuryPenalty (status p) = -999 ->
  getGameContext lines (team p) = Some ctx ->
  (length roster <= 1000)%nat ->
  (forall its, implied_totals ctx = Some its -> homeIT its <= 1000) ->
  score (scoreOne rules (map (estimate lines allProps rules) roster)
           (estimate lines allProps rules p)) < -0.8.
Proof.
  intros Hin Hpen Hctx Hlen Hit.
  assert (Hsome : getGameContext lines (team p) <> None) by congruence.
  destruct (cohort_member lines allProps rules roster p Hin Hsome) as [Hmem Hsize].
  unfold scoreOne. rewrite estimate_is_bye, bool_decide_eq_false_2 by assumption.
  cbn [score]. rewrite estimate_context, Hctx.
  unfold calculateSitStartScore.
  rewrite estimate_player, Hpen.
  rewrite estimate_player in Hmem, Hsize.
  set (z := calculateZScore _ _).
  assert (Hz : z ^ 2 <= 1000).
  { etransitivity; [apply calculateZScore_sq_le; exact Hmem|].
    apply Rle_trans with (INR 1000); [apply le_INR; lia|].
    rewrite INR_IZR_INZ. change (Z.of_nat 1000) with 1000%Z. lra. }
  assert (z <= 32) by nra.
  pose proof (calculateScriptBonus_le (position p) (Some ctx)).
  pose proof (calculateITBonus_le ctx 1000 Hit ltac:(lra)).
  lra.
Qed.

Lemma calculateInjuryPenalty_upper s :
  s <> "" ->
  calculateInjuryPenalty (Some s) =
    let u := toUpperCase s in
    if String.eqb u "Q" then -0.3
    else if String.eqb u "D" then -0.8
    else if (String.eqb u "O" || String.eqb u "IR" || String.eqb u "PUP"
             || String.eqb u "SUSP")%bool then -999
    else 0.
Proof. intros H. destruct s; [congruence | reflexivity]. Qed.

Lemma toUpperCase_nonempty s : toUpperCase s <> "" -> s <> "".
Proof. intros H ->. now apply H. Qed.

Lemma calculateInjuryPenalty_table s :
  (toUpperCase s = "Q" -> calculateInjuryPenalty (Some s) = -0.3)
  /\ (toUpperCase s = "D" -> calculateInjuryPenalty (Some s) = -0.8)
  /\ (In (toUpperCase s) ["O"; "IR"; "PUP"; "SUSP"] ->
      calculateInjuryPenalty (Some s) = -999)
  /\ (~ In (toUpperCase s) ["Q"; "D"; "O"; "IR"; "PUP"; "SUSP"] ->
      calculateInjuryPenalty (Some s) = 0).
Proof.
  repeat split.
  - intros H. rewrite calculateInjuryPenalty_upper, H; [reflexivity|].
    apply toUpperCase_nonempty. now rewrite H.
  - intros H. rewrite calculateInjuryPenalty_upper, H; [reflexivity|].
    apply toUpperCase_nonempty. now rewrite H.
  - intros H. rewrite calculateInjuryPenalty_upper.
    + cbn zeta. destruct H as [<-|[<-|[<-|[<-|[]]]]]; reflexivity.
    + apply toUpperCase_nonempty. destruct H as [<-|[<-|[<-|[<-|[]]]]]; discriminate.
  - intros H. destruct (decide (s = "")) as [->|Hne]; [reflexivity|].
    rewrite calculateInjuryPenalty_upper by assumption. cbn zeta.
    set (u := toUpperCase s) in *.
    assert (Hu : forall t, In t ["Q"; "D"; "O"; "IR"; "PUP"; "SUSP"] ->
                           String.eqb u t = false).
    { intros t Ht. apply String.eqb_neq. intros ->. contradiction. }
    rewrite !Hu by (simpl; auto 10). reflexivity.
Qed.

(** C3 as the code has it.  The status is compared in upper case.  The
    injury penalty is -0.3 for status Q (questionable), -0.8 for D
    (doubtful), -999 for O (out), IR, PUP and SUSP, and 0 for no status and
    for any other status.  A player who is out and has a game context ends in
    tier D when the roster has at most 1000 players and the home implied
    total of the context, if there is one, is at most 1000. *)
Theorem injury_penalty_and_out_tier :
  (forall s, toUpperCase s = "Q" -> calculateInjuryPenalty (Some s) = -0.3)
  /\ (forall s, toUpperCase s = "D" -> calculateInjuryPenalty (Some s) = -0.8)
  /\ (forall s, In (toUpperCase s) ["O"; "IR"; "PUP"; "SUSP"] ->
                calculateInjuryPenalty (Some s) = -999)
  /\ calculateInjuryPenalty None = 0
  /\ (forall s, ~ In (toUpperCase s) ["Q"; "D"; "O"; "IR"; "PUP"; "SUSP"] ->
                calculateInjuryPenalty (Some s) = 0)
  /\ (forall lines allProps rules (roster : list Player) (i : nat) p ctx,
         roster !! i = Some p ->
         status p = Some "O" ->
         getGameContext lines (team p) = Some ctx ->
         (length roster <= 1000)%nat ->
         (forall its, implied_totals ctx = Some its -> homeIT its <= 1000) ->
         exists sp : ScoredPlayer,
           tieredPlayers lines allProps rules roster !! i = Some sp
           /\ player sp = p /\ context sp = Some ctx /\ tier sp = Some "D").
Proof.
  split; [intros s; apply (calculateInjuryPenalty_table s)|].
  split; [intros s; apply (calculateInjuryPenalty_table s)|].
  split; [intros s; apply (calculateInjuryPenalty_table s)|].
  split; [reflexivity|].
  split; [intros s; apply (calculateInjuryPenalty_table s)|].
  intros lines allProps rules roster i p ctx Hi Hst Hctx Hlen Hit.
  eexists. split; [apply tieredPlayers_lookup; exact Hi|].
  cbn zeta. unfold withTier. cbn [estimated tier].
  split; [|split].
  - unfold scoreOne. destruct (is_bye_week _); apply estimate_player.
  - unfold scoreOne. destruct (is_bye_week _); cbn [estimated];
      now rewrite estimate_context.
  - f_equal. apply tierOf_low.
    apply (out_player_score lines allProps rules roster p ctx); auto.
    + eapply lookup_In; eassumption.
    + now rewrite Hst.
Qed.

Lemma injury_penalty_and_out_tier_witness :
  calculateInjuryPenalty (Some "q") = -0.3
  /\ calculateInjuryPenalty (Some "D") = -0.8
  /\ calculateInjuryPenalty (Some "Susp") = -999
  /\ calculateInjuryPenalty (Some "NA") = 0
  /\ exists sp : ScoredPlayer,
       tieredPlayers [mkContext "KC" "DEN" (Some (-3)) (Some 45) (Some (mkIT 24 21))]
         ∅ (mkRules 0.04 4 (-2) 0.1 6 0.1 1 6 (-2) 2)
         [mkPlayer "Hurt Back" "RB" "KC" (Some "O") (Some 9%nat) "RB"] !! 0%nat = Some sp
       /\ tier sp = Some "D".
Proof.
  pose proof injury_penalty_and_out_tier as (HQ & HD & HO & _ & H0 & Hout).
  split; [apply HQ; reflexivity|].
  split; [apply HD; reflexivity|].
  split; [apply HO; simpl; auto 10|].
  split; [apply H0; simpl; intuition discriminate|].
  destruct (Hout
              [mkContext "KC" "DEN" (Some (-3)) (Some 45) (Some (mkIT 24 21))]
              ∅ (mkRules 0.04 4 (-2) 0.1 6 0.1 1 6 (-2) 2)
              [mkPlayer "Hurt Back" "RB" "KC" (Some "O") (Some 9%nat) "RB"] 0%nat
              (mkPlayer "Hurt Back" "RB" "KC" (Some "O") (Some 9%nat) "RB")
              (mkContext "KC" "DEN" (Some (-3)) (Some 45) (Some (mkIT 24 21)))
              eq_refl eq_refl eq_refl)
    as (sp & H1 & _ & _ & H2).
  - simpl. lia.
  - intros its H. injection H as <-. simpl. lra.
  - exists sp. auto.
Defined.

Lemma tierOf_high sc : 1.2 <= sc -> tierOf sc = "S".
Proof. intros H. unfold tierOf, TIER_S. rcases. Qed.

(** C3 as stated fails: a lone RB who is out, in a game whose home implied
    total is 7000, scores 0.25 * 997 - 199.8 = 49.45 and lands in tier S. *)
Lemma out_player_tier_S :
  exists sp : ScoredPlayer,
    tieredPlayers
      [mkContext "KC" "DEN" (Some (-1)) (Some 13999) (Some (mkIT 7000 6999))]
      ∅ (mkRules 0.04 4 (-2) 0.1 6 0.1 1 6 (-2) 2)
      [mkPlayer "Hurt Back" "RB" "KC" (Some "O") None "RB"] !! 0%nat = Some sp
    /\ status sp = Some "O"
    /\ is_Some (context sp)
    /\ tier sp = Some "S".
Proof.
  eexists. split; [apply tieredPlayers_lookup; reflexivity|].
  cbn zeta. unfold withTier. cbn [estimated tier].
  set (p := mkPlayer "Hurt Back" "RB" "KC" (Some "O") None "RB").
  set (ctx := mkContext "KC" "DEN" (Some (-1)) (Some 13999) (Some (mkIT 7000 6999))).
  set (rules := mkRules 0.04 4 (-2) 0.1 6 0.1 1 6 (-2) 2).
  assert (Hctx : getGameContext [ctx] (team p) = Some ctx) by reflexivity.
  assert (Hbye : is_bye_week (estimate [ctx] ∅ rules p) = false).
  { rewrite estimate_is_bye, Hctx. reflexivity. }
  unfold scoreOne. rewrite Hbye. cbn [estimated score].
  rewrite estimate_player, estimate_context, Hctx.
  split; [reflexivity|]. split; [eexists; reflexivity|].
  f_equal. apply tierOf_high.
  unfold calculateSitStartScore.
  assert (Hz : forall v l, length l = 1%nat -> calculateZScore v l = 0).
  { intros v [|x [|y l]] Hl; try discriminate.
    apply (calculateZScore_all_equal v x). repeat constructor. }
  rewrite Hz.
  - assert (Hs : calculateScriptBonus (position p) (Some ctx) = 0).
    { unfold calculateScriptBonus, calculateScriptLean, truthy. simpl. rcases. }
    rewrite Hs. unfold calculateITBonus, calculateInjuryPenalty. simpl. lra.
  - rewrite length_map. unfold nonBye. cbn [map List.filter].
    rewrite Hbye. cbn [negb List.filter].
    rewrite estimate_player, String.eqb_refl. reflexivity.
Qed.

(** ** Scoring rules with missing weights *)

Lemma loose_as_fold (prs : Props) scoringRules pos ctx :
  prs <> ∅ ->
  Loose.expectedFantasyPoints prs scoringRules pos ctx =
    fold_left (looseStep prs scoringRules) (usedWeights pos)
      (Loose.Returns (Loose.Num 0)).
Proof.
  intros H. unfold Loose.expectedFantasyPoints.
  now rewrite bool_decide_eq_false_2.
Qed.

Lemma loose_fold_record (prs : Props) obj l : forall v,
  exists v',
    fold_left (looseStep prs (Some obj)) l (Loose.Returns v) = Loose.Returns v'
    /\ (v = Loose.NaN -> v' = Loose.NaN)
    /\ ((exists kf, In kf l /\ truthy (prs !! fst kf) = true
                    /\ obj !! snd kf = None) -> v' = Loose.NaN).
Proof.
  induction l as [|[k f] l IH]; intros v.
  - exists v. split; [reflexivity|]. split; [auto|].
    intros (kf & [] & _).
  - cbn [fold_left]. unfold looseStep at 2. cbn [fst snd].
    unfold Loose.addProp, Loose.bind, Loose.readWeight.
    destruct (truthy (prs !! k)) eqn:Ht.
    + destruct (obj !! f) as [w|] eqn:Hw.
      * destruct (IH (Loose.jsadd v (Loose.jsmul (Loose.Num (toNumber (prs !! k)))
                                       (Loose.Num w)))) as (v' & Hv' & Hnan & Hmiss).
        exists v'. split; [exact Hv'|]. split.
        -- intros ->. apply Hnan. reflexivity.
        -- intros (kf & [<-|Hin] & Hkt & Hkf); cbn [fst snd] in *.
           ++ congruence.
           ++ apply Hmiss. eauto.
      * destruct (IH (Loose.jsadd v (Loose.jsmul (Loose.Num (toNumber (prs !! k)))
                                       Loose.NaN))) as (v' & Hv' & Hnan & _).
        exists v'. split; [exact Hv'|].
        assert (v' = Loose.NaN) by (apply Hnan; destruct v; reflexivity).
        split; auto.
    + destruct (IH v) as (v' & Hv' & Hnan & Hmiss).
      exists v'. split; [exact Hv'|]. split; [exact Hnan|].
      intros (kf & [<-|Hin] & Hkt & Hkf); cbn [fst snd] in *.
      * congruence.
      * apply Hmiss. eauto.
Qed.

Lemma loose_fold_throws (prs : Props) scoringRules l :
  fold_left (looseStep prs scoringRules) l Loose.Throws = Loose.Throws.
Proof. induction l as [|kf l IH]; [reflexivity|]. exact IH. Qed.

Lemma loose_fold_null (prs : Props) l : forall v,
  fold_left (looseStep prs None) l (Loose.Returns v) = Loose.Throws
  <-> exists kf, In kf l /\ truthy (prs !! fst kf) = true.
Proof.
  induction l as [|[k f] l IH]; intros v.
  - simpl. split; [discriminate | intros (kf & [] & _)].
  - cbn [fold_left]. unfold looseStep at 2. cbn [fst snd].
    unfold Loose.addProp, Loose.bind, Loose.readWeight.
    destruct (truthy (prs !! k)) eqn:Ht.
    + rewrite loose_fold_throws. split; [|reflexivity].
      intros _. exists (k, f). split; [now left | exact Ht].
    + rewrite IH. split.
      * intros (kf & Hin & Hkt). exists kf. split; [now right | exact Hkt].
      * intros (kf & [<-|Hin] & Hkt); cbn [fst] in *; [congruence|].
        exists kf. split; assumption.
Qed.

Lemma loose_addProp_num o obj f w a :
  obj !! f = Some w ->
  Loose.addProp o (Some obj) f (Loose.Returns (Loose.Num a))
  = Loose.Returns (Loose.Num (addProp o w a)).
Proof.
  intros H. unfold Loose.addProp, addProp, Loose.bind, Loose.readWeight.
  rewrite H. destruct (truthy o); reflexivity.
Qed.

Lemma loose_complete (prs : Props) rules pos ctx :
  Loose.expectedFantasyPoints prs (Some (Loose.toObject rules)) pos ctx
  = Loose.Returns (Loose.Num (expectedFantasyPoints prs rules pos ctx)).
Proof.
  unfold Loose.expectedFantasyPoints, expectedFantasyPoints.
  destruct (bool_decide (prs = ∅)); [reflexivity|].
  assert (Htd : Loose.toObject rules !! Loose.tdField pos = Some (tdValueOf rules pos)).
  { unfold Loose.tdField, tdValueOf.
    destruct (_ || _)%bool; reflexivity. }
  rewrite (loose_addProp_num _ _ _ (passYards rules)) by reflexivity.
  rewrite (loose_addProp_num _ _ _ (passTD rules)) by reflexivity.
  rewrite (loose_addProp_num _ _ _ (passInt rules)) by reflexivity.
  rewrite (loose_addProp_num _ _ _ (rushYards rules)) by reflexivity.
  rewrite (loose_addProp_num _ _ _ (recYards rules)) by reflexivity.
  rewrite (loose_addProp_num _ _ _ (reception rules)) by reflexivity.
  rewrite (loose_addProp_num _ _ _ (tdValueOf rules pos)) by exact Htd.
  reflexivity.
Qed.

Lemma truthy_nonempty (prs : Props) k : truthy (prs !! k) = true -> prs <> ∅.
Proof. intros H ->. rewrite lookup_empty in H. discriminate. Qed.

Lemma loose_record_returns (prs : Props) obj pos ctx :
  exists v, Loose.expectedFantasyPoints prs (Some obj) pos ctx = Loose.Returns v.
Proof.
  destruct (decide (prs = ∅)) as [->|Hne].
  - unfold Loose.expectedFantasyPoints. rewrite bool_decide_eq_true_2 by reflexivity.
    eauto.
  - rewrite loose_as_fold by assumption.
    destruct (loose_fold_record prs obj (usedWeights pos) (Loose.Num 0))
      as (v & Hv & _). eauto.
Qed.

Lemma loose_missing_weight (prs : Props) obj pos ctx kf :
  In kf (usedWeights pos) ->
  truthy (prs !! fst kf) = true ->
  obj !! snd kf = None ->
  Loose.expectedFantasyPoints prs (Some obj) pos ctx = Loose.Returns Loose.NaN.
Proof.
  intros Hin Ht Hw.
  rewrite loose_as_fold by (eapply truthy_nonempty; eassumption).
  destruct (loose_fold_record prs obj (usedWeights pos) (Loose.Num 0))
    as (v & Hv & _ & Hmiss).
  rewrite Hv. f_equal. apply Hmiss. eauto.
Qed.

Lemma loose_null_rules (prs : Props) pos ctx :
  Loose.expectedFantasyPoints prs None pos ctx = Loose.Throws
  <-> exists kf, In kf (usedWeights pos) /\ truthy (prs !! fst kf) = true.
Proof.
  destruct (decide (prs = ∅)) as [->|Hne].
  - unfold Loose.expectedFantasyPoints. rewrite bool_decide_eq_true_2 by reflexivity.
    split; [discriminate|].
    intros (kf & _ & H). rewrite lookup_empty in H. discriminate.
  - rewrite loose_as_fold by assumption. apply loose_fold_null.
Qed.

Lemma loose_example ctx :
  Loose.expectedFantasyPoints
    {[ "pass_yds" := 300; "pass_tds" := 2; "interceptions" := 1 ]}
    (Some {[ "passYards" := 0.04; "passTD" := 4; "passInt" := -2;
             "reception" := 1; "recTD" := 6 ]}) "QB" ctx
  = Loose.Returns (Loose.Num 18).
Proof.
  set (prs := ({[ "pass_yds" := 300; "pass_tds" := 2; "interceptions" := 1 ]} : Props)).
  set (obj := ({[ "passYards" := 0.04; "passTD" := 4; "passInt" := -2;
                  "reception" := 1; "recTD" := 6 ]} : gmap string R)).
  assert (Hne : prs <> ∅).
  { apply (truthy_nonempty prs "pass_tds").
    change (prs !! "pass_tds") with (Some 2). unfold truthy. rcases. }
  unfold Loose.expectedFantasyPoints. rewrite bool_decide_eq_false_2 by exact Hne.
  change (prs !! "pass_yds") with (Some 300).
  change (prs !! "pass_tds") with (Some 2).
  change (prs !! "interceptions") with (Some 1).
  change (prs !! "rush_yds") with (@None R).
  change (prs !! "rec_yds") with (@None R).
  change (prs !! "receptions") with (@None R).
  change (prs !! "anytime_td_prob") with (@None R).
  rewrite (loose_addProp_num _ obj "passYards" 0.04) by reflexivity.
  rewrite (loose_addProp_num _ obj "passTD" 4) by reflexivity.
  rewrite (loose_addProp_num _ obj "passInt" (-2)) by reflexivity.
  cbn [Loose.addProp Loose.bind truthy].
  do 2 f_equal. unfold addProp, truthy, toNumber. rcases.
Qed.

(** C4.  With a props object that is not empty, the estimate is the sum of
    the present fields, each times its weight (pass yards, pass TDs,
    interceptions, rush yards, receiving yards, receptions, and the anytime-TD
    probability times [recTD] for WR/TE and [rushTD] for any other position);
    a field that is absent adds nothing.  With pass yards at 0.04, pass TD at
    4, interception at -2, reception at 1 and receiving TD at 6, a QB with
    300 pass yards, 2 pass TDs and 1 interception is worth 18, whatever the
    other weights and the game context, and also when the rules object holds
    these five weights only. *)
Theorem expectedFantasyPoints_weighted_sum :
  (forall (prs : Props) rules pos ctx,
      prs <> ∅ ->
      expectedFantasyPoints prs rules pos ctx =
        contribution prs "pass_yds" (passYards rules)
        + contribution prs "pass_tds" (passTD rules)
        + contribution prs "interceptions" (passInt rules)
        + contribution prs "rush_yds" (rushYards rules)
        + contribution prs "rec_yds" (recYards rules)
        + contribution prs "receptions" (reception rules)
        + contribution prs "anytime_td_prob"
            (if decide (pos = "WR" \/ pos = "TE") then recTD rules else rushTD rules))
  /\ (forall (prs : Props) field w, prs !! field = None -> contribution prs field w = 0)
  /\ (forall rushYds rushTd recYds fum twoPt ctx,
         expectedFantasyPoints
           {[ "pass_yds" := 300; "pass_tds" := 2; "interceptions" := 1 ]}
           (mkRules 0.04 4 (-2) rushYds rushTd recYds 1 6 fum twoPt) "QB" ctx = 18)
  /\ (forall ctx,
         Loose.expectedFantasyPoints
           {[ "pass_yds" := 300; "pass_tds" := 2; "interceptions" := 1 ]}
           (Some {[ "passYards" := 0.04; "passTD" := 4; "passInt" := -2;
                    "reception" := 1; "recTD" := 6 ]}) "QB" ctx
         = Loose.Returns (Loose.Num 18)).
Proof.
  split; [|split; [|split; [|exact loose_example]]].
  - intros prs rules pos ctx Hne.
    rewrite expectedFantasyPoints_nonempty by assumption.
    now rewrite tdValueOf_cases.
  - intros prs field w H. unfold contribution. now rewrite H.
  - intros. rewrite expectedFantasyPoints_nonempty.
    + unfold contribution. simpl. vm_compute (_ !! _). lra.
    + intros H. apply (f_equal (fun m : Props => m !! "pass_yds")) in H.
      vm_compute in H. discriminate.
Qed.

Lemma expectedFantasyPoints_weighted_sum_witness :
  ({[ "rec_yds" := 80; "receptions" := 6 ]} : Props) <> ∅
  /\ expectedFantasyPoints {[ "rec_yds" := 80; "receptions" := 6 ]}
       (mkRules 0.04 4 (-2) 0.1 6 0.1 1 6 (-2) 2) "WR" None = 14
  /\ contribution {[ "rec_yds" := 80; "receptions" := 6 ]} "pass_yds" 0.04 = 0.
Proof.
  assert (Hne : ({[ "rec_yds" := 80; "receptions" := 6 ]} : Props) <> ∅).
  { intros H. apply (f_equal (fun m : Props => m !! "rec_yds")) in H.
    vm_compute in H. discriminate. }
  split; [exact Hne|]. split.
  - rewrite (proj1 expectedFantasyPoints_weighted_sum _ _ _ _ Hne).
    unfold contribution. simpl. vm_compute (_ !! _). lra.
  - apply (proj1 (proj2 expectedFantasyPoints_weighted_sum)). reflexivity.
Defined.

(** C10 as the code has it.  A rules object is never rejected, whatever
    fields it lacks: the estimator returns, with [NaN] as soon as a prop that
    is present meets a missing weight, and with the value of the typed
    estimator when all ten weights are there.  Missing props never fail
    (the fallback does not read the rules), a missing game context gives
    score 0, and the only failure is a [TypeError] when the rules object
    itself is [null] or [undefined] and a prop is present. *)
Theorem missing_weights_not_rejected :
  (forall (prs : Props) obj pos ctx,
      exists v, Loose.expectedFantasyPoints prs (Some obj) pos ctx = Loose.Returns v)
  /\ (forall (prs : Props) obj pos ctx kf,
         In kf (usedWeights pos) ->
         truthy (prs !! fst kf) = true ->
         obj !! snd kf = None ->
         Loose.expectedFantasyPoints prs (Some obj) pos ctx = Loose.Returns Loose.NaN)
  /\ (forall (prs : Props) rules pos ctx,
         Loose.expectedFantasyPoints prs (Some (Loose.toObject rules)) pos ctx
         = Loose.Returns (Loose.Num (expectedFantasyPoints prs rules pos ctx)))
  /\ (forall scoringRules pos ctx,
         Loose.expectedFantasyPoints ∅ scoringRules pos ctx
         = Loose.Returns (Loose.Num (applyFallback pos ctx scoringRules)))
  /\ (forall (prs : Props) pos ctx,
         Loose.expectedFantasyPoints prs None pos ctx = Loose.Throws
         <-> exists kf, In kf (usedWeights pos) /\ truthy (prs !! fst kf) = true)
  /\ (forall efp0 p rules allPlayers,
         calculateSitStartScore efp0 None p rules allPlayers = 0).
Proof.
  split; [exact loose_record_returns|].
  split; [exact loose_missing_weight|].
  split; [exact loose_complete|].
  split; [|split; [exact loose_null_rules | reflexivity]].
  intros. unfold Loose.expectedFantasyPoints.
  now rewrite bool_decide_eq_true_2.
Qed.

Lemma missing_weights_not_rejected_witness :
  Loose.expectedFantasyPoints {[ "pass_tds" := 2 ]}
    (Some {[ "passYards" := 0.04 ]}) "QB" None
  = Loose.Returns Loose.NaN.
Proof.
  apply (proj1 (proj2 missing_weights_not_rejected)
           {[ "pass_tds" := 2 ]} {[ "passYards" := 0.04 ]} "QB" None
           ("pass_tds", "passTD")).
  - simpl. auto.
  - cbn [fst]. rewrite lookup_singleton_eq. unfold truthy. rcases.
  - reflexivity.
Defined.

(** C10 as stated fails: rules without a [passTD] weight are not rejected;
    a QB with a pass-TD prop gets the estimate [NaN]. *)
Lemma missing_passTD_not_rejected :
  ({[ "passYards" := 0.04; "passInt" := -2; "reception" := 1; "recTD" := 6 ]}
     : gmap string R) !! "passTD" = None
  /\ Loose.expectedFantasyPoints
       {[ "pass_yds" := 300; "pass_tds" := 2; "interceptions" := 1 ]}
       (Some {[ "passYards" := 0.04; "passInt" := -2; "reception" := 1;
                "recTD" := 6 ]}) "QB" None
     = Loose.Returns Loose.NaN
  /\ Loose.expectedFantasyPoints
       {[ "pass_yds" := 300; "pass_tds" := 2; "interceptions" := 1 ]}
       (Some {[ "passYards" := 0.04; "passInt" := -2; "reception" := 1;
                "recTD" := 6 ]}) "QB" None
     <> Loose.Throws.
Proof.
  assert (H : Loose.expectedFantasyPoints
       {[ "pass_yds" := 300; "pass_tds" := 2; "interceptions" := 1 ]}
       (Some {[ "passYards" := 0.04; "passInt" := -2; "reception" := 1;
                "recTD" := 6 ]}) "QB" None
     = Loose.Returns Loose.NaN).
  { apply (loose_missing_weight _ _ _ _ ("pass_tds", "passTD")).
    - simpl. auto.
    - cbn [fst]. vm_compute (_ !! _). unfold truthy. rcases.
    - reflexivity. }
  split; [reflexivity|]. split; [exact H|]. rewrite H. discriminate.
Qed.

(** * Further properties of the scoring functions *)

(** ** Tiers *)

Lemma tierOf_cases sc :
  (1.2 <= sc /\ tierOf sc = "S")
  \/ (0.6 <= sc < 1.2 /\ tierOf sc = "A")
  \/ (-0.2 <= sc < 0.6 /\ tierOf sc = "B")
  \/ (-0.8 <= sc < -0.2 /\ tierOf sc = "C")
  \/ (sc < -0.8 /\ tierOf sc = "D").
Proof.
  unfold tierOf, TIER_S, TIER_A, TIER_B, TIER_C, Rgeb, Rleb.
  destruct (Rle_dec 1.2 sc); [left; split; [lra | reflexivity]|].
  destruct (Rle_dec 0.6 sc); [right; left; split; [lra | reflexivity]|].
  destruct (Rle_dec (-0.2) sc);
    [right; right; left; split; [lra | reflexivity]|].
  destruct (Rle_dec (-0.8) sc);
    [right; right; right; left; split; [lra | reflexivity]|].
  right; right; right; right. split; [lra | reflexivity].
Qed.

Ltac tier_iff sc :=
  destruct (tierOf_cases sc) as [[? E]|[[? E]|[[? E]|[[? E]|[? E]]]]];
  rewrite E; split; intros Hx;
  first [reflexivity | discriminate Hx | lra | (exfalso; lra)].

(** X1.  [assignTiers] cuts the score line at 1.2, 0.6, -0.2 and -0.8, so the
    tier never gets worse when the score grows; it keeps the players, their
    order and their scores, and hands out no tier outside S, A, B, C, D. *)
Theorem tier_cutoffs_monotone :
  (forall sc, tierOf sc = "S" <-> 1.2 <= sc)
  /\ (forall sc, tierOf sc = "A" <-> 0.6 <= sc < 1.2)
  /\ (forall sc, tierOf sc = "B" <-> -0.2 <= sc < 0.6)
  /\ (forall sc, tierOf sc = "C" <-> -0.8 <= sc < -0.2)
  /\ (forall sc, tierOf sc = "D" <-> sc < -0.8)
  /\ (forall a b, a <= b -> (tierRank (tierOf a) <= tierRank (tierOf b))%nat)
  /\ (forall players,
         map estimated (assignTiers players) = map estimated players
         /\ map score (assignTiers players) = map score players
         /\ Forall (fun p => exists t, tier p = Some t
                             /\ In t ["S"; "A"; "B"; "C"; "D"])
              (assignTiers players)).
Proof.
  split; [intros sc; tier_iff sc|].
  split; [intros sc; tier_iff sc|].
  split; [intros sc; tier_iff sc|].
  split; [intros sc; tier_iff sc|].
  split; [intros sc; tier_iff sc|].
  split.
  - intros a b Hab.
    destruct (tierOf_cases a) as [[? Ea]|[[? Ea]|[[? Ea]|[[? Ea]|[? Ea]]]]];
      destruct (tierOf_cases b) as [[? Eb]|[[? Eb]|[[? Eb]|[[? Eb]|[? Eb]]]]];
      rewrite Ea, Eb; first [vm_compute; lia | exfalso; lra].
  - intros players. unfold assignTiers. rewrite !map_map.
    split; [reflexivity|]. split; [reflexivity|].
    apply List.Forall_forall. intros p Hp.
    apply in_map_iff in Hp. destruct Hp as (q & <- & _).
    exists (tierOf (score q)). split; [reflexivity|].
    destruct (tierOf_cases (score q)) as [[? E]|[[? E]|[[? E]|[[? E]|[? E]]]]];
      rewrite E; simpl; auto 10.
Qed.

Lemma tier_cutoffs_monotone_witness :
  (tierRank (tierOf 0) <= tierRank (tierOf 1))%nat.
Proof.
  apply (proj1 (proj2 (proj2 (proj2 (proj2 (proj2 tier_cutoffs_monotone)))))).
  lra.
Defined.

(** ** The z-score under changes of scale *)

Lemma sumR_map_shift c l :
  sumR (map (fun x => x + c) l) = sumR l + INR (length l) * c.
Proof.
  induction l as [|x l IH]; [simpl; lra|].
  cbn [map sumR foldr length]. fold (sumR (map (fun x => x + c) l)).
  fold (sumR l). rewrite IH, S_INR. lra.
Qed.

Lemma sumR_map_scale k l : sumR (map (fun x => k * x) l) = k * sumR l.
Proof.
  induction l as [|x l IH]; [simpl; lra|].
  cbn [map sumR foldr]. fold (sumR (map (fun x => k * x) l)).
  fold (sumR l). rewrite IH. lra.
Qed.

Lemma sumR_ext (f g : R -> R) l :
  (forall x, f x = g x) -> sumR (map f l) = sumR (map g l).
Proof. intros H. f_equal. apply map_ext. exact H. Qed.

Lemma mean_shift c l : l <> [] -> mean (map (fun x => x + c) l) = mean l + c.
Proof.
  intros Hne. pose proof (INR_length_pos l Hne).
  unfold mean. rewrite sumR_map_shift, length_map. field. lra.
Qed.

Lemma mean_scale k l : mean (map (fun x => k * x) l) = k * mean l.
Proof.
  unfold mean. rewrite sumR_map_scale, length_map. unfold Rdiv. ring.
Qed.

Lemma popVariance_shift c l :
  l <> [] -> popVariance (map (fun x => x + c) l) = popVariance l.
Proof.
  intros Hne. unfold popVariance.
  rewrite mean_shift by assumption. rewrite map_map, length_map.
  f_equal. apply sumR_ext. intros x. ring.
Qed.

Lemma popVariance_scale k l :
  popVariance (map (fun x => k * x) l) = k ^ 2 * popVariance l.
Proof.
  unfold popVariance. rewrite mean_scale, map_map, length_map.
  rewrite (sumR_ext _ (fun x => k ^ 2 * (x - mean l) ^ 2)) by (intros; ring).
  rewrite <- (map_map (fun x => (x - mean l) ^ 2) (fun y => k ^ 2 * y)).
  rewrite sumR_map_scale. unfold Rdiv. ring.
Qed.

Lemma popStdDev_scale k l :
  l <> [] -> popStdDev (map (fun x => k * x) l) = Rabs k * popStdDev l.
Proof.
  intros Hne. unfold popStdDev. rewrite popVariance_scale.
  rewrite sqrt_mult_alt by apply pow2_ge_0.
  f_equal. replace (k ^ 2) with (Rsqr k) by (unfold Rsqr; ring).
  apply sqrt_Rsqr_abs.
Qed.

Lemma map_nonempty {A B} (f : A -> B) l : l <> [] -> map f l <> [].
Proof. destruct l; [congruence | discriminate]. Qed.

Lemma calculateZScore_scale v k l :
  k <> 0 ->
  calculateZScore (k * v) (map (fun x => k * x) l)
  = (k / Rabs k) * calculateZScore v l.
Proof.
  intros Hk. destruct (decide (l = [])) as [->|Hne]; [simpl; lra|].
  assert (Habs : Rabs k <> 0) by now apply Rabs_no_R0.
  rewrite !calculateZScore_unfold by (assumption || now apply map_nonempty).
  rewrite popStdDev_scale, mean_scale by assumption.
  destruct (Reqb (popStdDev l) 0) eqn:E.
  - apply Reqb_true in E. rewrite E, Rmult_0_r.
    rewrite (proj2 (Reqb_true 0 0) eq_refl). lra.
  - apply Reqb_false in E.
    rewrite (proj2 (Reqb_false (Rabs k * popStdDev l) 0)).
    + field. split; assumption.
    + intros H0. apply Rmult_integral in H0. tauto.
Qed.

(** X2.  In exact arithmetic, and for a data set whose members are not all
    equal, the z-score does not depend on the unit the values are measured
    in: adding the same amount to the value and to every member of the data
    set leaves it unchanged, and so does multiplying them by the same
    positive factor; a negative factor flips its sign.  The condition cannot
    be dropped for the code: on equal members the zero test is decided on
    doubles, and three members 0.1 get -1 while their tenfold, three members
    1, get 0. *)
Theorem zscore_scale_invariant :
  (forall v c l a b,
      In a l -> In b l -> a <> b ->
      calculateZScore (v + c) (map (fun x => x + c) l) = calculateZScore v l)
  /\ (forall v k l a b,
         0 < k -> In a l -> In b l -> a <> b ->
         calculateZScore (k * v) (map (fun x => k * x) l) = calculateZScore v l)
  /\ (forall v k l a b,
         k < 0 -> In a l -> In b l -> a <> b ->
         calculateZScore (k * v) (map (fun x => k * x) l) = - calculateZScore v l)
  /\ (Double.calculateZScore Double.tenth
        [Double.tenth; Double.tenth; Double.tenth] = (-1)%float
      /\ Double.calculateZScore (10 * Double.tenth)%float
           (map (fun x => (10 * x)%float)
              [Double.tenth; Double.tenth; Double.tenth]) = 0%float).
Proof.
  split; [|split; [|split]].
  - intros v c l a b Ha Hb Hab.
    assert (Hne : l <> []) by (intros ->; contradiction).
    pose proof (popStdDev_distinct l a b Ha Hb Hab) as Hsd.
    rewrite !calculateZScore_unfold by (assumption || now apply map_nonempty).
    unfold popStdDev in *. rewrite popVariance_shift, mean_shift by assumption.
    rewrite (proj2 (Reqb_false _ _) Hsd). f_equal. ring.
  - intros v k l a b Hk Ha Hb Hab.
    assert (Hne : l <> []) by (intros ->; contradiction).
    pose proof (popStdDev_distinct l a b Ha Hb Hab) as Hsd.
    assert (Hsd' : Rabs k * popStdDev l <> 0).
    { rewrite Rabs_right by lra. intros H0. apply Rmult_integral in H0.
      destruct H0; [lra | contradiction]. }
    rewrite !calculateZScore_unfold by (assumption || now apply map_nonempty).
    rewrite popStdDev_scale, mean_scale by assumption.
    rewrite (proj2 (Reqb_false _ _) Hsd), (proj2 (Reqb_false _ _) Hsd').
    rewrite Rabs_right by lra. field. split; [assumption | lra].
  - intros v k l a b Hk Ha Hb Hab.
    assert (Hne : l <> []) by (intros ->; contradiction).
    pose proof (popStdDev_distinct l a b Ha Hb Hab) as Hsd.
    assert (Hsd' : Rabs k * popStdDev l <> 0).
    { rewrite Rabs_left by lra. intros H0. apply Rmult_integral in H0.
      destruct H0; [lra | contradiction]. }
    rewrite !calculateZScore_unfold by (assumption || now apply map_nonempty).
    rewrite popStdDev_scale, mean_scale by assumption.
    rewrite (proj2 (Reqb_false _ _) Hsd), (proj2 (Reqb_false _ _) Hsd').
    rewrite Rabs_left by lra. field. split; [assumption | lra].
  - split; vm_compute; reflexivity.
Qed.

Lemma zscore_scale_invariant_witness :
  calculateZScore (20 + 3) (map (fun x => x + 3) [10; 15; 20])
  = calculateZScore 20 [10; 15; 20]
  /\ calculateZScore (2 * 20) (map (fun x => 2 * x) [10; 15; 20])
     = calculateZScore 20 [10; 15; 20]
  /\ calculateZScore (-1 * 20) (map (fun x => -1 * x) [10; 15; 20])
     = - calculateZScore 20 [10; 15; 20].
Proof.
  split; [|split].
  - apply (proj1 zscore_scale_invariant 20 3 [10; 15; 20] 10 15);
      simpl; auto; lra.
  - apply (proj1 (proj2 zscore_scale_invariant) 20 2 [10; 15; 20] 10 15);
      simpl; auto; lra.
  - apply (proj1 (proj2 (proj2 zscore_scale_invariant)) 20 (-1) [10; 15; 20] 10 15);
      simpl; auto; lra.
Defined.

(** ** Order and size of z-scores *)

Lemma popStdDev_nonneg l : 0 <= popStdDev l.
Proof. apply sqrt_pos. Qed.

(** X3.  Against a fixed data set a larger value never gets a smaller
    z-score, and when the deviation is not 0 the z-score is positive exactly
    above the mean and 0 exactly at the mean. *)
Theorem zscore_monotone :
  (forall l v1 v2, v1 <= v2 -> calculateZScore v1 l <= calculateZScore v2 l)
  /\ (forall l v,
         l <> [] -> popStdDev l <> 0 ->
         (0 < calculateZScore v l <-> mean l < v)
         /\ (calculateZScore v l = 0 <-> v = mean l)).
Proof.
  split.
  - intros l v1 v2 Hv. destruct (decide (l = [])) as [->|Hne]; [simpl; lra|].
    rewrite !calculateZScore_unfold by assumption.
    destruct (Reqb (popStdDev l) 0) eqn:E; [lra|].
    apply Reqb_false in E. pose proof (popStdDev_nonneg l).
    apply Rmult_le_compat_r; [|lra].
    left. apply Rinv_0_lt_compat. lra.
  - intros l v Hne Hsd. rewrite calculateZScore_unfold by assumption.
    rewrite (proj2 (Reqb_false _ _) Hsd).
    pose proof (popStdDev_nonneg l).
    assert (Hpos : 0 < popStdDev l) by lra.
    assert (Hinv : 0 < / popStdDev l) by now apply Rinv_0_lt_compat.
    unfold Rdiv. split; split; intros H1.
    + apply (Rmult_lt_reg_r (/ popStdDev l)); [assumption|]. lra.
    + apply Rmult_lt_0_compat; lra.
    + apply Rmult_integral in H1. destruct H1; lra.
    + subst. lra.
Qed.

Lemma zscore_monotone_witness :
  calculateZScore 10 [10; 15; 20] <= calculateZScore 20 [10; 15; 20]
  /\ (0 < calculateZScore 20 [10; 15; 20] <-> mean [10; 15; 20] < 20).
Proof.
  split.
  - apply (proj1 zscore_monotone). lra.
  - apply (proj2 zscore_monotone); [discriminate|].
    apply (popStdDev_distinct _ 10 15); simpl; auto; lra.
Defined.

(** X4.  The z-score of a member of the data set is at most the square root
    of the size of the data set in absolute value, so inside a roster of n
    players no z-score leaves [-sqrt n, sqrt n]. *)
Theorem zscore_member_bounded :
  forall v l, In v l -> Rabs (calculateZScore v l) <= sqrt (INR (length l)).
Proof.
  intros v l Hin. pose proof (calculateZScore_sq_le v l Hin) as H.
  rewrite <- sqrt_Rsqr_abs. apply sqrt_le_1_alt.
  unfold Rsqr. lra.
Qed.

Lemma zscore_member_bounded_witness :
  Rabs (calculateZScore 20 [10; 15; 20]) <= sqrt (INR 3).
Proof. apply (zscore_member_bounded 20 [10; 15; 20]). simpl. auto. Defined.

(** ** The estimator on props it does not score *)

Lemma addProp_falsy o w acc : truthy o = false -> addProp o w acc = acc.
Proof. intros H. unfold addProp. now rewrite H. Qed.

(** X5.  A props object that is not empty but holds none of the seven
    scored fields with a non-zero value (only other markets, say rush
    attempts or kicking points) is estimated at 0: the positional fallback
    is used for an empty object only. *)
Theorem unscored_props_estimate_zero :
  forall (prs : Props) rules pos ctx,
    prs <> ∅ ->
    (forall field, In field scoredFields -> truthy (prs !! field) = false) ->
    expectedFantasyPoints prs rules pos ctx = 0
    /\ expectedFantasyPoints prs rules pos ctx
       < expectedFantasyPoints ∅ rules pos ctx.
Proof.
  intros prs rules pos ctx Hne Hf.
  assert (H0 : expectedFantasyPoints prs rules pos ctx = 0).
  { unfold expectedFantasyPoints. rewrite bool_decide_eq_false_2 by assumption.
    rewrite !addProp_falsy by (apply Hf; simpl; auto 10). reflexivity. }
  split; [exact H0|]. rewrite H0, expectedFantasyPoints_empty.
  assert (Hb : 5 <= baselineOf pos).
  { unfold baselineOf. repeat case_decide; lra. }
  destruct ctx as [ctx|]; [|rewrite applyFallback_none; lra].
  destruct (implied_totals ctx) as [its|] eqn:Hit.
  - rewrite (applyFallback_totals pos ctx its) by assumption.
    pose proof (Rmax_l 0 ((homeIT its - 21) / 3)).
    assert (0 <= fallbackScriptBonus pos (toNumber (spread ctx))).
    { unfold fallbackScriptBonus. repeat case_decide; rcases. }
    lra.
  - rewrite applyFallback_no_totals by assumption. lra.
Qed.

Lemma unscored_props_estimate_zero_witness :
  expectedFantasyPoints {[ "kicking_points" := 7.5 ]}
    (mkRules 0.04 4 (-2) 0.1 6 0.1 1 6 (-2) 2) "K" None = 0.
Proof.
  apply (unscored_props_estimate_zero {[ "kicking_points" := 7.5 ]}).
  - apply (truthy_nonempty _ "kicking_points").
    rewrite lookup_singleton_eq. unfold truthy. rcases.
  - intros field Hin. simpl in Hin.
    repeat (destruct Hin as [<-|Hin]; [reflexivity|]). contradiction.
Defined.

(** X6.  For props that are not empty the estimate is linear in the league's
    weights: the estimate under the sum of two rule sets is the sum of the
    estimates, and multiplying every weight by k multiplies the estimate by
    k. *)
Theorem estimate_linear_in_rules :
  forall (prs : Props) pos ctx,
    prs <> ∅ ->
    (forall a b,
        expectedFantasyPoints prs (rulesAdd a b) pos ctx
        = expectedFantasyPoints prs a pos ctx + expectedFantasyPoints prs b pos ctx)
    /\ (forall k a,
           expectedFantasyPoints prs (rulesScale k a) pos ctx
           = k * expectedFantasyPoints prs a pos ctx).
Proof.
  intros prs pos ctx Hne. split; intros.
  - rewrite !expectedFantasyPoints_nonempty by assumption.
    rewrite !tdValueOf_cases. unfold contribution, rulesAdd.
    cbn [passYards passTD passInt rushYards rushTD recYards reception recTD].
    repeat match goal with |- context [prs !! ?k] => destruct (prs !! k) end;
      try case_decide; lra.
  - rewrite !expectedFantasyPoints_nonempty by assumption.
    rewrite !tdValueOf_cases. unfold contribution, rulesScale.
    cbn [passYards passTD passInt rushYards rushTD recYards reception recTD].
    repeat match goal with |- context [prs !! ?k] => destruct (prs !! k) end;
      try case_decide; lra.
Qed.

Lemma estimate_linear_in_rules_witness :
  expectedFantasyPoints {[ "receptions" := 6 ]}
    (rulesScale 2 (mkRules 0.04 4 (-2) 0.1 6 0.1 1 6 (-2) 2)) "WR" None
  = 2 * expectedFantasyPoints {[ "receptions" := 6 ]}
          (mkRules 0.04 4 (-2) 0.1 6 0.1 1 6 (-2) 2) "WR" None.
Proof.
  apply (estimate_linear_in_rules {[ "receptions" := 6 ]}).
  apply (truthy_nonempty _ "receptions").
  rewrite lookup_singleton_eq. unfold truthy. rcases.
Defined.

(** X7.  The fallback estimate is never below the positional baseline and
    never more than max(0, (homeIT - 21) / 3) + 1.5 above it; it is at least
    5 whatever the position. *)
Theorem fallback_between_bounds :
  forall (T : Type) pos ctx (rules : T),
    baselineOf pos <= applyFallback pos ctx rules
    /\ 5 <= applyFallback pos ctx rules
    /\ (forall c its,
           ctx = Some c -> implied_totals c = Some its ->
           applyFallback pos ctx rules
           <= baselineOf pos + Rmax 0 ((homeIT its - 21) / 3) + 1.5).
Proof.
  intros T pos ctx rules.
  assert (Hb : 5 <= baselineOf pos).
  { unfold baselineOf. repeat case_decide; lra. }
  assert (Hs : forall sp, 0 <= fallbackScriptBonus pos sp <= 1.5).
  { intros sp. unfold fallbackScriptBonus. repeat case_decide; rcases. }
  assert (H1 : baselineOf pos <= applyFallback pos ctx rules).
  { destruct ctx as [c|]; [|rewrite applyFallback_none; lra].
    destruct (implied_totals c) as [its|] eqn:Hit.
    - rewrite (applyFallback_totals pos c its) by assumption.
      pose proof (Rmax_l 0 ((homeIT its - 21) / 3)).
      pose proof (Hs (toNumber (spread c))). lra.
    - rewrite applyFallback_no_totals by assumption. lra. }
  split; [exact H1|]. split; [lra|].
  intros c its -> Hit. rewrite (applyFallback_totals pos c its) by assumption.
  pose proof (Hs (toNumber (spread c))). lra.
Qed.

Lemma fallback_between_bounds_witness :
  applyFallback "RB"
    (Some (mkContext "KC" "DEN" (Some (-6)) (Some 44) (Some (mkIT 25 19)))) tt
  <= baselineOf "RB" + Rmax 0 ((25 - 21) / 3) + 1.5.
Proof.
  apply (proj2 (proj2 (fallback_between_bounds unit "RB"
           (Some (mkContext "KC" "DEN" (Some (-6)) (Some 44) (Some (mkIT 25 19)))) tt))
           (mkContext "KC" "DEN" (Some (-6)) (Some 44) (Some (mkIT 25 19)))
           (mkIT 25 19) eq_refl eq_refl).
Defined.

(** ** What the greedy fill guarantees *)

Lemma greedyAssign_full positionCounts pos l : forall seen,
  (needed positionCounts pos <= countPos pos seen)%nat ->
  Forall (fun s : ScoredPlayer => position s <> pos)
    (fst (greedyAssign positionCounts seen l)).
Proof.
  induction l as [|p l IH]; intros seen Hfull; [constructor|].
  cbn [greedyAssign].
  assert (Hnext : (needed positionCounts pos <= countPos pos (seen ++ [p]))%nat).
  { rewrite countPos_app. lia. }
  specialize (IH _ Hnext).
  destruct (Nat.ltb_spec (countPos (position p) seen)
              (needed positionCounts (position p))) as [Hlt|Hge];
    cbn [fst]; [|exact IH].
  constructor; [|exact IH].
  change (position p <> pos). intros Heq. rewrite Heq in Hlt. lia.
Qed.

Lemma greedyAssign_from positionCounts l : forall seen,
  Forall (fun q : ScoredPlayer => exists p s, In p l /\ q = withSlot s p)
    (fst (greedyAssign positionCounts seen l))
  /\ Forall (fun q : ScoredPlayer => exists p s, In p l /\ q = withSlot s p)
       (snd (greedyAssign positionCounts seen l)).
Proof.
  intros seen.
  split; apply List.Forall_forall; intros q Hq;
    apply (greedyAssign_origin positionCounts l seen q);
    apply in_or_app; auto.
Qed.

Lemma greedyAssign_starters_ahead positionCounts l : forall seen,
  StronglySorted scoreGe l ->
  forall s b : ScoredPlayer,
    In s (fst (greedyAssign positionCounts seen l)) ->
    In b (snd (greedyAssign positionCounts seen l)) ->
    position s = position b ->
    score b <= score s.
Proof.
  induction l as [|p l IH]; intros seen Hsorted s b Hs Hb Hpos; [contradiction|].
  apply StronglySorted_inv in Hsorted. destruct Hsorted as [Hsl Hhd].
  cbn [greedyAssign] in Hs, Hb.
  destruct (Nat.ltb_spec (countPos (position p) seen)
              (needed positionCounts (position p))) as [Hlt|Hge];
    cbn [fst snd] in Hs, Hb.
  - destruct Hs as [<-|Hs]; [|now apply (IH (seen ++ [p]) Hsl s b)].
    destruct (greedyAssign_from positionCounts l (seen ++ [p])) as [_ Hfrom].
    rewrite List.Forall_forall in Hfrom.
    destruct (Hfrom b Hb) as (q & sl & Hq & ->).
    rewrite List.Forall_forall in Hhd. exact (Hhd q Hq).
  - destruct Hb as [<-|Hb]; [|now apply (IH (seen ++ [p]) Hsl s b)].
    exfalso.
    assert (Hfull : (needed positionCounts (position p)
                     <= countPos (position p) (seen ++ [p]))%nat).
    { rewrite countPos_app. lia. }
    pose proof (greedyAssign_full positionCounts (position p) l _ Hfull) as Hno.
    rewrite List.Forall_forall in Hno. exact (Hno s Hs Hpos).
Qed.

(** X8.  In the lineup of [fillLineup] no benched player has a higher score
    than a starter of the same position. *)
Theorem fillLineup_starters_outscore_bench :
  forall scoredPlayers positionCounts (s b : ScoredPlayer),
    In s (starters (fillLineup scoredPlayers positionCounts)) ->
    In b (bench (fillLineup scoredPlayers positionCounts)) ->
    position s = position b ->
    score b <= score s.
Proof.
  intros scoredPlayers positionCounts s b Hs Hb Hpos.
  destruct (fillLineup_greedy scoredPlayers positionCounts) as [Es Eb].
  rewrite Es in Hs. rewrite Eb in Hb.
  eapply greedyAssign_starters_ahead; eauto.
  apply sortWith_byScoreDesc_sorted.
Qed.

Lemma fillLineup_starters_outscore_bench_witness :
  let a := sampleScored "a" "QB" "BN" 1 in
  let b := sampleScored "b" "QB" "BN" 2 in
  score (withSlot "BN" a) <= score (withSlot "QB" b).
Proof.
  intros a b. subst a b.
  apply (fillLineup_starters_outscore_bench
           [sampleScored "a" "QB" "BN" 1; sampleScored "b" "QB" "BN" 2;
            sampleScored "c" "RB" "BN" 2]
           {[ "QB" := 1%nat; "FLEX" := 1%nat ]}).
  - rewrite (fillLineup_example : fillLineup _ _ = _). left. reflexivity.
  - rewrite (fillLineup_example : fillLineup _ _ = _). right. left. reflexivity.
  - reflexivity.
Defined.

(** The player with the slot label blanked, to compare players across a
    relabelling. *)
Lemma withSlot_withSlot s t (p : ScoredPlayer) :
  withSlot s (withSlot t p) = withSlot s p.
Proof. reflexivity. Qed.

Lemma greedyAssign_perm positionCounts l : forall seen,
  Permutation
    (map (withSlot "") (fst (greedyAssign positionCounts seen l)
                        ++ snd (greedyAssign positionCounts seen l)))
    (map (withSlot "") l).
Proof.
  induction l as [|p l IH]; intros seen; [reflexivity|].
  cbn [greedyAssign]. specialize (IH (seen ++ [p])).
  destruct (_ <? _)%nat; cbn [fst snd].
  - cbn [app map]. rewrite withSlot_withSlot. now constructor.
  - rewrite map_app in *. cbn [map]. rewrite withSlot_withSlot.
    rewrite <- Permutation_middle. now constructor.
Qed.

Lemma countPos_perm pos l1 l2 :
  Permutation l1 l2 -> countPos pos l1 = countPos pos l2.
Proof.
  unfold countPos. induction 1; simpl;
    repeat match goal with |- context [String.eqb ?a ?b] =>
             destruct (String.eqb a b) end;
    simpl; congruence.
Qed.

(** X9.  [fillLineup] loses and duplicates nobody: apart from the slot
    label, starters and bench together are a rearrangement of the players
    given.  A position gets exactly as many starters as the smaller of the
    number of its players and the number of slots required for it, so a
    position the requirement object does not list gets none. *)
Theorem fillLineup_complete :
  forall scoredPlayers positionCounts,
    let lineup := fillLineup scoredPlayers positionCounts in
    Permutation (map (withSlot "") (starters lineup ++ bench lineup))
                (map (withSlot "") scoredPlayers)
    /\ (forall pos,
           countPos pos (starters lineup)
           = Nat.min (countPos pos scoredPlayers) (needed positionCounts pos))
    /\ (forall pos,
           positionCounts !! pos = None -> countPos pos (starters lineup) = 0%nat).
Proof.
  intros scoredPlayers positionCounts lineup.
  destruct (fillLineup_greedy scoredPlayers positionCounts) as [Es Eb].
  fold lineup in Es, Eb.
  assert (Hcount : forall pos,
             countPos pos (starters lineup)
             = Nat.min (countPos pos scoredPlayers) (needed positionCounts pos)).
  { intros pos. rewrite Es.
    pose proof (greedyAssign_count positionCounts pos
                  (sortWith byScoreDesc scoredPlayers) []) as H.
    cbn [app] in H.
    rewrite (countPos_perm pos _ _ (sortWith_perm byScoreDesc scoredPlayers)) in H.
    change (countPos pos []) with 0%nat in H. lia. }
  split; [|split; [exact Hcount|]].
  - rewrite Es, Eb, greedyAssign_perm.
    apply Permutation_map, sortWith_perm.
  - intros pos Hnone. rewrite Hcount. unfold needed. rewrite Hnone. simpl. lia.
Qed.

Lemma fillLineup_complete_witness :
  countPos "FLEX"
    (starters (fillLineup [sampleScored "a" "RB" "BN" 1]
                 {[ "QB" := 1%nat ]})) = 0%nat.
Proof.
  apply (proj2 (proj2 (fillLineup_complete [sampleScored "a" "RB" "BN" 1]
                         {[ "QB" := 1%nat ]}))).
  reflexivity.
Defined.

(** ** Reasons *)

(** Replace each comparison of the goal by its value where linear
    arithmetic decides it from the hypotheses. *)
Ltac rbool :=
  unfold Rgeb in *;
  repeat match goal with
    | |- context [Rleb ?a ?b] =>
        first [ rewrite (proj2 (Rleb_true a b)) by lra
              | rewrite (proj2 (Rleb_false a b)) by lra ]
    | |- context [Rltb ?a ?b] =>
        first [ rewrite (proj2 (Rltb_true a b)) by lra
              | rewrite (proj2 (Rltb_false a b)) by lra ]
    | |- context [Reqb ?a ?b] =>
        first [ rewrite (proj2 (Reqb_true a b)) by lra
              | rewrite (proj2 (Reqb_false a b)) by lra ]
    end.

Section ReasonFacts.
Variable numStr : R -> string.
Variable toFixed : R -> nat -> string.

Local Abbreviation propsReason' := (propsReason numStr toFixed).
Local Abbreviation impliedTotalReason' := (impliedTotalReason toFixed).
Local Abbreviation ceilingReason' := (ceilingReason toFixed).
Local Abbreviation reasonsBeforeTrim' := (reasonsBeforeTrim numStr toFixed).
Local Abbreviation generateReasons' := (generateReasons numStr toFixed).

Lemma propsReason_shape player :
  atMostOne (propsReason' player)
  /\ Forall (fun s => s <> noPropsNotice /\ s <> runHeavy) (propsReason' player)
  /\ (props player = ∅ -> propsReason' player = []).
Proof.
  unfold propsReason. split; [|split].
  - destruct (negb _); [|now left]. cbn zeta.
    destruct (0 <? _)%nat; [right; eauto | now left].
  - destruct (negb _); [|constructor]. cbn zeta.
    destruct (0 <? _)%nat; constructor; [|constructor].
    split; discriminate.
  - intros ->. reflexivity.
Qed.

Lemma impliedTotalReason_shape player :
  atMostOne (impliedTotalReason' player)
  /\ Forall (fun s => s <> noPropsNotice /\ s <> runHeavy)
       (impliedTotalReason' player).
Proof.
  unfold impliedTotalReason.
  destruct (context player) as [ctx|]; [|split; [now left | constructor]].
  destruct (implied_totals ctx) as [its|]; [|split; [now left | constructor]].
  cbn zeta. destruct (Rgeb _ 24).
  - split; [right; eauto|]. constructor; [split; discriminate | constructor].
  - destruct (Rleb _ 18).
    + split; [right; eauto|]. constructor; [split; discriminate | constructor].
    + split; [now left | constructor].
Qed.

Lemma scriptReason_shape player :
  atMostOne (scriptReason player)
  /\ Forall (fun s => s <> noPropsNotice) (scriptReason player).
Proof.
  unfold scriptReason.
  destruct (context player) as [ctx|]; [|split; [now left | constructor]].
  destruct (truthy (spread ctx)); [|split; [now left | constructor]].
  destruct (calculateScriptLean ctx (team player) 4.5) as [pl rl].
  destruct (String.eqb (position player) "RB") eqn:Erb.
  - apply String.eqb_eq in Erb. rewrite Erb. simpl.
    rewrite andb_false_r. simpl.
    destruct (negb (Reqb rl 0)); simpl.
    + split; [right; eauto|]. constructor; [discriminate | constructor].
    + split; [now left | constructor].
  - rewrite andb_false_r, app_nil_r.
    destruct (_ && _)%bool.
    + split; [right; eauto|]. constructor; [discriminate | constructor].
    + split; [now left | constructor].
Qed.

Lemma ceilingReason_shape player :
  atMostOne (ceilingReason' player)
  /\ Forall (fun s => s <> noPropsNotice /\ s <> runHeavy) (ceilingReason' player)
  /\ (props player = ∅ -> ceilingReason' player = []).
Proof.
  unfold ceilingReason. split; [|split].
  - cbn zeta. destruct (_ && _)%bool; [right; eauto | now left].
  - cbn zeta. destruct (_ && _)%bool; constructor; [|constructor].
    split; discriminate.
  - intros ->. rewrite lookup_empty. reflexivity.
Qed.

Lemma injuryReason_shape player :
  atMostOne (injuryReason player)
  /\ Forall (fun s => s <> noPropsNotice /\ s <> runHeavy) (injuryReason player)
  /\ Forall (fun s => In s ["Injury concern (Questionable)";
                            "Injury concern (Doubtful)"; "OUT for this game"])
       (injuryReason player).
Proof.
  unfold injuryReason.
  destruct (status player) as [[|c r]|];
    [repeat split; (now left) || constructor | |
     repeat split; (now left) || constructor].
  set (s := toUpperCase (String c r)). cbn zeta.
  destruct (String.eqb s "Q") eqn:EQ.
  { apply String.eqb_eq in EQ. rewrite EQ. simpl.
    split; [right; eauto|].
    split; (constructor; [|constructor]); [split; discriminate | simpl; auto]. }
  destruct (String.eqb s "D") eqn:ED.
  { apply String.eqb_eq in ED. rewrite ED. simpl.
    split; [right; eauto|].
    split; (constructor; [|constructor]); [split; discriminate | simpl; auto]. }
  destruct (String.eqb s "O").
  - simpl. split; [right; eauto|].
    split; (constructor; [|constructor]); [split; discriminate | simpl; auto].
  - simpl. split; [now left|]. split; constructor.
Qed.

Lemma missingPropsReason_cases player :
  (props player = ∅ -> missingPropsReason player = [noPropsNotice])
  /\ (props player <> ∅ -> missingPropsReason player = []).
Proof.
  unfold missingPropsReason. split; intros H.
  - now rewrite bool_decide_eq_true_2.
  - now rewrite bool_decide_eq_false_2.
Qed.

Lemma In_take {A} (x : A) n l : In x (take n l) -> In x l.
Proof.
  intros H. rewrite <- (firstn_skipn n l). apply in_or_app. now left.
Qed.

Ltac shapes player :=
  destruct (propsReason_shape player) as (SA & FA & EA);
  destruct (impliedTotalReason_shape player) as (SB & FB);
  destruct (scriptReason_shape player) as (SC & FC);
  destruct (ceilingReason_shape player) as (SD & FD & ED);
  destruct (injuryReason_shape player) as (SE & FE & IE);
  destruct (missingPropsReason_cases player) as (ME & MN).

Ltac split_shape H :=
  let x := fresh "x" in destruct H as [H | [x H]].

(** X10.  A player without props always carries the notice that the
    estimate is a fallback: the four entries that [generateReasons] keeps
    never push it out.  A player with props never carries it. *)
Theorem fallback_notice_iff_no_props :
  forall (player : Estimated) rules,
    In "No props available (using fallback estimate)"
       (generateReasons' player rules)
    <-> props player = ∅.
Proof.
  intros player rules. shapes player.
  unfold generateReasons, reasonsBeforeTrim, byeWeekReason.
  fold noPropsNotice. cbn [app].
  split.
  - intros Hin. apply In_take in Hin.
    destruct (decide (props player = ∅)) as [He|Hne]; [exact He|exfalso].
    rewrite (MN Hne), app_nil_r in Hin.
    rewrite List.Forall_forall in FA, FB, FC, FD, FE.
    repeat (apply in_app_or in Hin; destruct Hin as [Hin|Hin]).
    + first [now apply (FA _ Hin) | destruct (FA _ Hin); congruence].
    + first [now apply (FB _ Hin) | destruct (FB _ Hin); congruence].
    + first [now apply (FC _ Hin) | destruct (FC _ Hin); congruence].
    + first [now apply (FD _ Hin) | destruct (FD _ Hin); congruence].
    + first [now apply (FE _ Hin) | destruct (FE _ Hin); congruence].
  - intros He. rewrite (EA He), (ED He), (ME He). cbn [app].
    split_shape SB; split_shape SC; split_shape SE;
      rewrite SB, SC, SE; simpl; auto 10.
Qed.

(** X11.  [generateReasons] gives at most four reasons, and the only reason
    the cut to four can remove is the injury notice: either nothing is cut,
    or exactly the injury notice (questionable, doubtful or out), which
    happens when props, implied total, script and ceiling each gave a
    reason. *)
Theorem reasons_trim_drops_only_injury :
  forall (player : Estimated) rules,
    (length (generateReasons' player rules) <= 4)%nat
    /\ (generateReasons' player rules = reasonsBeforeTrim' player
        \/ exists x,
             In x ["Injury concern (Questionable)"; "Injury concern (Doubtful)";
                   "OUT for this game"]
             /\ injuryReason player = [x]
             /\ reasonsBeforeTrim' player = generateReasons' player rules ++ [x]).
Proof.
  intros player rules. shapes player.
  unfold generateReasons. split.
  - rewrite length_take. lia.
  - unfold reasonsBeforeTrim, byeWeekReason. cbn [app].
    destruct (decide (props player = ∅)) as [He|Hne].
    + left. rewrite (EA He), (ED He), (ME He). cbn [app].
      split_shape SB; split_shape SC; split_shape SE;
        rewrite SB, SC, SE; reflexivity.
    + rewrite (MN Hne), app_nil_r.
      split_shape SA; split_shape SB; split_shape SC; split_shape SD;
        split_shape SE; rewrite SA, SB, SC, SD, SE; try (left; reflexivity).
      right. exists x3. rewrite SE in IE.
      apply Forall_inv in IE. split; [exact IE|]. split; reflexivity.
Qed.

(** X12.  For a visiting running back the reason and the score disagree on
    the game script.  With a spread and implied totals in the context, the
    reason "Run-heavy game script (favorite)" is given exactly when the home
    spread is at least 4.5, that is when the visitors are favored; the script
    bonus of the composite score is then 0, and it is 0.6 exactly when the
    home spread is at most -4.5, where the reason is not given. *)
Theorem visiting_rb_reason_without_bonus :
  forall (player : Estimated) rules ctx sp,
    context player = Some ctx ->
    position player = "RB" ->
    team player <> home_team ctx ->
    is_Some (implied_totals ctx) ->
    spread ctx = Some sp ->
    (In "Run-heavy game script (favorite)" (generateReasons' player rules)
     <-> 4.5 <= sp)
    /\ (calculateScriptBonus (position player) (context player) = 0.6
        <-> sp <= -4.5)
    /\ (In "Run-heavy game script (favorite)" (generateReasons' player rules) ->
        calculateScriptBonus (position player) (context player) = 0).
Proof.
  intros player rules ctx sp Hctx Hpos Hteam Hit Hsp.
  assert (Hscript : scriptReason player = if Rleb 4.5 sp then [runHeavy] else []).
  { unfold scriptReason, calculateScriptLean. rewrite Hctx, Hsp, Hpos.
    apply String.eqb_neq in Hteam. rewrite Hteam.
    rewrite bool_decide_eq_true_2 by assumption.
    unfold truthy, toNumber.
    destruct (Req_dec_T sp 0); destruct (Rle_dec 4.5 sp);
      destruct (Rle_dec sp (-4.5)); try lra;
      repeat (progress (rbool; simpl)); first [reflexivity | lra]. }
  assert (Hbonus : calculateScriptBonus (position player) (context player)
                   = if Rleb sp (-4.5) then 0.6 else 0).
  { unfold calculateScriptBonus, calculateScriptLean. rewrite Hctx, Hsp, Hpos.
    rewrite String.eqb_refl.
    rewrite bool_decide_eq_true_2 by assumption.
    unfold truthy, toNumber.
    destruct (Req_dec_T sp 0); destruct (Rle_dec 4.5 sp);
      destruct (Rle_dec sp (-4.5)); try lra;
      repeat (progress (rbool; simpl)); first [reflexivity | lra]. }
  assert (Hreason : In runHeavy (generateReasons' player rules) <-> 4.5 <= sp).
  { shapes player.
    unfold generateReasons, reasonsBeforeTrim, byeWeekReason. cbn [app].
    rewrite Hscript. split.
    - intros Hin. apply In_take in Hin.
      destruct (Rleb 4.5 sp) eqn:E; [now apply Rleb_true in E | exfalso].
      cbn [app] in Hin.
      rewrite List.Forall_forall in FA, FB, FD, FE.
      repeat (apply in_app_or in Hin; destruct Hin as [Hin|Hin]).
      + first [now apply (FA _ Hin) | destruct (FA _ Hin); congruence].
      + first [now apply (FB _ Hin) | destruct (FB _ Hin); congruence].
      + first [now apply (FD _ Hin) | destruct (FD _ Hin); congruence].
      + first [now apply (FE _ Hin) | destruct (FE _ Hin); congruence].
      + unfold missingPropsReason in Hin.
        destruct (bool_decide _); simpl in Hin; [|contradiction].
        destruct Hin as [Hin|[]]. discriminate Hin.
    - intros Hge. rewrite (proj2 (Rleb_true _ _) Hge).
      split_shape SA; split_shape SB; rewrite SA, SB; simpl; auto. }
  fold runHeavy. split; [exact Hreason|]. split.
  - rewrite Hbonus. destruct (Rleb sp (-4.5)) eqn:E.
    + apply Rleb_true in E. tauto.
    + apply Rleb_false in E. split; intros; lra.
  - intros Hin. apply Hreason in Hin. rewrite Hbonus.
    rewrite (proj2 (Rleb_false _ _)) by lra. reflexivity.
Qed.
End ReasonFacts.

Lemma visiting_rb_reason_without_bonus_witness :
  let ctx := mkContext "KC" "DEN" (Some 6) (Some 44) (Some (mkIT 19 25)) in
  let player :=
    mkEstimated (mkPlayer "Road Back" "RB" "DEN" None None "RB") ∅ (Some ctx)
      10 0 false in
  In "Run-heavy game script (favorite)"
     (generateReasons (fun _ => "") (fun _ _ => "") player
        (mkRules 0.04 4 (-2) 0.1 6 0.1 1 6 (-2) 2))
  /\ calculateScriptBonus (position player) (context player) = 0.
Proof.
  intros ctx player.
  destruct (visiting_rb_reason_without_bonus (fun _ => "") (fun _ _ => "")
              player (mkRules 0.04 4 (-2) 0.1 6 0.1 1 6 (-2) 2) ctx 6)
    as (H1 & _ & H3).
  - reflexivity.
  - reflexivity.
  - discriminate.
  - eexists. reflexivity.
  - reflexivity.
  - assert (Hin : In "Run-heavy game script (favorite)"
                    (generateReasons (fun _ => "") (fun _ _ => "") player
                       (mkRules 0.04 4 (-2) 0.1 6 0.1 1 6 (-2) 2))).
    { apply H1. lra. }
    split; [exact Hin | exact (H3 Hin)].
Defined.

(** ** The actual lineup *)

Lemma fold_actualStep l : forall st,
  fold_left actualStep l st
  = mkLineup (starters st ++ List.filter (fun p => negb (onBench p)) l)
             (bench st ++ List.filter onBench l).
Proof.
  induction l as [|p l IH]; intros st.
  - simpl. rewrite !app_nil_r. now destruct st.
  - cbn [fold_left List.filter]. rewrite IH. unfold actualStep. fold (onBench p).
    destruct (onBench p); cbn [starters bench negb];
      rewrite <- ?app_assoc; reflexivity.
Qed.

Lemma filter_split_perm {A} (f : A -> bool) l :
  Permutation (List.filter (fun x => negb (f x)) l ++ List.filter f l) l.
Proof.
  induction l as [|x l IH]; [reflexivity|].
  cbn [List.filter]. destruct (f x); cbn [negb].
  - rewrite <- Permutation_middle. now constructor.
  - cbn [app]. now constructor.
Qed.

(** X13.  [fillLineupFromActual] splits the roster by the slot the manager
    chose: the bench is the players in slot BN or IR, the starters are all
    the others, both in roster order and unchanged; nobody is lost or
    doubled. *)
Theorem actual_lineup_split_by_slot :
  forall scoredPlayers,
    let lineup := fillLineupFromActual scoredPlayers in
    starters lineup = List.filter (fun p => negb (onBench p)) scoredPlayers
    /\ bench lineup = List.filter onBench scoredPlayers
    /\ Permutation (starters lineup ++ bench lineup) scoredPlayers
    /\ (length (starters lineup) + length (bench lineup)
        = length scoredPlayers)%nat
    /\ (forall p, In p (starters lineup) -> slot p <> "BN" /\ slot p <> "IR")
    /\ (forall p, In p (bench lineup) -> slot p = "BN" \/ slot p = "IR").
Proof.
  intros scoredPlayers lineup. subst lineup.
  unfold fillLineupFromActual. rewrite fold_actualStep. cbn [starters bench app].
  pose proof (filter_split_perm onBench scoredPlayers) as Hperm.
  split; [reflexivity|]. split; [reflexivity|]. split; [exact Hperm|].
  split; [|split].
  - rewrite <- length_app. now apply Permutation_length.
  - intros p Hp. apply filter_In in Hp. destruct Hp as [_ Hp].
    apply negb_true_iff in Hp. unfold onBench in Hp.
    apply orb_false_iff in Hp. destruct Hp as [H1 H2].
    apply String.eqb_neq in H1, H2. tauto.
  - intros p Hp. apply filter_In in Hp. destruct Hp as [_ Hp].
    unfold onBench in Hp. apply orb_true_iff in Hp.
    destruct Hp as [H|H]; apply String.eqb_eq in H; tauto.
Qed.

Lemma actual_lineup_split_by_slot_witness :
  slot (sampleScored "x" "RB" "IR" 3) = "BN"
  \/ slot (sampleScored "x" "RB" "IR" 3) = "IR".
Proof.
  apply (proj2 (proj2 (proj2 (proj2 (proj2
           (actual_lineup_split_by_slot
              [sampleScored "q" "QB" "QB" 1; sampleScored "x" "RB" "IR" 3])))))).
  simpl. auto.
Defined.

(** ** Flex swaps *)

Lemma insert_byScoreAsc_sorted x l :
  Sorted scoreLe l -> Sorted scoreLe (insertSorted byScoreAsc x l).
Proof.
  induction 1 as [|y l Hs IH Hhd]; simpl.
  - repeat constructor.
  - destruct (Rltb 0 (byScoreAsc x y)) eqn:E.
    + apply Rltb_true in E. unfold byScoreAsc in E.
      constructor; [exact IH|].
      destruct l as [|z l]; simpl.
      * constructor. unfold scoreLe. lra.
      * destruct (Rltb 0 (byScoreAsc x z)).
        -- constructor. now inversion Hhd.
        -- constructor. unfold scoreLe. lra.
    + apply Rltb_false in E. unfold byScoreAsc in E.
      constructor; [now constructor|].
      constructor. unfold scoreLe. lra.
Qed.

Lemma sortWith_byScoreAsc_sorted l :
  StronglySorted scoreLe (sortWith byScoreAsc l).
Proof.
  apply Sorted_StronglySorted.
  - intros a b c. unfold scoreLe. lra.
  - induction l as [|x l IH]; simpl; [constructor|].
    now apply insert_byScoreAsc_sorted.
Qed.

Lemma flat_map_all_nil {A B} (f : A -> list B) l :
  (forall x, In x l -> f x = []) -> flat_map f l = [].
Proof.
  induction l as [|x l IH]; intros H; [reflexivity|].
  simpl. rewrite (H x) by now left. apply IH. intros; apply H. now right.
Qed.

(** The suggestions before [slice(0, 3)]. *)
Lemma tryFlexSwaps_unfold sts bn :
  tryFlexSwaps sts bn =
    take 3
      (flat_map (fun b : ScoredPlayer =>
         flat_map (fun s : ScoredPlayer =>
           if Rltb 1.0 (score b - score s) then [swapOf s b] else [])
           (sortWith byScoreAsc (List.filter flexStarter sts)))
         (sortWith byScoreDesc (List.filter (fun p : ScoredPlayer =>
                                               flexEligible (position p)) bn))).
Proof. reflexivity. Qed.

Lemma In_sorted_filter cmp (f : ScoredPlayer -> bool) l x :
  In x (sortWith cmp (List.filter f l)) <-> In x l /\ f x = true.
Proof.
  rewrite <- filter_In. split; apply Permutation_in.
  - apply sortWith_perm.
  - symmetry. apply sortWith_perm.
Qed.

Lemma swaps_membership sts bn sw :
  In sw
    (flat_map (fun b : ScoredPlayer =>
       flat_map (fun s : ScoredPlayer =>
         if Rltb 1.0 (score b - score s) then [swapOf s b] else [])
         (sortWith byScoreAsc (List.filter flexStarter sts)))
       (sortWith byScoreDesc (List.filter (fun p : ScoredPlayer =>
                                             flexEligible (position p)) bn)))
  <-> exists s b, swapCandidate sts bn s b /\ sw = swapOf s b.
Proof.
  rewrite in_flat_map. split.
  - intros (b & Hb & Hin). apply in_flat_map in Hin.
    destruct Hin as (s & Hs & Hin).
    apply In_sorted_filter in Hb, Hs. destruct Hb as [Hb Hfb], Hs as [Hs Hfs].
    destruct (Rltb 1.0 (score b - score s)) eqn:E; [|contradiction].
    apply Rltb_true in E. destruct Hin as [<-|[]].
    exists s, b. unfold swapCandidate. repeat split; auto. lra.
  - intros (s & b & (Hs & Hb & Hfs & Hfb & Hgt) & ->).
    exists b. split; [apply In_sorted_filter; auto|].
    apply in_flat_map. exists s. split; [apply In_sorted_filter; auto|].
    rewrite (proj2 (Rltb_true _ _)) by lra. now left.
Qed.

(** X14.  [tryFlexSwaps] gives at most three suggestions.  Every suggestion
    takes out a starter who is an RB, WR or TE in the FLEX slot and brings in
    an RB, WR or TE from the bench who scores more than 1.0 higher, and
    reports that difference.  The list is empty exactly when no such pair
    exists. *)
Theorem flex_swaps_sound_complete :
  forall sts bn,
    (length (tryFlexSwaps sts bn) <= 3)%nat
    /\ (forall sw, In sw (tryFlexSwaps sts bn) ->
          exists s b, swapCandidate sts bn s b
                      /\ action sw = "swap" /\ swapOut sw = name s
                      /\ swapIn sw = name b
                      /\ improvement sw = score b - score s)
    /\ (tryFlexSwaps sts bn = [] <-> forall s b, ~ swapCandidate sts bn s b).
Proof.
  intros sts bn. rewrite tryFlexSwaps_unfold.
  set (swaps := flat_map _ _).
  split; [rewrite length_take; lia|]. split.
  - intros sw Hin. apply In_take in Hin. apply swaps_membership in Hin.
    destruct Hin as (s & b & Hc & ->). exists s, b.
    split; [exact Hc|]. repeat split.
  - split.
    + intros Hnil s b Hc.
      assert (Hin : In (swapOf s b) swaps) by (apply swaps_membership; eauto).
      destruct swaps as [|x swaps']; [contradiction | discriminate].
    + intros Hnone. destruct swaps as [|x swaps'] eqn:E; [reflexivity|exfalso].
      assert (Hin : In x swaps) by (rewrite E; now left).
      apply swaps_membership in Hin. destruct Hin as (s & b & Hc & _).
      exact (Hnone s b Hc).
Qed.

Lemma flex_swaps_sound_complete_witness :
  exists s b,
    swapCandidate [sampleScored "x" "RB" "FLEX" 0.1; sampleScored "q" "QB" "QB" 3]
      [sampleScored "y" "WR" "BN" 2; sampleScored "z" "TE" "BN" 0.5] s b
    /\ swapOut (mkSwap "swap" "x" "y" (2 - 0.1)) = name s.
Proof.
  destruct (proj1 (proj2 (flex_swaps_sound_complete
              [sampleScored "x" "RB" "FLEX" 0.1; sampleScored "q" "QB" "QB" 3]
              [sampleScored "y" "WR" "BN" 2; sampleScored "z" "TE" "BN" 0.5]))
              (mkSwap "swap" "x" "y" (2 - 0.1)))
    as (s & b & Hc & _ & Hout & _).
  - rewrite tryFlexSwaps_example. left. reflexivity.
  - exists s, b. split; assumption.
Defined.

Lemma sorted_head_extreme {A} (rel : A -> A -> Prop) x l y :
  StronglySorted rel (x :: l) -> In y l -> rel x y.
Proof.
  intros H Hin. apply StronglySorted_inv in H. destruct H as [_ H].
  rewrite List.Forall_forall in H. now apply H.
Qed.

(** X15.  The first suggestion of [tryFlexSwaps] is the best one: it pairs
    the highest-scoring eligible bench player with the lowest-scoring FLEX
    starter, so no eligible pair improves the score by more. *)
Theorem flex_swaps_first_is_best :
  forall sts bn sw rest,
    tryFlexSwaps sts bn = sw :: rest ->
    forall s b : ScoredPlayer,
      In s sts -> flexStarter s = true ->
      In b bn -> flexEligible (position b) = true ->
      score b - score s <= improvement sw.
Proof.
  intros sts bn sw rest Heq s b Hs Hfs Hb Hfb.
  rewrite tryFlexSwaps_unfold in Heq.
  pose proof (sortWith_byScoreAsc_sorted (List.filter flexStarter sts)) as HS.
  pose proof (sortWith_byScoreDesc_sorted
                (List.filter (fun p : ScoredPlayer => flexEligible (position p)) bn))
    as HB.
  assert (Hs' : In s (sortWith byScoreAsc (List.filter flexStarter sts)))
    by (apply In_sorted_filter; auto).
  assert (Hb' : In b (sortWith byScoreDesc
                        (List.filter (fun p : ScoredPlayer =>
                                        flexEligible (position p)) bn)))
    by (apply In_sorted_filter; auto).
  destruct (sortWith byScoreAsc (List.filter flexStarter sts)) as [|s1 S];
    [contradiction|].
  destruct (sortWith byScoreDesc _) as [|b1 B]; [contradiction|].
  assert (Hs1 : score s1 <= score s).
  { destruct Hs' as [<-|Hin]; [lra|]. exact (sorted_head_extreme _ _ _ _ HS Hin). }
  assert (Hb1 : score b <= score b1).
  { destruct Hb' as [<-|Hin]; [lra|]. exact (sorted_head_extreme _ _ _ _ HB Hin). }
  cbn [flat_map] in Heq.
  destruct (Rltb 1.0 (score b1 - score s1)) eqn:E.
  - cbn [app take] in Heq. injection Heq as <- _. cbn [improvement swapOf]. lra.
  - exfalso. apply Rltb_false in E.
    assert (Hnil : forall (bb : ScoredPlayer), In bb (b1 :: B) ->
              flat_map (fun s0 : ScoredPlayer =>
                if Rltb 1.0 (score bb - score s0) then [swapOf s0 bb] else [])
                (s1 :: S) = []).
    { intros bb Hbb. apply flat_map_all_nil. intros ss Hss.
      assert (score bb <= score b1).
      { destruct Hbb as [<-|Hin]; [lra|].
        exact (sorted_head_extreme _ _ _ _ HB Hin). }
      assert (score s1 <= score ss).
      { destruct Hss as [<-|Hin]; [lra|].
        exact (sorted_head_extreme _ _ _ _ HS Hin). }
      rewrite (proj2 (Rltb_false _ _)) by lra. reflexivity. }
    cbn [app] in Heq.
    rewrite (flat_map_all_nil _ B) in Heq.
    + rewrite app_nil_r in Heq.
      pose proof (Hnil b1 (or_introl eq_refl)) as H1. cbn [flat_map] in H1.
      rewrite (proj2 (Rltb_false _ _) E) in H1. cbn [app] in H1. rewrite H1 in Heq. discriminate.
    + intros bb Hbb. apply (Hnil bb). now right.
Qed.

Lemma flex_swaps_first_is_best_witness :
  score (sampleScored "z" "TE" "BN" 0.5) - score (sampleScored "x" "RB" "FLEX" 0.1)
  <= improvement (mkSwap "swap" "x" "y" (2 - 0.1)).
Proof.
  apply (flex_swaps_first_is_best
           [sampleScored "x" "RB" "FLEX" 0.1; sampleScored "q" "QB" "QB" 3]
           [sampleScored "y" "WR" "BN" 2; sampleScored "z" "TE" "BN" 0.5]
           _ [] tryFlexSwaps_example);
    simpl; auto.
Defined.

(** ** Game lines *)

Lemma truthy_cases o :
  (truthy o = true /\ exists x, o = Some x /\ x <> 0)
  \/ (truthy o = false /\ toNumber o = 0).
Proof.
  destruct o as [x|]; simpl; [|right; auto].
  destruct (Reqb x 0) eqn:E; simpl.
  - right. apply Reqb_true in E. auto.
  - left. apply Reqb_false in E. eauto.
Qed.

(** X16.  [calculateScriptLean] gives each lean as 0 or 1 and, for a positive
    threshold, never both at once; a spread inside the threshold gives no
    lean; and the two sides of a game mirror each other: the pass lean of a
    team that is not the home team is the run lean of the home team, and the
    other way round. *)
Theorem script_lean_mirror :
  forall ctx tm threshold,
    0 < threshold ->
    let lean := calculateScriptLean ctx tm threshold in
    let home := calculateScriptLean ctx (home_team ctx) threshold in
    (fst lean = 0 \/ fst lean = 1)
    /\ (snd lean = 0 \/ snd lean = 1)
    /\ ~ (fst lean = 1 /\ snd lean = 1)
    /\ (Rabs (toNumber (spread ctx)) < threshold -> lean = (0, 0))
    /\ (tm <> home_team ctx -> lean = (snd home, fst home)).
Proof.
  intros ctx tm threshold Hpos lean home. subst lean home.
  unfold calculateScriptLean. rewrite String.eqb_refl.
  destruct (negb (truthy (spread ctx))
            || negb (bool_decide (is_Some (implied_totals ctx))))%bool.
  { cbn [fst snd]. repeat split; auto; intros [_ H]; lra. }
  destruct (String.eqb tm (home_team ctx)) eqn:E.
  - apply String.eqb_eq in E. cbn [fst snd].
    split; [|split; [|split; [|split]]].
    + rcases; auto.
    + rcases; auto.
    + intros [H1 H2]. revert H1 H2. rcases.
    + intros Habs. apply Rabs_def2 in Habs. rcases.
    + intros Hne. contradiction.
  - cbn [fst snd].
    split; [|split; [|split; [|split]]].
    + rcases; auto.
    + rcases; auto.
    + intros [H1 H2]. revert H1 H2. rcases.
    + intros Habs. apply Rabs_def2 in Habs. rcases.
    + intros _. rcases; f_equal; rcases.
Qed.

Lemma script_lean_mirror_witness :
  calculateScriptLean (mkContext "KC" "DEN" (Some (-6)) (Some 44) (Some (mkIT 25 19)))
    "DEN" 4.5
  = (snd (calculateScriptLean
            (mkContext "KC" "DEN" (Some (-6)) (Some 44) (Some (mkIT 25 19)))
            "KC" 4.5),
     fst (calculateScriptLean
            (mkContext "KC" "DEN" (Some (-6)) (Some 44) (Some (mkIT 25 19)))
            "KC" 4.5)).
Proof.
  apply (proj2 (proj2 (proj2 (proj2
           (script_lean_mirror
              (mkContext "KC" "DEN" (Some (-6)) (Some 44) (Some (mkIT 25 19)))
              "DEN" 4.5 ltac:(lra))))));
    discriminate.
Defined.

Lemma getGameContext_spec lines tm :
  match getGameContext lines tm with
  | Some game =>
      exists before after,
        lines = before ++ game :: after
        /\ (home_team game = tm \/ away_team game = tm)
        /\ Forall (fun g => home_team g <> tm /\ away_team g <> tm) before
  | None => Forall (fun g => home_team g <> tm /\ away_team g <> tm) lines
  end.
Proof.
  induction lines as [|g lines IH]; simpl; [constructor|].
  destruct (String.eqb (home_team g) tm) eqn:Eh; simpl.
  - apply String.eqb_eq in Eh. exists [], lines. auto.
  - destruct (String.eqb (away_team g) tm) eqn:Ea.
    + apply String.eqb_eq in Ea. exists [], lines. auto.
    + apply String.eqb_neq in Eh, Ea.
      destruct (getGameContext lines tm) as [game|].
      * destruct IH as (before & after & -> & Hor & Hall).
        exists (g :: before), after. repeat split; auto.
      * constructor; auto.
Qed.

(** X17.  [getGameContext] answers with the first game of the list that has
    the team on either side, and with [null] exactly when no game has it.
    Hence the context the handler stores for a roster player is a game of
    the player's own team, and the opponent that [formatPlayer] reports is
    the other side of that game. *)
Theorem game_context_first_match :
  forall lines tm,
    (forall game, getGameContext lines tm = Some game ->
       exists before after,
         lines = before ++ game :: after
         /\ (home_team game = tm \/ away_team game = tm)
         /\ Forall (fun g => home_team g <> tm /\ away_team g <> tm) before)
    /\ (getGameContext lines tm = None <->
        Forall (fun g => home_team g <> tm /\ away_team g <> tm) lines)
    /\ (forall allProps rules (p : Player),
          team p = tm ->
          match opponent (estimate lines allProps rules p) with
          | Some opp =>
              exists game, In game lines
                /\ ((home_team game = tm /\ opp = away_team game)
                    \/ (away_team game = tm /\ home_team game <> tm
                        /\ opp = home_team game))
          | None => getGameContext lines tm = None
          end).
Proof.
  intros lines tm. pose proof (getGameContext_spec lines tm) as Hspec.
  split; [|split].
  - intros game Heq. now rewrite Heq in Hspec.
  - split.
    + intros Heq. now rewrite Heq in Hspec.
    + intros Hall. destruct (getGameContext lines tm) as [game|]; [|reflexivity].
      destruct Hspec as (before & after & -> & Hor & _).
      rewrite List.Forall_forall in Hall.
      destruct (Hall game) as [H1 H2]; [apply in_elt|]. tauto.
  - intros allProps rules p Hteam. unfold opponent.
    rewrite estimate_context, Hteam.
    destruct (getGameContext lines tm) as [game|] eqn:Heq; [|reflexivity].
    destruct Hspec as (before & after & -> & Hor & _).
    exists game. split; [apply in_elt|].
    assert (Ht : team (estimate (before ++ game :: after) allProps rules p) = tm).
    { change (team (player (estimate (before ++ game :: after) allProps rules p)) = tm).
      now rewrite estimate_player. }
    rewrite Ht.
    destruct (String.eqb tm (home_team game)) eqn:E.
    + apply String.eqb_eq in E. left. auto.
    + apply String.eqb_neq in E. right.
      destruct Hor as [H|H]; [congruence|]. auto.
Qed.

Lemma game_context_first_match_witness :
  exists before after,
    [mkContext "KC" "DEN" None None None; mkContext "SF" "KC" None None None]
    = before ++ mkContext "KC" "DEN" None None None :: after
    /\ (home_team (mkContext "KC" "DEN" None None None) = "KC"
        \/ away_team (mkContext "KC" "DEN" None None None) = "KC")
    /\ Forall (fun g => home_team g <> "KC" /\ away_team g <> "KC") before.
Proof.
  apply (proj1 (game_context_first_match
           [mkContext "KC" "DEN" None None None; mkContext "SF" "KC" None None None]
           "KC")).
  reflexivity.
Defined.

(** X18.  The implied totals that [getWeekLines] attaches to a game exist
    exactly when both the spread and the total are present and non-zero;
    they add up to the total, differ by the spread, and give the favored
    side the larger share.  A pick'em game (spread 0) therefore carries no
    implied totals even when its total is known, and the scorer gives it no
    implied-total bonus, no script lean and the bare fallback baseline. *)
Theorem implied_totals_split :
  forall homeTeam awayTeam spread total,
    let game := gameLine homeTeam awayTeam spread total in
    (is_Some (implied_totals game)
       <-> truthy spread = true /\ truthy total = true)
    /\ (forall its, implied_totals game = Some its ->
          homeIT its + awayIT its = toNumber total
          /\ awayIT its - homeIT its = toNumber spread
          /\ (toNumber spread < 0 <-> awayIT its < homeIT its))
    /\ (truthy spread = false ->
          (forall pos, applyFallback pos (Some game) tt = baselineOf pos)
          /\ calculateITBonus (Some game) = 0
          /\ (forall tm threshold,
                calculateScriptLean game tm threshold = (0, 0))
          /\ (forall pos, calculateScriptBonus pos (Some game) = 0)).
Proof.
  intros homeTeam awayTeam spread total game. subst game.
  unfold gameLine, impliedTotals. cbn [implied_totals].
  split; [|split].
  - destruct (truthy spread), (truthy total); cbn [andb]; split;
      first [ intros [? ?]; discriminate | intros [? H]; discriminate H
            | intros _; auto | idtac ];
      try (intros _; eexists; reflexivity).
  - intros its Hits.
    destruct (truthy spread && truthy total)%bool; [|discriminate].
    injection Hits as <-. cbn [homeIT awayIT]. repeat split; intros; lra.
  - intros Hs. rewrite Hs. cbn [andb].
    split; [|split; [|split]].
    + intros pos. now apply applyFallback_no_totals.
    + reflexivity.
    + intros tm threshold. unfold calculateScriptLean. simpl.
      now rewrite Hs.
    + intros pos. now apply calculateScriptBonus_no_spread.
Qed.

Lemma implied_totals_split_witness :
  homeIT (mkIT (44 / 2 - (-6) / 2) (44 / 2 + (-6) / 2))
  + awayIT (mkIT (44 / 2 - (-6) / 2) (44 / 2 + (-6) / 2)) = toNumber (Some 44).
Proof.
  apply (proj1 (proj2 (implied_totals_split "KC" "DEN" (Some (-6)) (Some 44)))).
  unfold gameLine, impliedTotals. cbn [implied_totals truthy].
  rewrite !(proj2 (Reqb_false _ _)) by lra. reflexivity.
Defined.

Lemma scanQuotes_truthy qs acc : truthy acc = true -> scanQuotes qs acc = acc.
Proof.
  revert acc. induction qs as [|q qs IH]; intros acc H; [reflexivity|].
  unfold scanQuotes in *. cbn [fold_left]. rewrite H. now apply IH.
Qed.

Lemma scanQuotes_cons q qs acc :
  scanQuotes (q :: qs) acc = scanQuotes qs (if truthy acc then acc else q).
Proof. reflexivity. Qed.

Lemma scanQuotes_app qs qs' acc :
  scanQuotes (qs ++ qs') acc = scanQuotes qs' (scanQuotes qs acc).
Proof. unfold scanQuotes. apply fold_left_app. Qed.

Lemma lineStep_fold homeName markets : forall spread total,
  fold_left (lineStep homeName) markets (spread, total)
  = (scanQuotes (quotes "spreads" homeName markets) spread,
     scanQuotes (quotes "totals" "Over" markets) total).
Proof.
  induction markets as [|m markets IH]; intros spread total; [reflexivity|].
  cbn [fold_left quotes flat_map]. unfold lineStep at 2.
  rewrite IH, !scanQuotes_app. f_equal.
  - destruct (String.eqb (key m) "spreads"); cbn [andb]; [|reflexivity].
    destruct (findOutcome homeName (outcomes m)) as [o|].
    + rewrite scanQuotes_cons. cbn [scanQuotes fold_left].
      now destruct (truthy spread).
    + now destruct (truthy spread).
  - destruct (String.eqb (key m) "totals"); cbn [andb]; [|reflexivity].
    destruct (findOutcome "Over" (outcomes m)) as [o|].
    + rewrite scanQuotes_cons. cbn [scanQuotes fold_left].
      now destruct (truthy total).
    + now destruct (truthy total).
Qed.

Lemma last_cons_default {A} (x : A) l d d' :
  List.last (x :: l) d = List.last (x :: l) d'.
Proof.
  revert x. induction l as [|y l IH]; intros x; [reflexivity|].
  change (List.last (y :: l) d = List.last (y :: l) d'). apply IH.
Qed.

Lemma scanQuotes_first qs : forall acc,
  truthy acc = false ->
  match List.find truthy qs with
  | Some q => scanQuotes qs acc = q
  | None => scanQuotes qs acc = List.last qs acc
  end.
Proof.
  induction qs as [|q qs IH]; intros acc Hacc; [reflexivity|].
  rewrite scanQuotes_cons, Hacc. cbn [List.find].
  destruct (truthy q) eqn:Eq.
  - now apply scanQuotes_truthy.
  - specialize (IH q Eq). destruct (List.find truthy qs) as [q'|]; [exact IH|].
    rewrite IH. destruct qs as [|o qs]; [reflexivity|].
    change (List.last (o :: qs) q = List.last (o :: qs) acc).
    apply last_cons_default.
Qed.

(** X19.  The scan of [getWeekLines] over the bookmakers keeps, for the
    spread and for the total alike, the first quote that is present and
    non-zero, in the order bookmakers and markets arrive; a zero or missing
    quote is passed over as soon as a later market has one, and stays only
    when it is the last quote of all.  Markets with another key, and
    markets without the wanted outcome, are ignored. *)
Theorem lines_keep_first_nonzero_quote :
  forall homeName bookmakers,
    let markets := concat bookmakers in
    let best := bestLines homeName bookmakers in
    let spreads := quotes "spreads" homeName markets in
    let totals := quotes "totals" "Over" markets in
    (forall q, List.find truthy spreads = Some q -> fst best = q)
    /\ (List.find truthy spreads = None -> fst best = List.last spreads None)
    /\ (forall q, List.find truthy totals = Some q -> snd best = q)
    /\ (List.find truthy totals = None -> snd best = List.last totals None)
    /\ (is_Some (impliedTotals (fst best) (snd best))
        <-> is_Some (List.find truthy spreads)
            /\ is_Some (List.find truthy totals)).
Proof.
  intros homeName bookmakers markets best spreads totals.
  subst best. unfold bestLines. fold markets. rewrite lineStep_fold.
  fold spreads totals. cbn [fst snd].
  pose proof (scanQuotes_first spreads None eq_refl) as Hs.
  pose proof (scanQuotes_first totals None eq_refl) as Ht.
  assert (Hlast : forall qs : list (option R),
             List.find truthy qs = None -> truthy (List.last qs None) = false).
  { intros qs Hf. induction qs as [|q qs IH]; [reflexivity|].
    cbn [List.find] in Hf. destruct (truthy q) eqn:Eq; [discriminate|].
    destruct qs as [|q' qs]; [exact Eq|]. now apply IH. }
  split; [|split; [|split; [|split]]].
  - intros q Hq. now rewrite Hq in Hs.
  - intros Hq. now rewrite Hq in Hs.
  - intros q Hq. now rewrite Hq in Ht.
  - intros Hq. now rewrite Hq in Ht.
  - unfold impliedTotals.
    destruct (List.find truthy spreads) as [qs|] eqn:Efs;
      destruct (List.find truthy totals) as [qt|] eqn:Eft;
      rewrite Hs, Ht.
    + apply find_some in Efs, Eft. destruct Efs as [_ ->], Eft as [_ ->].
      cbn [andb]. split; [intros _; split; eexists; reflexivity
                         | intros _; eexists; reflexivity].
    + rewrite (Hlast totals Eft), andb_false_r.
      split; [intros [? H]; discriminate H | intros [_ [? H]]; discriminate H].
    + rewrite (Hlast spreads Efs). cbn [andb].
      split; [intros [? H]; discriminate H | intros [[? H] _]; discriminate H].
    + rewrite (Hlast spreads Efs). cbn [andb].
      split; [intros [? H]; discriminate H | intros [[? H] _]; discriminate H].
Qed.

Lemma lines_keep_first_nonzero_quote_witness :
  fst (bestLines "Kansas City Chiefs"
         [[mkMarket "spreads" [mkOutcome "Kansas City Chiefs" (Some 0)]];
          [mkMarket "totals" [mkOutcome "Over" (Some 44)];
           mkMarket "spreads" [mkOutcome "Denver Broncos" (Some 3);
                               mkOutcome "Kansas City Chiefs" (Some (-3))]]])
  = Some (-3).
Proof.
  apply (proj1 (lines_keep_first_nonzero_quote "Kansas City Chiefs"
           [[mkMarket "spreads" [mkOutcome "Kansas City Chiefs" (Some 0)]];
            [mkMarket "totals" [mkOutcome "Over" (Some 44)];
             mkMarket "spreads" [mkOutcome "Denver Broncos" (Some 3);
                                 mkOutcome "Kansas City Chiefs" (Some (-3))]]])).
  cbn [concat app quotes flat_map key outcomes findOutcome List.find
       outcome_name point String.eqb Ascii.eqb Bool.eqb andb].
  cbn [List.find truthy negb].
  rewrite (proj2 (Reqb_true 0 0)) by lra.
  rewrite (proj2 (Reqb_false (-3) 0)) by lra. reflexivity.
Defined.

(** ** Odds to probabilities *)

Lemma americanToProb_neg x :
  x < 0 -> americanToProb x = - x / (- x + 100).
Proof.
  intros H. unfold americanToProb. rewrite (proj2 (Rltb_true _ _)) by lra.
  now rewrite Rabs_left by lra.
Qed.

Lemma americanToProb_nonneg x :
  0 <= x -> americanToProb x = 100 / (x + 100).
Proof.
  intros H. unfold americanToProb. now rewrite (proj2 (Rltb_false _ _)) by lra.
Qed.

Lemma div_bounds a b : 0 < a -> 0 < b -> 0 < a / (a + b) < 1.
Proof.
  intros Ha Hb. split.
  - apply Rdiv_lt_0_compat; lra.
  - apply (Rmult_lt_reg_r (a + b)); [lra|]. field_simplify; lra.
Qed.

Lemma americanToProb_range x : 0 < americanToProb x <= 1.
Proof.
  destruct (Rlt_dec x 0) as [H|H].
  - rewrite americanToProb_neg by lra.
    pose proof (div_bounds (- x) 100). lra.
  - rewrite americanToProb_nonneg by lra.
    destruct (Req_dec_T x 0) as [->|Hx].
    + replace (100 / (0 + 100)) with 1 by field. lra.
    + pose proof (div_bounds 100 x). replace (x + 100) with (100 + x) by lra. lra.
Qed.

Lemma inv_antitone a b : 0 < a -> a <= b -> 100 / b <= 100 / a.
Proof.
  intros Ha Hab. unfold Rdiv. apply Rmult_le_compat_l; [lra|].
  apply Rinv_le_contravar; lra.
Qed.

(** X20.  [americanToProb] always gives a probability in (0, 1].  The two
    sides of a price are complementary, [p(x) + p(-x) = 1]; a favorite
    (odds of -100 or shorter) gets at least one half and an underdog (odds
    of +100 or longer) at most one half; and over the American odds that
    exist (at most -100 or at least +100) a higher price never gives a
    higher probability. *)
Theorem american_odds_probability :
  (forall x, 0 < americanToProb x <= 1)
  /\ (forall x, x <> 0 -> americanToProb x + americanToProb (- x) = 1)
  /\ (forall x, x <= -100 -> 1 / 2 <= americanToProb x)
  /\ (forall x, 100 <= x -> americanToProb x <= 1 / 2)
  /\ (forall x y,
        (x <= -100 \/ 100 <= x) -> (y <= -100 \/ 100 <= y) ->
        x <= y -> americanToProb y <= americanToProb x).
Proof.
  assert (Hfav : forall x, x <= -100 -> 1 / 2 <= americanToProb x).
  { intros x Hx. rewrite americanToProb_neg by lra.
    apply (Rmult_le_reg_r (- x + 100)); [lra|]. field_simplify; lra. }
  assert (Hdog : forall x, 100 <= x -> americanToProb x <= 1 / 2).
  { intros x Hx. rewrite americanToProb_nonneg by lra.
    apply (Rmult_le_reg_r (x + 100)); [lra|]. field_simplify; lra. }
  split; [exact americanToProb_range|].
  split; [|split; [exact Hfav|split; [exact Hdog|]]].
  - intros x Hx. destruct (Rlt_dec x 0) as [H|H].
    + rewrite americanToProb_neg, (americanToProb_nonneg (- x)) by lra. field. lra.
    + rewrite americanToProb_nonneg, (americanToProb_neg (- x)) by lra.
      rewrite Ropp_involutive. field. lra.
  - intros x y [Hx|Hx] [Hy|Hy] Hxy.
    + rewrite !americanToProb_neg by lra.
      replace (- y / (- y + 100)) with (1 - 100 / (- y + 100)) by (field; lra).
      replace (- x / (- x + 100)) with (1 - 100 / (- x + 100)) by (field; lra).
      pose proof (inv_antitone (- y + 100) (- x + 100)). lra.
    + specialize (Hfav x Hx). specialize (Hdog y Hy). lra.
    + lra.
    + rewrite !americanToProb_nonneg by lra.
      apply inv_antitone; lra.
Qed.

Lemma american_odds_probability_witness :
  americanToProb 150 + americanToProb (- 150) = 1.
Proof.
  apply (proj1 (proj2 american_odds_probability)). lra.
Defined.

Lemma Rpower_le_base p e : 0 < p <= 1 -> 1 <= e -> Rpower p e <= p.
Proof.
  intros [Hp Hp1] He.
  rewrite <- (Rpower_1 p Hp) at 2. unfold Rpower.
  assert (Hln : ln p <= 0).
  { rewrite <- ln_1. destruct (Req_dec_T p 1) as [->|Hne]; [lra|].
    left. apply ln_increasing; lra. }
  destruct (Rle_lt_or_eq_dec _ _ (ltac:(nra) : e * ln p <= 1 * ln p)) as [H|H].
  - left. now apply exp_increasing.
  - rewrite H. lra.
Qed.

(** X21.  The 2+ touchdown estimate that [getPlayerProps] stores beside the
    anytime-touchdown probability is a positive number, at most 0.6 times
    that probability (so never above 0.6), and it grows with the
    probability; this holds for whatever price the bookmaker quotes. *)
Theorem two_plus_td_estimate_bounded :
  (forall price,
      0 < twoPlusTDProb (americanToProb price)
        <= 0.6 * americanToProb price
      /\ twoPlusTDProb (americanToProb price) <= 0.6)
  /\ (forall p q, 0 < p -> p <= q -> twoPlusTDProb p <= twoPlusTDProb q).
Proof.
  split.
  - intros price. pose proof (americanToProb_range price) as Hr.
    pose proof (Rpower_le_base (americanToProb price) 1.8 Hr ltac:(lra)) as Hle.
    unfold twoPlusTDProb.
    assert (0 < Rpower (americanToProb price) 1.8) by (unfold Rpower; apply exp_pos).
    lra.
  - intros p q Hp Hpq. unfold twoPlusTDProb.
    assert (Rpower p 1.8 <= Rpower q 1.8).
    { apply Rle_Rpower_l; lra. }
    lra.
Qed.

Lemma two_plus_td_estimate_bounded_witness :
  twoPlusTDProb (1 / 4) <= twoPlusTDProb (1 / 2).
Proof.
  apply (proj2 two_plus_td_estimate_bounded); lra.
Defined.

(** ** League settings *)

Lemma proj_if {A B} (f : A -> B) (b : bool) x y :
  f (if b then x else y) = if b then f x else f y.
Proof. now destruct b. Qed.

Lemma if_same {A} (b : bool) (x : A) : (if b then x else x) = x.
Proof. now destruct b. Qed.

Ltac stat_field :=
  intros r [st|]; [|reflexivity];
  unfold Yahoo.applyStat, Yahoo.isStat;
  destruct (Yahoo.stat_id st) as [k|]; [|reflexivity];
  cbv zeta;
  repeat match goal with
    | |- context [(k =? ?n)%Z] =>
        destruct (Z.eqb_spec k n);
        [subst k; cbn [Z.eqb Pos.eqb]; reflexivity|]
    end;
  reflexivity.

Section StatFold.

Variable f : ScoringRules -> R.
Variable n : Z.
Variable g : R -> R.

Hypothesis step : forall r stat,
  f (Yahoo.applyStat r stat)
  = match stat with
    | Some statInfo =>
        if Yahoo.isStat (Yahoo.stat_id statInfo) n
        then g (orElse (Yahoo.value statInfo) 0) else f r
    | None => f r
    end.

Lemma fold_field stats r0 :
  f (fold_left Yahoo.applyStat stats r0)
  = match lastValue n stats with
    | Some v => g v
    | None => f r0
    end.
Proof.
  induction stats as [|stat stats IH] using rev_ind; [reflexivity|].
  unfold lastValue in *. rewrite !fold_left_app. cbn [fold_left].
  rewrite step. destruct stat as [st|]; [|exact IH].
  destruct (Yahoo.isStat (Yahoo.stat_id st) n); [reflexivity|exact IH].
Qed.

End StatFold.

(** X22.  The scoring rules of [getLeagueSettings] start from the defaults
    and, for each weight, take the value of the last stat category with its
    Yahoo id (5, 4, 19, 9, 10, 12, 11, 13, 18, 16), divided by 25 for passing
    yards and by 10 for rushing and receiving yards; a listed stat without a
    value sets the weight to 0, and categories with other ids or without a
    numeric id change nothing. *)
Theorem league_rules_last_stat_wins :
  forall s,
    let rules := fst (Yahoo.getLeagueSettings (Some s)) in
    let last n := lastValue n (Yahoo.stat_categories s) in
    passYards rules = match last 5%Z with Some v => v / 25 | None => 0.04 end
    /\ passTD rules = default 4 (last 4%Z)
    /\ passInt rules = default (-2) (last 19%Z)
    /\ rushYards rules = match last 9%Z with Some v => v / 10 | None => 0.1 end
    /\ rushTD rules = default 6 (last 10%Z)
    /\ recYards rules = match last 12%Z with Some v => v / 10 | None => 0.1 end
    /\ reception rules = default 0 (last 11%Z)
    /\ recTD rules = default 6 (last 13%Z)
    /\ fumble rules = default (-2) (last 18%Z)
    /\ twoPtConversion rules = default 2 (last 16%Z).
Proof.
  intros s rules last. subst rules last. cbn [Yahoo.getLeagueSettings fst].
  repeat split.
  - now rewrite (fold_field passYards 5%Z (fun v => v / 25)) by stat_field.
  - rewrite (fold_field passTD 4%Z (fun v => v)) by stat_field.
    now destruct (lastValue _ _).
  - rewrite (fold_field passInt 19%Z (fun v => v)) by stat_field.
    now destruct (lastValue _ _).
  - now rewrite (fold_field rushYards 9%Z (fun v => v / 10)) by stat_field.
  - rewrite (fold_field rushTD 10%Z (fun v => v)) by stat_field.
    now destruct (lastValue _ _).
  - now rewrite (fold_field recYards 12%Z (fun v => v / 10)) by stat_field.
  - rewrite (fold_field reception 11%Z (fun v => v)) by stat_field.
    now destruct (lastValue _ _).
  - rewrite (fold_field recTD 13%Z (fun v => v)) by stat_field.
    now destruct (lastValue _ _).
  - rewrite (fold_field fumble 18%Z (fun v => v)) by stat_field.
    now destruct (lastValue _ _).
  - rewrite (fold_field twoPtConversion 16%Z (fun v => v)) by stat_field.
    now destruct (lastValue _ _).
Qed.

Lemma addPosition_fold_default pos l : forall m,
  default 0%nat (fold_left Yahoo.addPosition l m !! pos)
  = (default 0 (m !! pos) + slotTotal pos l)%nat.
Proof.
  induction l as [|rp l IH]; intros m; [simpl; lia|].
  cbn [fold_left slotTotal fold_right]. rewrite IH. fold (slotTotal pos l).
  unfold Yahoo.addPosition.
  destruct (String.eqb_spec (Yahoo.position rp) pos) as [->|Hne].
  - rewrite lookup_insert_eq. simpl. lia.
  - now rewrite lookup_insert_ne.
Qed.

Lemma addPosition_fold_listed pos l : forall m,
  is_Some (fold_left Yahoo.addPosition l m !! pos)
  <-> is_Some (m !! pos) \/ listsPosition pos l = true.
Proof.
  induction l as [|rp l IH]; intros m.
  - simpl. split; [auto|]. intros [H|H]; [exact H|discriminate].
  - cbn [fold_left listsPosition existsb]. rewrite IH. fold (listsPosition pos l).
    unfold Yahoo.addPosition.
    destruct (String.eqb_spec (Yahoo.position rp) pos) as [->|Hne].
    + rewrite lookup_insert_eq. cbn [orb]. split; eauto.
    + rewrite lookup_insert_ne by exact Hne. cbn [orb]. reflexivity.
Qed.

Lemma fillLineup_starters_count players positionCounts pos :
  countPos pos (starters (fillLineup players positionCounts))
  = Nat.min (countPos pos players) (needed positionCounts pos).
Proof.
  destruct (fillLineup_greedy players positionCounts) as [-> _].
  pose proof (greedyAssign_count positionCounts pos
                (sortWith byScoreDesc players) []) as H.
  cbn [app] in H. change (countPos pos []) with 0%nat in H.
  rewrite Nat.min_0_l, Nat.add_0_r in H. rewrite H.
  f_equal. apply countPos_perm. apply sortWith_perm.
Qed.

(** X23.  The position counts of [getLeagueSettings] list exactly the
    positions that occur among the league's roster positions, each with the
    sum of the counts of its entries (an unreadable count adding 0); with
    these counts [fillLineup] starts, at every position, as many players as
    the roster has there, up to that sum.  When the response carries
    settings without roster positions the counts are empty and everybody is
    benched, whereas a response without settings gives the default counts. *)
Theorem roster_positions_add_up :
  forall s pos,
    let positionCounts := snd (Yahoo.getLeagueSettings (Some s)) in
    (is_Some (positionCounts !! pos)
       <-> listsPosition pos (Yahoo.roster_positions s) = true)
    /\ needed positionCounts pos = slotTotal pos (Yahoo.roster_positions s)
    /\ (forall players,
          countPos pos (starters (fillLineup players positionCounts))
          = Nat.min (countPos pos players)
                    (slotTotal pos (Yahoo.roster_positions s)))
    /\ (Yahoo.roster_positions s = [] ->
        forall players, starters (fillLineup players positionCounts) = [])
    /\ needed (snd (Yahoo.getLeagueSettings None)) "RB" = 2%nat.
Proof.
  intros s pos positionCounts. subst positionCounts.
  cbn [Yahoo.getLeagueSettings snd].
  assert (Hneeded : forall p,
             needed (fold_left Yahoo.addPosition (Yahoo.roster_positions s) ∅) p
             = slotTotal p (Yahoo.roster_positions s)).
  { intros p. unfold needed. rewrite addPosition_fold_default.
    now rewrite lookup_empty. }
  split; [|split; [|split; [|split]]].
  - rewrite addPosition_fold_listed, lookup_empty.
    split; [intros [[? H]|H]; [discriminate H|exact H] | auto].
  - apply Hneeded.
  - intros players. now rewrite fillLineup_starters_count, Hneeded.
  - intros Hnil players. rewrite Hnil. cbn [fold_left].
    destruct (starters (fillLineup players ∅)) as [|q qs] eqn:E; [reflexivity|].
    exfalso.
    pose proof (fillLineup_starters_count players ∅ (position q)) as H.
    rewrite E in H. unfold needed in H. rewrite lookup_empty in H.
    cbn [default] in H. rewrite Nat.min_0_r in H.
    unfold countPos in H. cbn [List.filter] in H.
    rewrite String.eqb_refl in H. discriminate H.
  - reflexivity.
Qed.

Lemma roster_positions_add_up_witness :
  starters (fillLineup [sampleScored "a" "RB" "RB" 3]
              (snd (Yahoo.getLeagueSettings (Some (Yahoo.mkSettings [] []))))) = [].
Proof.
  apply (proj1 (proj2 (proj2 (proj2
           (roster_positions_add_up (Yahoo.mkSettings [] []) "RB"))))).
  reflexivity.
Defined.

(** ** The handler's pipeline *)

Lemma fillLineup_perm players positionCounts :
  Permutation
    (map (withSlot "") (starters (fillLineup players positionCounts)
                        ++ bench (fillLineup players positionCounts)))
    (map (withSlot "") players).
Proof.
  destruct (fillLineup_greedy players positionCounts) as [-> ->].
  rewrite greedyAssign_perm. apply Permutation_map, sortWith_perm.
Qed.

Lemma scoreOne_estimated rules ests e : estimated (scoreOne rules ests e) = e.
Proof. unfold scoreOne. now destruct (is_bye_week e). Qed.

Lemma lineup_member lines allProps rules positionCounts roster (q : ScoredPlayer) :
  In q (starters (fillLineup (tieredPlayers lines allProps rules roster) positionCounts)
        ++ bench (fillLineup (tieredPlayers lines allProps rules roster) positionCounts)) ->
  exists (p : Player) sl t,
    In p roster
    /\ q = withSlot sl
             (withTier t
                (scoreOne rules (map (estimate lines allProps rules) roster)
                   (estimate lines allProps rules p))).
Proof.
  intros Hq.
  destruct (fillLineup_greedy (tieredPlayers lines allProps rules roster)
              positionCounts) as [Es Eb].
  rewrite Es, Eb in Hq.
  apply greedyAssign_origin in Hq. destruct Hq as (tp & sl & Htp & ->).
  apply (Permutation_in _ (sortWith_perm _ _)) in Htp.
  apply tieredPlayers_In in Htp. destruct Htp as (p & Hp & ->).
  exists p, sl. eexists. split; [exact Hp | reflexivity].
Qed.

(** X24.  The handler's pipeline loses and duplicates nobody.  The scored
    list has one entry per roster player, in roster order, with name,
    position, team, status and bye week unchanged; the starters and the
    bench it answers with are together a rearrangement of the roster. *)
Theorem handler_keeps_roster :
  forall lines allProps rules positionCounts roster,
    let lineup := fst (runScoring lines allProps rules positionCounts roster) in
    map (fun q : ScoredPlayer => identityOf q)
        (tieredPlayers lines allProps rules roster)
      = map identityOf roster
    /\ Permutation
         (map (fun q : ScoredPlayer => identityOf q)
              (starters lineup ++ bench lineup))
         (map identityOf roster)
    /\ (length (starters lineup) + length (bench lineup) = length roster)%nat.
Proof.
  intros lines allProps rules positionCounts roster lineup. subst lineup.
  cbn [runScoring fst].
  assert (Hid : map (fun q : ScoredPlayer => identityOf q)
                  (tieredPlayers lines allProps rules roster)
                = map identityOf roster).
  { unfold tieredPlayers, assignTiers. rewrite !map_map.
    apply map_ext. intros p. cbn [withTier estimated].
    now rewrite scoreOne_estimated, estimate_player. }
  pose proof (fillLineup_perm (tieredPlayers lines allProps rules roster)
                positionCounts) as Hperm.
  apply (Permutation_map (fun q : ScoredPlayer => identityOf q)) in Hperm.
  rewrite !map_map in Hperm. cbn [withSlot] in Hperm.
  split; [exact Hid|]. split.
  - rewrite <- Hid. exact Hperm.
  - apply Permutation_length in Hperm. rewrite !length_map in Hperm.
    rewrite <- length_app, Hperm.
    unfold tieredPlayers, assignTiers. now rewrite !length_map.
Qed.

Lemma calculateZScore_mono l v1 v2 :
  v1 <= v2 -> calculateZScore v1 l <= calculateZScore v2 l.
Proof.
  intros Hv. destruct (decide (l = [])) as [->|Hne]; [simpl; lra|].
  rewrite !calculateZScore_unfold by assumption.
  destruct (Reqb (popStdDev l) 0) eqn:E; [lra|].
  apply Reqb_false in E. pose proof (popStdDev_nonneg l).
  apply Rmult_le_compat_r; [|lra].
  left. apply Rinv_0_lt_compat. lra.
Qed.

Lemma calculateZScore_strict l v1 v2 :
  In v1 l -> In v2 l -> v1 < v2 ->
  calculateZScore v1 l < calculateZScore v2 l.
Proof.
  intros H1 H2 Hlt.
  assert (Hne : l <> []) by (intros ->; contradiction).
  assert (Hsd : popStdDev l <> 0)
    by (apply (popStdDev_distinct l v1 v2); auto; lra).
  rewrite !calculateZScore_unfold by assumption.
  rewrite (proj2 (Reqb_false _ _) Hsd).
  pose proof (popStdDev_nonneg l).
  apply Rmult_lt_compat_r; [apply Rinv_0_lt_compat; lra | lra].
Qed.

(** X25.  Players who share position and injury status and are judged in
    the same game context are scored in the order of their EFP; and in the
    lineup the handler answers with, among teammates of the same position
    and status a benched player never has a higher EFP than a starter. *)
Theorem teammates_ordered_by_efp :
  (forall ctx (p1 p2 : Player) rules allPlayers e1 e2,
      position p1 = position p2 -> status p1 = status p2 -> e1 <= e2 ->
      calculateSitStartScore e1 ctx p1 rules allPlayers
      <= calculateSitStartScore e2 ctx p2 rules allPlayers)
  /\ (forall lines allProps rules positionCounts roster (s b : ScoredPlayer),
        let lineup := fst (runScoring lines allProps rules positionCounts roster) in
        In s (starters lineup) -> In b (bench lineup) ->
        position s = position b -> team s = team b -> status s = status b ->
        efp b <= efp s).
Proof.
  split.
  - intros ctx p1 p2 rules allPlayers e1 e2 Hpos Hst He.
    unfold calculateSitStartScore. destruct ctx as [ctx|]; [|lra].
    rewrite Hpos, Hst.
    pose proof (calculateZScore_mono
                  (map efp (List.filter (fun q : Estimated =>
                     String.eqb (position q) (position p2)) allPlayers))
                  e1 e2 He).
    lra.
  - intros lines allProps rules positionCounts roster s b lineup.
    subst lineup. cbn [runScoring fst].
    intros Hs Hb Hpos Hteam Hstatus.
    assert (Hscore : score b <= score s).
    { destruct (fillLineup_greedy (tieredPlayers lines allProps rules roster)
                  positionCounts) as [Es Eb].
      rewrite Es in Hs. rewrite Eb in Hb.
      eapply greedyAssign_starters_ahead; eauto.
      apply sortWith_byScoreDesc_sorted. }
    destruct (lineup_member lines allProps rules positionCounts roster s)
      as (p1 & sl1 & t1 & Hp1 & Es); [apply in_or_app; auto|].
    destruct (lineup_member lines allProps rules positionCounts roster b)
      as (p2 & sl2 & t2 & Hp2 & Eb); [apply in_or_app; auto|].
    set (ests := map (estimate lines allProps rules) roster) in *.
    set (est1 := estimate lines allProps rules p1) in *.
    set (est2 := estimate lines allProps rules p2) in *.
    assert (Hf1 : position s = position p1 /\ team s = team p1
                  /\ status s = status p1 /\ efp s = efp est1
                  /\ score s = score (scoreOne rules ests est1)).
    { rewrite Es. cbn [withSlot withTier estimated player position team status
                       efp score].
      rewrite scoreOne_estimated. subst est1. rewrite estimate_player. auto. }
    assert (Hf2 : position b = position p2 /\ team b = team p2
                  /\ status b = status p2 /\ efp b = efp est2
                  /\ score b = score (scoreOne rules ests est2)).
    { rewrite Eb. cbn [withSlot withTier estimated player position team status
                       efp score].
      rewrite scoreOne_estimated. subst est2. rewrite estimate_player. auto. }
    destruct Hf1 as (Hps & Hts & Hss & Hes & Hscs).
    destruct Hf2 as (Hpb & Htb & Hsb & Heb & Hscb).
    rewrite Hes, Heb.
    assert (Hp : position p1 = position p2) by congruence.
    assert (Ht : team p1 = team p2) by congruence.
    assert (Hst : status p1 = status p2) by congruence.
    destruct (getGameContext lines (team p1)) as [g|] eqn:Hctx.
    + destruct (Rle_or_lt (efp est2) (efp est1)) as [Hle|Hlt]; [exact Hle|].
      exfalso.
      assert (Hc1 : context est1 = Some g)
        by (subst est1; now rewrite estimate_context).
      assert (Hc2 : context est2 = Some g)
        by (subst est2; rewrite estimate_context; congruence).
      assert (Hb1 : is_bye_week est1 = false)
        by (subst est1; rewrite estimate_is_bye, Hctx; reflexivity).
      assert (Hb2 : is_bye_week est2 = false)
        by (subst est2; rewrite estimate_is_bye, <- Ht, Hctx; reflexivity).
      assert (Hpl1 : player est1 = p1) by (subst est1; apply estimate_player).
      assert (Hpl2 : player est2 = p2) by (subst est2; apply estimate_player).
      assert (Hin : forall (p : Player) e,
                 In p roster -> e = estimate lines allProps rules p ->
                 is_bye_week e = false -> position p = position p2 ->
                 In (efp e)
                    (map efp (List.filter (fun q : Estimated =>
                       String.eqb (position q) (position p2)) (nonBye ests)))).
      { intros p e Hpin -> Hbye Hpp. apply in_map. apply filter_In. split.
        - unfold nonBye. apply filter_In. split.
          + subst ests. now apply in_map.
          + now rewrite Hbye.
        - rewrite estimate_player. rewrite Hpp. apply String.eqb_refl. }
      pose proof (calculateZScore_strict _ _ _
                    (Hin p1 est1 Hp1 eq_refl Hb1 Hp)
                    (Hin p2 est2 Hp2 eq_refl Hb2 eq_refl) Hlt) as Hz.
      revert Hscore. rewrite Hscs, Hscb. unfold scoreOne.
      rewrite Hb1, Hb2. cbn [score]. rewrite Hc1, Hc2.
      unfold calculateSitStartScore. rewrite Hpl1, Hpl2, Hp, Hst. lra.
    + assert (E1 : efp est1 = 0)
        by (subst est1; now rewrite (estimate_bye _ _ _ _ Hctx)).
      assert (E2 : efp est2 = 0).
      { subst est2. rewrite Ht in Hctx. now rewrite (estimate_bye _ _ _ _ Hctx). }
      lra.
Qed.

Lemma teammates_ordered_by_efp_witness :
  let ctx := mkContext "KC" "DEN" (Some (-6)) (Some 44) (Some (mkIT 25 19)) in
  let p1 := mkPlayer "a" "RB" "KC" None None "RB" in
  let p2 := mkPlayer "b" "RB" "KC" None None "BN" in
  let rules := mkRules 0.04 4 (-2) 0.1 6 0.1 1 6 (-2) 2 in
  let cohort := [mkEstimated p1 ∅ (Some ctx) 3 0 false;
                 mkEstimated p2 ∅ (Some ctx) 4 0 false] in
  calculateSitStartScore 3 (Some ctx) p1 rules cohort
  <= calculateSitStartScore 4 (Some ctx) p2 rules cohort.
Proof.
  intros ctx p1 p2 rules cohort.
  apply (proj1 teammates_ordered_by_efp (Some ctx) p1 p2 rules cohort 3 4);
    [reflexivity | reflexivity | lra].
Defined.

(** ** Tokens and cache *)

(** X26.  A cached value is served exactly until it is older than the
    time to live: written at [t0] and read at [t1], it comes back when
    [t1 - t0] is at most the TTL and is treated as absent afterwards; writes
    for other weeks do not touch it.  The TTL is 3 600 000 ms when the
    variable is unset and also when it is set to 0, so a TTL of 0 does not
    switch the cache off, whereas a negative one does. *)
Theorem cache_served_until_ttl :
  forall (D : Type) configured (cacheStore : gmap Z (Blobs.CacheEntry D))
         week (value : D) t0 t1,
    let ttl := Blobs.CACHE_TTL_MS configured in
    let written := Blobs.setCached D t0 week value cacheStore in
    ((t1 - t0 <= ttl)%Z -> Blobs.getCached D ttl t1 written week = Some value)
    /\ ((ttl < t1 - t0)%Z -> Blobs.getCached D ttl t1 written week = None)
    /\ (forall other, other <> week ->
          Blobs.getCached D ttl t1 written other
          = Blobs.getCached D ttl t1 cacheStore other)
    /\ (configured = None \/ configured = Some 0%Z -> ttl = 3600000%Z)
    /\ (forall n, configured = Some n -> (n < 0)%Z -> (t0 <= t1)%Z ->
          Blobs.getCached D ttl t1 written week = None).
Proof.
  intros D configured cacheStore week value t0 t1 ttl written.
  assert (Hget : Blobs.getCached D ttl t1 written week
                 = if (t1 - t0 >? ttl)%Z then None else Some value).
  { unfold Blobs.getCached, written, Blobs.setCached.
    now rewrite lookup_insert_eq. }
  split; [|split; [|split; [|split]]].
  - intros H. rewrite Hget. destruct (Z.gtb_spec (t1 - t0) ttl); [lia|reflexivity].
  - intros H. rewrite Hget. destruct (Z.gtb_spec (t1 - t0) ttl); [reflexivity|lia].
  - intros other Hne. unfold Blobs.getCached, written, Blobs.setCached.
    now rewrite lookup_insert_ne by congruence.
  - intros [->| ->]; reflexivity.
  - intros n -> Hn Ht. rewrite Hget.
    assert (ttl < 0)%Z.
    { subst ttl. unfold Blobs.CACHE_TTL_MS.
      destruct (Z.eqb_spec n 0); lia. }
    destruct (Z.gtb_spec (t1 - t0) ttl); [reflexivity|lia].
Qed.

Lemma cache_served_until_ttl_witness :
  Blobs.getCached (list GameContext) (Blobs.CACHE_TTL_MS (Some 0%Z)) 61000
    (Blobs.setCached (list GameContext) 1000 9 [] ∅) 9
  = Some [].
Proof.
  apply (proj1 (cache_served_until_ttl (list GameContext) (Some 0%Z) ∅ 9 []
                  1000 61000)).
  vm_compute. discriminate.
Defined.

(** X27.  [ensureAuth] hands out the stored access token without a refresh
    exactly while more than five minutes remain before its expiry;
    otherwise it answers with the refreshed token, or with nothing when the
    refresh fails, and it never answers from an empty store.  A refreshed
    token is stored with an expiry two minutes short of its lifetime, so
    the next call reuses it only while less than [expires_in] seconds minus
    seven minutes have passed since the refresh: a token that lives seven
    minutes or less is refreshed again on every call. *)
Theorem token_reuse_window :
  forall now refreshNow response saved,
    (Blobs.ensureAuth now refreshNow response saved None = (None, None))
    /\ (forall tokens,
          (now + 300000 < Blobs.expires_at tokens)%Z ->
          Blobs.ensureAuth now refreshNow response saved (Some tokens)
          = (Some (Blobs.access_token tokens), Some tokens))
    /\ (forall tokens,
          (Blobs.expires_at tokens <= now + 300000)%Z ->
          Blobs.ensureAuth now refreshNow response saved (Some tokens)
          = match response with
            | Some tokenData =>
                let newTokens :=
                  Blobs.mkTokens (Blobs.new_access_token tokenData)
                    (Blobs.new_refresh_token tokenData)
                    (refreshNow + Blobs.expires_in tokenData * 1000 - 120000) in
                (Some (Blobs.new_access_token tokenData),
                 Some (if saved then newTokens else tokens))
            | None => (None, Some tokens)
            end)
    /\ (forall tokens tokenData later response' saved',
          (Blobs.expires_at tokens <= now + 300000)%Z ->
          response = Some tokenData -> saved = true ->
          let store :=
            snd (Blobs.ensureAuth now refreshNow response saved (Some tokens)) in
          ((later - refreshNow < Blobs.expires_in tokenData * 1000 - 420000)%Z ->
             Blobs.ensureAuth later later response' saved' store
             = (Some (Blobs.new_access_token tokenData), store))
          /\ ((Blobs.expires_in tokenData <= 420)%Z -> (refreshNow <= later)%Z ->
              response' = None ->
              fst (Blobs.ensureAuth later later response' saved' store) = None)).
Proof.
  intros now refreshNow response saved.
  split; [reflexivity|]. split; [|split].
  - intros tokens H. unfold Blobs.ensureAuth, Blobs.TOKEN_REFRESH_BUFFER_MS.
    destruct (Z.geb_spec (now + 5 * 60 * 1000) (Blobs.expires_at tokens));
      [lia|reflexivity].
  - intros tokens H. unfold Blobs.ensureAuth, Blobs.TOKEN_REFRESH_BUFFER_MS.
    destruct (Z.geb_spec (now + 5 * 60 * 1000) (Blobs.expires_at tokens));
      [|lia].
    unfold Blobs.refreshTokens. destruct response as [tokenData|]; [|reflexivity].
    cbn [Blobs.access_token]. now destruct saved.
  - intros tokens tokenData later response' saved' H -> -> store.
    assert (Hstore : store
              = Some (Blobs.mkTokens (Blobs.new_access_token tokenData)
                        (Blobs.new_refresh_token tokenData)
                        (refreshNow + Blobs.expires_in tokenData * 1000
                         - 2 * 60 * 1000))).
    { subst store. unfold Blobs.ensureAuth, Blobs.TOKEN_REFRESH_BUFFER_MS.
      destruct (Z.geb_spec (now + 5 * 60 * 1000) (Blobs.expires_at tokens));
        [reflexivity|lia]. }
    rewrite Hstore. unfold Blobs.ensureAuth, Blobs.TOKEN_REFRESH_BUFFER_MS.
    cbn [Blobs.expires_at Blobs.access_token].
    split.
    + intros Hlt.
      destruct (Z.geb_spec (later + 5 * 60 * 1000)
                  (refreshNow + Blobs.expires_in tokenData * 1000 - 2 * 60 * 1000));
        [lia|reflexivity].
    + intros Hshort Hlater ->.
      destruct (Z.geb_spec (later + 5 * 60 * 1000)
                  (refreshNow + Blobs.expires_in tokenData * 1000 - 2 * 60 * 1000));
        [reflexivity|lia].
Qed.

Lemma token_reuse_window_witness :
  Blobs.ensureAuth 0 0 None false (Some (Blobs.mkTokens "a" "r" 3600000))
  = (Some "a", Some (Blobs.mkTokens "a" "r" 3600000)).
Proof.
  apply (proj1 (proj2 (token_reuse_window 0 0 None false))
           (Blobs.mkTokens "a" "r" 3600000)).
  vm_compute. reflexivity.
Defined.

(** ** Choosing the game *)

Lemma sortWith_desc_head_max {A} (k : A -> R) (l : list A) : forall g rest,
  sortWith (fun a b => k b - k a) l = g :: rest ->
  forall h, In h l -> k h <= k g.
Proof.
  induction l as [|x l IH]; intros g rest Hs h Hin; [contradiction|].
  cbn [sortWith foldr] in Hs. fold (sortWith (fun a b => k b - k a) l) in Hs.
  pose proof (sortWith_perm (fun a b => k b - k a) l) as Hperm.
  destruct (sortWith (fun a b => k b - k a) l) as [|y r].
  - apply Permutation_nil in Hperm. subst l.
    cbn [insertSorted] in Hs. injection Hs as <- _.
    destruct Hin as [<-|[]]. lra.
  - specialize (IH y r eq_refl). cbn [insertSorted] in Hs.
    destruct (Rltb 0 (k y - k x)) eqn:C.
    + apply Rltb_true in C. injection Hs as <- _.
      destruct Hin as [<-|Hin]; [lra | now apply IH].
    + apply Rltb_false in C. injection Hs as <- _.
      destruct Hin as [<-|Hin]; [lra|]. specialize (IH h Hin). lra.
Qed.

Lemma find_first {A} (f : A -> bool) l x :
  List.find f l = Some x ->
  exists before after,
    l = before ++ x :: after /\ f x = true
    /\ Forall (fun y => f y = false) before.
Proof.
  induction l as [|y l IH]; [discriminate|]. cbn [List.find].
  destruct (f y) eqn:E.
  - intros [= ->]. exists [], l. auto.
  - intros H. destruct (IH H) as (before & after & -> & Hx & Hall).
    exists (y :: before), after. auto.
Qed.

(** X28.  [getCurrentGameKey] fails only when the user has no NFL game.
    Otherwise it returns the key of one of the user's games: the first one
    listed whose season is the requested season (the current year when none
    is requested), whatever its key, and when no game has that season the
    one with the highest key. *)
Theorem game_key_choice :
  forall requestedSeason year gamesArray,
    let target := targetSeasonOf requestedSeason year in
    (Yahoo.getCurrentGameKey requestedSeason year gamesArray = None
       <-> gamesArray = [])
    /\ (forall key,
          Yahoo.getCurrentGameKey requestedSeason year gamesArray = Some key ->
          exists game, In game gamesArray /\ Yahoo.game_key game = key
            /\ ((Yahoo.season game = target
                 /\ exists before after,
                      gamesArray = before ++ game :: after
                      /\ Forall (fun g => Yahoo.season g <> target) before)
                \/ (Forall (fun g => Yahoo.season g <> target) gamesArray
                    /\ Forall (fun g => (Yahoo.game_key g <= key)%Z)
                         gamesArray))).
Proof.
  intros requestedSeason year gamesArray target.
  unfold Yahoo.getCurrentGameKey. fold (targetSeasonOf requestedSeason year).
  fold target.
  destruct gamesArray as [|g0 games]; [split; [tauto | discriminate]|].
  set (all := g0 :: games).
  destruct (List.find (fun game => (Yahoo.season game =? target)%Z) all)
    as [game|] eqn:Efind.
  - split; [split; discriminate|].
    intros key [= <-].
    destruct (find_first _ _ _ Efind) as (before & after & Hall & Hs & Hbefore).
    exists game. split; [rewrite Hall; apply in_elt|]. split; [reflexivity|].
    left. apply Z.eqb_eq in Hs. split; [exact Hs|].
    exists before, after. split; [exact Hall|].
    revert Hbefore. apply List.Forall_impl.
    intros g Hg. now apply Z.eqb_neq in Hg.
  - pose proof (sortWith_perm
                  (fun a b => IZR (Yahoo.game_key b) - IZR (Yahoo.game_key a)) all)
      as Hperm.
    destruct (sortWith _ all) as [|first rest] eqn:Esort.
    + apply Permutation_nil in Hperm. discriminate Hperm.
    + split; [split; discriminate|].
      intros key [= <-]. exists first.
      split; [apply (Permutation_in _ Hperm); now left|].
      split; [reflexivity|]. right. split.
      * apply List.Forall_forall. intros g Hg.
        pose proof (find_none _ _ Efind g Hg) as Hne.
        now apply Z.eqb_neq in Hne.
      * apply List.Forall_forall. intros g Hg. apply le_IZR.
        exact (sortWith_desc_head_max (fun g => IZR (Yahoo.game_key g))
                 all first rest Esort g Hg).
Qed.

Lemma game_key_choice_witness :
  exists game,
    In game [Yahoo.mkGame 449 2025; Yahoo.mkGame 461 2026]
    /\ Yahoo.game_key game = 461%Z
    /\ ((Yahoo.season game = targetSeasonOf None 2026
         /\ exists before after,
              [Yahoo.mkGame 449 2025; Yahoo.mkGame 461 2026]
              = before ++ game :: after
              /\ Forall (fun g => Yahoo.season g <> targetSeasonOf None 2026)
                   before)
        \/ (Forall (fun g => Yahoo.season g <> targetSeasonOf None 2026)
              [Yahoo.mkGame 449 2025; Yahoo.mkGame 461 2026]
            /\ Forall (fun g => (Yahoo.game_key g <= 461)%Z)
                 [Yahoo.mkGame 449 2025; Yahoo.mkGame 461 2026])).
Proof.
  apply (proj2 (game_key_choice None 2026
                  [Yahoo.mkGame 449 2025; Yahoo.mkGame 461 2026])).
  reflexivity.
Defined.

(** ** Injuries in the score *)

Lemma calculateInjuryPenalty_range st : -999 <= calculateInjuryPenalty st <= 0.
Proof.
  destruct st as [s|]; [|simpl; lra].
  destruct (decide (s = "")) as [->|Hne]; [simpl; lra|].
  rewrite calculateInjuryPenalty_upper by assumption. cbn zeta.
  repeat match goal with
    | |- context [String.eqb ?a ?b] => destruct (String.eqb a b)
    end; cbn [orb]; lra.
Qed.

(** X29.  An injury status never raises the composite score: with the same
    EFP, context and cohort, a player with any status scores at most what a
    player of the same position without a status scores, and at most 199.8
    less. *)
Theorem injury_never_helps :
  forall efp0 ctx (hurt healthy : Player) rules allPlayers,
    position hurt = position healthy ->
    status healthy = None ->
    calculateSitStartScore efp0 ctx hurt rules allPlayers
      <= calculateSitStartScore efp0 ctx healthy rules allPlayers
    /\ calculateSitStartScore efp0 ctx healthy rules allPlayers
       - calculateSitStartScore efp0 ctx hurt rules allPlayers <= 199.8.
Proof.
  intros efp0 ctx hurt healthy rules allPlayers Hpos Hst.
  unfold calculateSitStartScore. destruct ctx as [ctx|]; [|lra].
  rewrite Hpos, Hst.
  pose proof (calculateInjuryPenalty_range (status hurt)).
  change (calculateInjuryPenalty None) with 0. lra.
Qed.

Lemma injury_never_helps_witness :
  let ctx := mkContext "KC" "DEN" (Some (-6)) (Some 44) (Some (mkIT 25 19)) in
  let hurt := mkPlayer "a" "RB" "KC" (Some "Q") None "RB" in
  let healthy := mkPlayer "b" "RB" "KC" None None "RB" in
  let rules := mkRules 0.04 4 (-2) 0.1 6 0.1 1 6 (-2) 2 in
  let cohort := [mkEstimated hurt ∅ (Some ctx) 9 0 false;
                 mkEstimated healthy ∅ (Some ctx) 12 0 false] in
  calculateSitStartScore 9 (Some ctx) hurt rules cohort
    <= calculateSitStartScore 9 (Some ctx) healthy rules cohort
  /\ calculateSitStartScore 9 (Some ctx) healthy rules cohort
     - calculateSitStartScore 9 (Some ctx) hurt rules cohort <= 199.8.
Proof.
  intros ctx hurt healthy rules cohort.
  exact (injury_never_helps 9 (Some ctx) hurt healthy rules cohort
           eq_refl eq_refl).
Defined.

(** ** Props as the handler passes them *)

Lemma wrapper_lookup (entry : Props) k :
  dom entry = wrapperKeys -> k ∉ wrapperKeys -> entry !! k = None.
Proof. intros Hdom Hk. apply not_elem_of_dom. now rewrite Hdom. Qed.

Lemma wrapper_nonempty (entry : Props) : dom entry = wrapperKeys -> entry <> ∅.
Proof.
  intros Hdom ->. rewrite dom_empty_L in Hdom.
  assert (H : "name" ∈ wrapperKeys)
    by (apply (bool_decide_unpack _); vm_compute; exact I).
  rewrite <- Hdom in H. now apply not_elem_of_empty in H.
Qed.

(** X30.  The handler hands the scorer the object stored under the player's
    name as it is.  For an entry with exactly the keys name, team and props
    (the shape of the objects [getPlayerProps] stores; the markets are one
    level down) and whatever is held under them, a player with a game is
    estimated at EFP 0 with ceiling bonus 0, at least 5 points below what
    the same player gets when the odds feed has no entry for the name. *)
Theorem wrapped_props_estimate_zero :
  forall lines (allProps : gmap string Props) rules (p : Player) game
         (entry : Props),
    getGameContext lines (team p) = Some game ->
    allProps !! name p = Some entry ->
    dom entry = wrapperKeys ->
    efp (estimate lines allProps rules p) = 0
    /\ ceiling_bonus (estimate lines allProps rules p) = 0
    /\ efp (estimate lines allProps rules p) + 5
       <= efp (estimate lines (delete (name p) allProps) rules p).
Proof.
  intros lines allProps rules p game entry Hctx Hentry Hdom.
  assert (Hnone : forall k, k ∉ wrapperKeys -> entry !! k = None)
    by (intros k; now apply wrapper_lookup).
  assert (Hf : forall field,
             In field ("two_plus_td_prob" :: scoredFields) ->
             entry !! field = None).
  { intros field Hin. apply Hnone. simpl in Hin.
    repeat (destruct Hin as [<-|Hin];
            [apply (bool_decide_unpack _); vm_compute; exact I|]).
    contradiction. }
  assert (Hefp : expectedFantasyPoints entry rules (position p) (Some game) = 0).
  { unfold expectedFantasyPoints.
    rewrite bool_decide_eq_false_2 by now apply wrapper_nonempty.
    rewrite !addProp_falsy; [reflexivity|..];
      rewrite Hf by (simpl; auto 10); reflexivity. }
  assert (Hceil : forall base,
             applyMultiTDBonus base entry rules (position p) = 0).
  { intros base. rewrite applyMultiTDBonus_product.
    rewrite Hf by (simpl; auto). simpl. lra. }
  unfold estimate. rewrite Hctx, Hentry, lookup_delete_eq.
  cbn [default efp ceiling_bonus]. unfold Datatypes.id. rewrite Hefp, Hceil.
  split; [lra|]. split; [reflexivity|].
  rewrite expectedFantasyPoints_empty, applyMultiTDBonus_product.
  rewrite lookup_empty. cbn [toNumber].
  assert (Hb : 5 <= baselineOf (position p)).
  { unfold baselineOf. repeat case_decide; lra. }
  assert (Hfb : baselineOf (position p)
                <= applyFallback (position p) (Some game) rules).
  { destruct (implied_totals game) as [its|] eqn:Hit.
    - rewrite (applyFallback_totals _ game its) by assumption.
      pose proof (Rmax_l 0 ((homeIT its - 21) / 3)).
      assert (0 <= fallbackScriptBonus (position p) (toNumber (spread game))).
      { unfold fallbackScriptBonus. repeat case_decide; rcases. }
      lra.
    - rewrite applyFallback_no_totals by assumption. lra. }
  lra.
Qed.

Lemma wrapped_props_estimate_zero_witness :
  efp (estimate [mkContext "KC" "DEN" None None None]
         {[ "Road Back" := ({[ "name" := 1; "team" := 0; "props" := 1 ]} : Props) ]}
         (mkRules 0.04 4 (-2) 0.1 6 0.1 1 6 (-2) 2)
         (mkPlayer "Road Back" "RB" "DEN" None None "RB")) = 0.
Proof.
  apply (proj1 (wrapped_props_estimate_zero
                  [mkContext "KC" "DEN" None None None]
                  {[ "Road Back" := ({[ "name" := 1; "team" := 0; "props" := 1 ]} : Props) ]}
                  (mkRules 0.04 4 (-2) 0.1 6 0.1 1 6 (-2) 2)
                  (mkPlayer "Road Back" "RB" "DEN" None None "RB")
                  (mkContext "KC" "DEN" None None None)
                  {[ "name" := 1; "team" := 0; "props" := 1 ]}
                  eq_refl
                  (lookup_singleton_eq _ _)
                  ltac:(apply (bool_decide_unpack _); vm_compute; exact I))).
Defined.
